(** * bldr: the build orchestrator of beepbop-labs/libraries

    A shallow embedding of the [bldr] package (command-line parsing, the
    source-to-dist path mapping, the one-shot and watch-mode build, the
    shutdown sequence and the per-path operation queue) together with the
    properties its specification states about them.

    Conventions.
    - JavaScript strings are [string]s, the bytes of their UTF-8 encoding.
    - An [async] function is cut at its [await]s: every piece between two
      suspension points is one Rocq function on an explicit state, and the
      environment (signals, child processes, timers, the file watcher) drives
      the pieces through an event type.
    - Console output, signals sent and process exit are recorded in an
      effect trace kept in the state. *)

From Stdlib Require Import ZArith Lia Bool Ascii String List DecimalString FunInd.
From stdpp Require Import base decidable option list gmap strings.

Local Open Scope string_scope.
Local Open Scope list_scope.

(* ===================================================================== *)
(** * Command-line parsing ([utils/args.ts]) *)
(* ===================================================================== *)

Module CLI.

(** [type Args = { watch: boolean; project?: string }] *)
Record Args := mkArgs { watch : bool; project : option string }.

(** How a call of [parseArgs] ends: it returns, it throws the usage error,
    or it leaves the process through [process.exit(0)] after printing the
    help text. *)
Inductive outcome :=
| Returned (a : Args)
| Thrown (msg : string)
| Exited (code : Z).

Definition usage_error : string :=
  "The -p/--project flag requires a path to a tsconfig.json file.".

(** The text [printHelp] writes. *)
Definition help_text : string :=
  "
bldr - A simple TypeScript build tool with dist synchronization.

Usage:
  bldr [options]

Options:
  -w, --watch    Watch for changes and sync deletions.
  -p, --project  Path to tsconfig.json (defaults to closest tsconfig.json).
  -h, --help     Show this help message.
".

Definition is_watch_flag (a : string) : bool :=
  String.eqb a "-w" || String.eqb a "--watch".

Definition is_project_flag (a : string) : bool :=
  String.eqb a "-p" || String.eqb a "--project".

Definition is_help_flag (a : string) : bool :=
  String.eqb a "-h" || String.eqb a "--help".

(** One of the six spellings the parser has a branch for. *)
Definition is_flag (a : string) : bool :=
  is_watch_flag a || is_project_flag a || is_help_flag a.

(** [next.startsWith("-")] *)
Definition startsWithDash (s : string) : bool := String.prefix "-" s.

(** Truthiness of a string: only the empty string is falsy. *)
Definition truthy (s : string) : bool := negb (String.eqb s "").

(** The [for] loop of [parseArgs], from index [i] on: [argv] is the part of
    the vector not yet visited, [args] the object built so far, [out] the
    lines written to the console so far.  The [i++] inside the [-p] branch
    is the recursive call on the tail of the tail. *)
Fixpoint parse_loop (argv : list string) (args : Args) (out : list string)
  : outcome * list string :=
  match argv with
  | [] => (Returned args, out)
  | a :: rest =>
      if is_watch_flag a then
        parse_loop rest (mkArgs true (project args)) out
      else if is_project_flag a then
        match rest with
        | next :: rest' =>
            if truthy next && negb (startsWithDash next) then
              parse_loop rest' (mkArgs (watch args) (Some next)) out
            else (Thrown usage_error, out)
        | [] => (Thrown usage_error, out)
        end
      else if is_help_flag a then (Exited 0, out ++ [help_text])
      else parse_loop rest args out
  end.

Definition parseArgs (argv : list string) : outcome * list string :=
  parse_loop argv (mkArgs false None) [].

(** The element just before position [length pre] is [-p] or [--project]. *)
Definition follows_project_flag (pre : list string) : bool :=
  match last pre with
  | Some a => is_project_flag a
  | None => false
  end.

(** A value that [-p] accepts: [next && !next.startsWith("-")]. *)
Definition is_path (p : string) : bool := truthy p && negb (startsWithDash p).

(** [-p] or [--project] in front of [rest] is refused: nothing follows, or
    what follows is empty or starts with a dash. *)
Definition lacks_value (rest : list string) : bool :=
  match rest with
  | [] => true
  | next :: _ => negb (is_path next)
  end.

(** What a later part of the vector makes of the [Args] built from an
    earlier part: [watch] is only ever set, [project] is overwritten. *)
Definition merge (a1 a2 : Args) : Args :=
  mkArgs (watch a1 || watch a2)
         (match project a2 with Some p => Some p | None => project a1 end).

Definition continue_with (a1 : Args) (o : outcome) : outcome :=
  match o with
  | Returned a2 => Returned (merge a1 a2)
  | other => other
  end.

(** The three ways in which the loop can end when nothing was printed
    before it. *)
Definition well_ended (r : outcome * list string) : Prop :=
  match fst r with
  | Returned a =>
      snd r = [] /\ match project a with Some p => is_path p = true | None => True end
  | Thrown msg => msg = usage_error /\ snd r = []
  | Exited code => code = 0%Z /\ snd r = [help_text]
  end.

Functional Scheme parse_loop_ind := Induction for parse_loop Sort Prop.

(** ** Properties *)

Example parseArgs_watch_project :
  parseArgs ["--watch"; "-p"; "tsconfig.build.json"]
  = (Returned (mkArgs true (Some "tsconfig.build.json")), []).
Proof. reflexivity. Qed.

Example parseArgs_stray :
  parseArgs ["build"; "--verbose"; "-w"] = (Returned (mkArgs true None), []).
Proof. reflexivity. Qed.

Example parseArgs_help : fst (parseArgs ["-x"; "-h"; "-p"]) = Exited 0.
Proof. reflexivity. Qed.

Lemma project_flag_starts_with_dash a :
  is_project_flag a = true -> startsWithDash a = true.
Proof.
  unfold is_project_flag. intros H. apply orb_true_iff in H.
  destruct H as [H|H]; apply String.eqb_eq in H; subst; reflexivity.
Qed.

Lemma project_flag_is_flag a : is_project_flag a = true -> is_flag a = true.
Proof. unfold is_flag. intros ->. now rewrite orb_true_r. Qed.

Lemma not_flag_branches a :
  is_flag a = false ->
  is_watch_flag a = false /\ is_project_flag a = false /\ is_help_flag a = false.
Proof.
  unfold is_flag. intros H.
  apply orb_false_iff in H as [H H3]. apply orb_false_iff in H as [H1 H2].
  auto.
Qed.

(** An argument the loop visits and has no branch for leaves [args] and the
    console untouched. *)
Lemma parse_loop_skip a rest args out :
  is_flag a = false -> parse_loop (a :: rest) args out = parse_loop rest args out.
Proof.
  intros H. destruct (not_flag_branches a H) as (H1 & H2 & H3).
  cbn [parse_loop]. now rewrite H1, H2, H3.
Qed.

Lemma last_cons_cons {A} (x y : A) l : last (x :: y :: l) = last (y :: l).
Proof. reflexivity. Qed.

Lemma parse_loop_remove_unrecognized n :
  forall pre a post args out,
    length pre <= n ->
    is_flag a = false ->
    follows_project_flag pre = false ->
    parse_loop (pre ++ a :: post) args out = parse_loop (pre ++ post) args out.
Proof.
  induction n as [|n IH]; intros pre a post args out Hlen Ha Hpre.
  - destruct pre; [|simpl in Hlen; lia]. now apply parse_loop_skip.
  - destruct pre as [|x pre]; [now apply parse_loop_skip|].
    simpl in Hlen.
    assert (Htail : pre <> [] -> follows_project_flag pre = false).
    { intros Hne. destruct pre as [|y pre]; [congruence|].
      unfold follows_project_flag in *. now rewrite last_cons_cons in Hpre. }
    cbn [app parse_loop].
    destruct (is_watch_flag x).
    { destruct pre as [|y pre]; [now apply parse_loop_skip|].
      apply IH; [simpl in *; lia|assumption|]. now apply Htail. }
    destruct (is_project_flag x) eqn:Hx.
    { destruct pre as [|next pre].
      - unfold follows_project_flag in Hpre. simpl in Hpre. congruence.
      - cbn [app]. destruct (truthy next && negb (startsWithDash next)) eqn:Hn;
          [|reflexivity].
        destruct pre as [|y pre]; [now apply parse_loop_skip|].
        apply IH; [simpl in *; lia|assumption|].
        unfold follows_project_flag in *.
        now rewrite !last_cons_cons in Hpre. }
    destruct (is_help_flag x); [reflexivity|].
    destruct pre as [|y pre]; [now apply parse_loop_skip|].
    apply IH; [simpl in *; lia|assumption|]. now apply Htail.
Qed.

(** C10, as amended.  For every argument vector, an argument that is none of
    [-w], [--watch], [-p], [--project], [-h], [--help] and that does not
    directly follow [-p] or [--project] is skipped silently: the outcome of
    [parseArgs] (the returned [Args], or the usage error or help exit caused
    by the other arguments) and the console output are those of the vector
    without it. *)
Theorem parseArgs_skips_unrecognized (pre post : list string) (a : string) :
  is_flag a = false ->
  follows_project_flag pre = false ->
  parseArgs (pre ++ a :: post) = parseArgs (pre ++ post).
Proof.
  intros Ha Hpre. unfold parseArgs.
  now apply (parse_loop_remove_unrecognized (length pre)).
Qed.

Lemma parseArgs_skips_unrecognized_witness :
  parseArgs (["-p"; "tsconfig.json"] ++ "--verbose" :: ["-w"])
  = parseArgs (["-p"; "tsconfig.json"] ++ ["-w"]).
Proof.
  apply (parseArgs_skips_unrecognized ["-p"; "tsconfig.json"] ["-w"] "--verbose");
    reflexivity.
Defined.

(** C10, as stated, fails: an unrecognized flag placed right after [-p] is
    not skipped, it turns a successful parse into the usage error. *)
Lemma parseArgs_skip_any_refuted :
  ~ (forall pre a post, is_flag a = false ->
       parseArgs (pre ++ a :: post) = parseArgs (pre ++ post)).
Proof.
  intros H. specialize (H ["-p"] "-x" ["dist/tsconfig.json"] eq_refl).
  vm_compute in H. discriminate H.
Qed.

(** ** The parser as a whole *)

Lemma watch_flag_only a :
  is_watch_flag a = true -> is_project_flag a = false /\ is_help_flag a = false.
Proof.
  unfold is_watch_flag. intros H. apply orb_true_iff in H as [H|H];
    apply String.eqb_eq in H; subst a; split; reflexivity.
Qed.

Lemma project_flag_only a : is_project_flag a = true -> is_watch_flag a = false.
Proof.
  unfold is_project_flag. intros H. apply orb_true_iff in H as [H|H];
    apply String.eqb_eq in H; subst a; reflexivity.
Qed.

Lemma parse_loop_well_ended argv args out :
  out = [] ->
  match project args with Some p => is_path p = true | None => True end ->
  well_ended (parse_loop argv args out).
Proof.
  functional induction (parse_loop argv args out) using parse_loop_ind;
    intros Hout Hp; subst out; unfold well_ended; cbn [fst snd]; auto.
  all: apply IHp; [reflexivity|]; cbn [project]; assumption.
Qed.

(** X1.  [parseArgs] ends in one of three ways and no other: it returns, having
    printed nothing, and a project path it returns is never empty and never
    starts with a dash; or it throws the usage error, having printed
    nothing; or it prints the help text, once, and exits with code 0. *)
Theorem parseArgs_ends_in_one_of_three_ways (argv : list string) :
  match parseArgs argv with
  | (Returned a, out) =>
      out = []
      /\ forall p, project a = Some p -> truthy p = true /\ startsWithDash p = false
  | (Thrown msg, out) => msg = usage_error /\ out = []
  | (Exited code, out) => code = 0%Z /\ out = [help_text]
  end.
Proof.
  pose proof (parse_loop_well_ended argv (mkArgs false None) [] eq_refl I) as H.
  fold (parseArgs argv) in H. unfold well_ended in H.
  destruct (parseArgs argv) as [[a|msg|code] out]; cbn [fst snd] in H; auto.
  destruct H as [-> H]. split; [reflexivity|]. intros p Hp. rewrite Hp in H.
  unfold is_path in H. apply andb_true_iff in H as [H1 H2].
  now apply negb_true_iff in H2.
Qed.

Lemma continue_with_watch args o :
  continue_with args (continue_with (mkArgs true None) o)
  = continue_with (mkArgs true (project args)) o.
Proof.
  destruct o as [[w p]| |]; cbn; [|reflexivity..].
  unfold merge; cbn. rewrite orb_true_r. now destruct p.
Qed.

Lemma continue_with_project args next o :
  continue_with args (continue_with (mkArgs false (Some next)) o)
  = continue_with (mkArgs (watch args) (Some next)) o.
Proof.
  destruct o as [[w p]| |]; cbn; [|reflexivity..].
  unfold merge; cbn. now destruct p.
Qed.

Lemma continue_with_fresh o : continue_with (mkArgs false None) o = o.
Proof.
  destruct o as [[w p]| |]; cbn; [|reflexivity..]. unfold merge; cbn. now destruct p.
Qed.

(** The loop started from [args] and [out] does what the loop started afresh
    does, on top of [args] and [out]. *)
Lemma parse_loop_from n : forall argv args out,
  length argv <= n ->
  parse_loop argv args out
  = (continue_with args (fst (parseArgs argv)), out ++ snd (parseArgs argv)).
Proof.
  unfold parseArgs.
  induction n as [|n IH]; intros argv args out Hn.
  - destruct argv; [|cbn in Hn; lia]. cbn. rewrite app_nil_r.
    unfold merge; cbn. rewrite orb_false_r. now destruct args.
  - destruct argv as [|a rest].
    { cbn. rewrite app_nil_r. unfold merge; cbn. rewrite orb_false_r. now destruct args. }
    cbn in Hn. cbn [parse_loop project watch].
    destruct (is_watch_flag a).
    { rewrite (IH rest (mkArgs true (project args)) out) by lia.
      rewrite (IH rest (mkArgs true None) []) by lia. cbn [fst snd app].
      now rewrite continue_with_watch. }
    destruct (is_project_flag a).
    { destruct rest as [|next rest']; [cbn; now rewrite app_nil_r|].
      destruct (truthy next && negb (startsWithDash next)); [|cbn; now rewrite app_nil_r].
      cbn in Hn.
      rewrite (IH rest' (mkArgs (watch args) (Some next)) out) by lia.
      rewrite (IH rest' (mkArgs false (Some next)) []) by lia. cbn [fst snd app].
      now rewrite continue_with_project. }
    destruct (is_help_flag a); [reflexivity|].
    rewrite (IH rest args out) by lia.
    rewrite (IH rest (mkArgs false None) []) by lia. cbn [fst snd app].
    now rewrite continue_with_fresh.
Qed.

(** A part of the vector on which the loop runs to its end hands its
    [Args] to the rest. *)
Lemma parse_loop_app xs : forall ys args out a' out',
  parse_loop xs args out = (Returned a', out') ->
  parse_loop (xs ++ ys) args out = parse_loop ys a' out'.
Proof.
  intros ys args out.
  functional induction (parse_loop xs args out) using parse_loop_ind;
    intros a' out' H; try discriminate H.
  - injection H as <- <-. reflexivity.
  - cbn [app parse_loop]. rewrite e0. now apply IHp.
  - cbn [app parse_loop]. rewrite e0, e1, e3. now apply IHp.
  - cbn [app parse_loop]. rewrite e0, e1, e2. now apply IHp.
Qed.

(** X2.  Parsing composes.  When [parseArgs] returns on [xs], parsing [xs]
    followed by [ys] ends as parsing [ys] alone does, and prints what that
    prints; if it returns, [watch] is set when either part sets it and
    [project] is the one of [ys] when [ys] gives one, that of [xs]
    otherwise (the last [-p] wins). *)
Theorem parseArgs_app (xs ys : list string) (a1 : Args) (out1 : list string) :
  parseArgs xs = (Returned a1, out1) ->
  parseArgs (xs ++ ys) = (continue_with a1 (fst (parseArgs ys)), snd (parseArgs ys)).
Proof.
  intros H.
  pose proof (parse_loop_well_ended xs (mkArgs false None) [] eq_refl I) as Hout.
  fold (parseArgs xs) in Hout. unfold well_ended in Hout. rewrite H in Hout.
  destruct Hout as [Hout _]. cbn [snd] in Hout. subst out1.
  unfold parseArgs at 1. rewrite (parse_loop_app xs ys _ _ a1 [] H).
  now rewrite (parse_loop_from (length ys)) by lia.
Qed.

Lemma parseArgs_app_witness :
  parseArgs (["-p"; "a.json"; "-w"] ++ ["--project"; "b.json"; "extra"])
  = (Returned (mkArgs true (Some "b.json")), []).
Proof.
  exact (parseArgs_app ["-p"; "a.json"; "-w"] ["--project"; "b.json"; "extra"]
                       (mkArgs true (Some "a.json")) [] eq_refl).
Defined.

Lemma parse_loop_without_project_flag argv : forall w out,
  existsb is_project_flag argv = false ->
  parse_loop argv (mkArgs w None) out
  = if existsb is_help_flag argv then (Exited 0, out ++ [help_text])
    else (Returned (mkArgs (w || existsb is_watch_flag argv) None), out).
Proof.
  induction argv as [|a rest IH]; intros w out H.
  - cbn. now rewrite orb_false_r.
  - cbn [existsb] in H |- *. apply orb_false_iff in H as [Ha Hrest].
    cbn [parse_loop project watch]. rewrite Ha.
    destruct (is_watch_flag a) eqn:Hw.
    + destruct (watch_flag_only a Hw) as [_ Hh]. rewrite Hh. cbn [orb].
      rewrite (IH true out Hrest). cbn [orb]. now rewrite orb_true_r.
    + destruct (is_help_flag a); [reflexivity|]. cbn [orb]. apply (IH w out Hrest).
Qed.

(** X3.  Without [-p] and [--project] the parser cannot throw.  If [-h] or
    [--help] occurs anywhere, the help text is printed and the process exits
    with code 0, whatever else is given; otherwise [parseArgs] returns, with
    [watch] set exactly when [-w] or [--watch] occurs somewhere, and no
    project. *)
Theorem parseArgs_without_project_flag (argv : list string) :
  existsb is_project_flag argv = false ->
  parseArgs argv
  = if existsb is_help_flag argv then (Exited 0, [help_text])
    else (Returned (mkArgs (existsb is_watch_flag argv) None), []).
Proof.
  intros H. unfold parseArgs. now rewrite (parse_loop_without_project_flag argv false [] H).
Qed.

Lemma parseArgs_without_project_flag_witness :
  parseArgs ["build"; "--watch"; "--verbose"; "-w"] = (Returned (mkArgs true None), [])
  /\ parseArgs ["-w"; "-x"; "--help"; "-w"] = (Exited 0, [help_text]).
Proof.
  split.
  - exact (parseArgs_without_project_flag ["build"; "--watch"; "--verbose"; "-w"] eq_refl).
  - exact (parseArgs_without_project_flag ["-w"; "-x"; "--help"; "-w"] eq_refl).
Defined.

(** X4.  The first [-p] or [--project], when no help flag comes before it, makes
    [parseArgs] throw the usage error, printing nothing, as soon as it is the
    last argument or is followed by an empty argument or by one that starts
    with a dash; what comes after that is not looked at. *)
Theorem parseArgs_project_needs_value (pre rest : list string) (a : string) :
  existsb is_project_flag pre = false ->
  existsb is_help_flag pre = false ->
  is_project_flag a = true ->
  lacks_value rest = true ->
  parseArgs (pre ++ a :: rest) = (Thrown usage_error, []).
Proof.
  intros Hp Hh Ha Hrest.
  pose proof (parse_loop_without_project_flag pre false [] Hp) as Hpre.
  rewrite Hh in Hpre.
  unfold parseArgs. rewrite (parse_loop_app pre _ _ _ _ _ Hpre).
  cbn [parse_loop]. rewrite Ha, (project_flag_only a Ha).
  destruct rest as [|next rest']; [reflexivity|].
  cbn [lacks_value] in Hrest. apply negb_true_iff in Hrest.
  unfold is_path in Hrest. now rewrite Hrest.
Qed.

Lemma parseArgs_project_needs_value_witness :
  parseArgs (["-w"; "src"] ++ "--project" :: ["--watch"; "-h"]) = (Thrown usage_error, [])
  /\ parseArgs (["-w"] ++ "-p" :: []) = (Thrown usage_error, [])
  /\ parseArgs ([] ++ "-p" :: [""; "tsconfig.json"]) = (Thrown usage_error, []).
Proof.
  split; [|split].
  - exact (parseArgs_project_needs_value ["-w"; "src"] ["--watch"; "-h"] "--project"
             eq_refl eq_refl eq_refl eq_refl).
  - exact (parseArgs_project_needs_value ["-w"] [] "-p" eq_refl eq_refl eq_refl eq_refl).
  - exact (parseArgs_project_needs_value [] [""; "tsconfig.json"] "-p"
             eq_refl eq_refl eq_refl eq_refl).
Defined.

End CLI.

(* ===================================================================== *)
(** * Strings *)
(* ===================================================================== *)

Module Str.

Lemma append_cons c s t : String c s +:+ t = String c (s +:+ t).
Proof. reflexivity. Qed.

Lemma append_nil_l s : "" +:+ s = s.
Proof. reflexivity. Qed.

Lemma append_nil_r s : s +:+ "" = s.
Proof. induction s as [|c s IH]; [reflexivity|]. now rewrite append_cons, IH. Qed.

Lemma append_assoc s t u : (s +:+ t) +:+ u = s +:+ (t +:+ u).
Proof.
  induction s as [|c s IH]; [reflexivity|]. now rewrite !append_cons, IH.
Qed.

Lemma append_eq_nil s t : s +:+ t = "" -> s = "" /\ t = "".
Proof. destruct s; [rewrite append_nil_l; auto|rewrite append_cons; discriminate]. Qed.

Lemma prefix_app a b : String.prefix a (a +:+ b) = true.
Proof.
  induction a as [|c a IH]; [now destruct b|].
  rewrite append_cons. cbn [String.prefix]. now destruct (ascii_dec c c).
Qed.

Lemma prefix_inv a : forall b, String.prefix a b = true -> exists c, b = a +:+ c.
Proof.
  induction a as [|x a IH]; intros b H.
  - exists b. now rewrite append_nil_l.
  - destruct b as [|y b]; [discriminate H|]. cbn [String.prefix] in H.
    destruct (ascii_dec x y) as [->|]; [|discriminate H].
    destruct (IH b H) as [c ->]. exists c. now rewrite append_cons.
Qed.

Lemma prefix_trans a b c :
  String.prefix a b = true -> String.prefix b c = true -> String.prefix a c = true.
Proof.
  intros H1 H2. apply prefix_inv in H1 as [x ->]. apply prefix_inv in H2 as [y ->].
  rewrite append_assoc. apply prefix_app.
Qed.

Lemma list_ascii_app s t :
  list_ascii_of_string (s +:+ t) = list_ascii_of_string s ++ list_ascii_of_string t.
Proof.
  induction s as [|c s IH]; [reflexivity|]. rewrite append_cons. cbn. now rewrite IH.
Qed.

Lemma list_ascii_inj s t : list_ascii_of_string s = list_ascii_of_string t -> s = t.
Proof.
  intros H. rewrite <- (string_of_list_ascii_of_string s), H.
  apply string_of_list_ascii_of_string.
Qed.

End Str.

(* ===================================================================== *)
(** * Paths: the fragment of [node:path] (POSIX flavour) that bldr uses *)
(* ===================================================================== *)

Module Path.

(** [s.split("/")] *)
Fixpoint split_slash (s : string) : list string :=
  match s with
  | EmptyString => [EmptyString]
  | String c s' =>
      if Ascii.eqb c "/" then EmptyString :: split_slash s'
      else match split_slash s' with
           | seg :: segs => String c seg :: segs
           | [] => [String c EmptyString]
           end
  end.

(** One step of Node's [normalizeString]: empty segments and [.] vanish,
    [..] removes the segment before it; above the start it is kept only
    when [allowAboveRoot] (relative paths). *)
Definition push_segment (allowAboveRoot : bool) (acc : list string) (seg : string)
  : list string :=
  if String.eqb seg "" || String.eqb seg "." then acc
  else if String.eqb seg ".." then
    match last acc with
    | Some l =>
        if String.eqb l ".." then acc ++ [seg] else removelast acc
    | None => if allowAboveRoot then [seg] else []
    end
  else acc ++ [seg].

Definition normalizeString (p : string) (allowAboveRoot : bool) : string :=
  String.concat "/" (fold_left (push_segment allowAboveRoot) (split_slash p) []).

Definition isAbsolute (p : string) : bool :=
  match p with
  | String c _ => Ascii.eqb c "/"
  | EmptyString => false
  end.

Fixpoint endsWithSlash (p : string) : bool :=
  match p with
  | EmptyString => false
  | String c EmptyString => Ascii.eqb c "/"
  | String _ p' => endsWithSlash p'
  end.

(** [path.normalize] *)
Definition normalize (p : string) : string :=
  if String.eqb p "" then "."
  else
    let body := normalizeString p (negb (isAbsolute p)) in
    if String.eqb body "" then
      if isAbsolute p then "/" else if endsWithSlash p then "./" else "."
    else
      let body' := if endsWithSlash p then body +:+ "/" else body in
      if isAbsolute p then "/" +:+ body' else body'.

(** [path.join(a, b)] *)
Definition join (a b : string) : string :=
  if String.eqb a "" then (if String.eqb b "" then "." else normalize b)
  else if String.eqb b "" then normalize a
  else normalize (a +:+ "/" +:+ b).

Section Resolve.

(** [process.cwd()], against which [path.resolve] completes a relative path. *)
Variable cwd : string.

(** The segments of [path.resolve(p)]. *)
Definition resolve_segments (p : string) : list string :=
  let full := if isAbsolute p then p else cwd +:+ "/" +:+ p in
  fold_left (push_segment false) (split_slash full) [].

Fixpoint drop_common (f t : list string) : list string * list string :=
  match f, t with
  | x :: f', y :: t' => if String.eqb x y then drop_common f' t' else (f, t)
  | _, _ => (f, t)
  end.

(** [path.relative(from, to)]: one [..] for every segment of [from] below
    the common ancestor, then what is left of [to]. *)
Definition relative (from to : string) : string :=
  let '(f, t) := drop_common (resolve_segments from) (resolve_segments to) in
  String.concat "/" (map (fun _ => "..") f ++ t).

End Resolve.

(** An absolute path written from its segments. *)
Definition render (segs : list string) : string := "/" +:+ String.concat "/" segs.

Fixpoint has_slash (s : string) : bool :=
  match s with
  | EmptyString => false
  | String c s' => Ascii.eqb c "/" || has_slash s'
  end.

(** A segment that [normalizeString] keeps as it is. *)
Definition plain (seg : string) : bool :=
  negb (has_slash seg) && negb (String.eqb seg "") &&
  negb (String.eqb seg ".") && negb (String.eqb seg "..").

(** ** Facts about the path functions *)

Example join_example : join "/repo/dist" "a/../b//c.ts" = "/repo/dist/b/c.ts".
Proof. reflexivity. Qed.

Example relative_example :
  relative "/" "/repo/src/" "/repo/src/a/b.ts" = "a/b.ts"
  /\ relative "/" "/repo/src/x" "/repo/lib/y" = "../../lib/y".
Proof. split; reflexivity. Qed.

Example normalize_examples :
  normalize "/" = "/" /\ normalize "a/.." = "." /\ normalize "../x/" = "../x/"
  /\ normalize "/../a//b/./" = "/a/b/".
Proof. repeat split; reflexivity. Qed.

Lemma split_slash_nonempty s : split_slash s <> [].
Proof.
  destruct s as [|c s]; simpl; [discriminate|].
  destruct (Ascii.eqb c "/"); [discriminate|].
  destruct (split_slash s); discriminate.
Qed.

Lemma split_slash_segment seg :
  has_slash seg = false -> split_slash seg = [seg].
Proof.
  induction seg as [|c seg IH]; simpl; [reflexivity|].
  intros H. apply orb_false_iff in H as [Hc Hs].
  rewrite Hc, (IH Hs). reflexivity.
Qed.

Lemma split_slash_app seg rest :
  has_slash seg = false ->
  split_slash (seg +:+ String "/" rest) = seg :: split_slash rest.
Proof.
  induction seg as [|c seg IH]; simpl; [reflexivity|].
  intros H. apply orb_false_iff in H as [Hc Hs].
  rewrite Hc, (IH Hs). reflexivity.
Qed.

Lemma split_slash_concat seg segs :
  forallb (fun s => negb (has_slash s)) (seg :: segs) = true ->
  split_slash (String.concat "/" (seg :: segs)) = seg :: segs.
Proof.
  revert seg. induction segs as [|s segs IH]; intros seg H.
  - simpl in *. apply split_slash_segment.
    rewrite andb_true_r in H. now apply negb_true_iff.
  - cbn [forallb] in H. apply andb_true_iff in H as [H1 H2].
    change (String.concat "/" (seg :: s :: segs))
      with (seg +:+ String "/" (String.concat "/" (s :: segs))).
    rewrite split_slash_app by now apply negb_true_iff.
    now rewrite IH.
Qed.

Lemma split_slash_concat_list segs :
  segs <> [] ->
  forallb (fun s => negb (has_slash s)) segs = true ->
  split_slash (String.concat "/" segs) = segs.
Proof. destruct segs; [congruence|]. intros _. apply split_slash_concat. Qed.

Lemma plain_no_slash seg : plain seg = true -> has_slash seg = false.
Proof.
  unfold plain. rewrite !andb_true_iff. intros [[[H _] _] _].
  now apply negb_true_iff.
Qed.

Lemma push_segment_plain b acc seg :
  plain seg = true -> push_segment b acc seg = acc ++ [seg].
Proof.
  unfold plain, push_segment. rewrite !andb_true_iff, !negb_true_iff.
  intros [[[_ H1] H2] H3]. now rewrite H1, H2, H3.
Qed.

Lemma fold_push_plain b segs : forall acc,
  forallb plain segs = true ->
  fold_left (push_segment b) segs acc = acc ++ segs.
Proof.
  induction segs as [|s segs IH]; intros acc H; simpl.
  - now rewrite app_nil_r.
  - simpl in H. apply andb_true_iff in H as [H1 H2].
    rewrite push_segment_plain by assumption.
    rewrite IH by assumption. now rewrite <- app_assoc.
Qed.

Lemma forallb_plain_no_slash segs :
  forallb plain segs = true ->
  forallb (fun s => negb (has_slash s)) segs = true.
Proof.
  induction segs as [|s segs IH]; simpl; [reflexivity|].
  rewrite !andb_true_iff. intros [H1 H2]. split; [|auto].
  apply negb_true_iff. now apply plain_no_slash.
Qed.

(** Splitting a rendered path gives back the segments behind one empty
    leading segment (two for the root itself). *)
Lemma split_slash_render segs :
  forallb plain segs = true ->
  fold_left (push_segment false) (split_slash (render segs)) [] = segs.
Proof.
  intros H. unfold render.
  change ("/" +:+ String.concat "/" segs)
    with (String "/" (String.concat "/" segs)).
  cbn [split_slash]. change (Ascii.eqb "/" "/") with true. cbv iota.
  destruct segs as [|s segs]; [reflexivity|].
  rewrite split_slash_concat by now apply forallb_plain_no_slash.
  change (fold_left (push_segment false) ("" :: s :: segs) [])
    with (fold_left (push_segment false) (s :: segs) []).
  rewrite fold_push_plain by assumption. reflexivity.
Qed.

Lemma resolve_segments_render cwd segs :
  forallb plain segs = true -> resolve_segments cwd (render segs) = segs.
Proof.
  intros H. unfold resolve_segments.
  change (isAbsolute (render segs)) with true. cbv iota.
  now apply split_slash_render.
Qed.

Lemma drop_common_prefix pre rest : drop_common (pre ++ rest) pre = (rest, []).
Proof.
  induction pre as [|x pre IH]; simpl.
  - now destruct rest.
  - now rewrite String.eqb_refl.
Qed.

Lemma drop_common_app pre rest : drop_common pre (pre ++ rest) = ([], rest).
Proof.
  induction pre as [|x pre IH]; simpl; [reflexivity|].
  now rewrite String.eqb_refl.
Qed.

(** [path.relative] of a path below its root is the path's tail. *)
Lemma relative_below cwd rs tl :
  forallb plain rs = true -> forallb plain tl = true ->
  relative cwd (render rs) (render (rs ++ tl)) = String.concat "/" tl.
Proof.
  intros Hr Ht. unfold relative.
  rewrite !resolve_segments_render; [|rewrite forallb_app, Hr, Ht; reflexivity|assumption].
  now rewrite drop_common_app.
Qed.

Lemma concat_slash_app segs tl :
  segs <> [] -> tl <> [] ->
  String.concat "/" (segs ++ tl)
  = String.concat "/" segs +:+ String "/" (String.concat "/" tl).
Proof.
  intros Hs Ht. induction segs as [|x segs IH]; [congruence|].
  destruct segs as [|y segs].
  - destruct tl; [congruence|]. reflexivity.
  - change (String.concat "/" ((x :: y :: segs) ++ tl))
      with (x +:+ String "/" (String.concat "/" ((y :: segs) ++ tl))).
    rewrite IH by discriminate.
    change (String.concat "/" (x :: y :: segs))
      with (x +:+ String "/" (String.concat "/" (y :: segs))).
    rewrite Str.append_assoc. reflexivity.
Qed.

(** The last segment can be extended in the string or in the list. *)
Lemma concat_slash_last segs x y :
  String.concat "/" (segs ++ [x +:+ y]) = String.concat "/" (segs ++ [x]) +:+ y.
Proof.
  induction segs as [|s segs IH]; [reflexivity|].
  destruct segs as [|s' segs].
  - cbn [app String.concat]. now rewrite Str.append_assoc.
  - change (String.concat "/" ((s :: s' :: segs) ++ [x +:+ y]))
      with (s +:+ String "/" (String.concat "/" ((s' :: segs) ++ [x +:+ y]))).
    rewrite IH.
    change (String.concat "/" ((s :: s' :: segs) ++ [x]))
      with (s +:+ String "/" (String.concat "/" ((s' :: segs) ++ [x]))).
    rewrite Str.append_assoc. reflexivity.
Qed.

Lemma render_last segs x y : render (segs ++ [x +:+ y]) = render (segs ++ [x]) +:+ y.
Proof. unfold render. now rewrite concat_slash_last. Qed.

Lemma endsWithSlash_app x s :
  s <> "" -> endsWithSlash (x +:+ s) = endsWithSlash s.
Proof.
  intros Hs. induction x as [|c x IH]; [reflexivity|].
  rewrite Str.append_cons. destruct (x +:+ s) eqn:E.
  - apply Str.append_eq_nil in E as [_ ->]. congruence.
  - exact IH.
Qed.

Lemma endsWithSlash_no_slash s : has_slash s = false -> endsWithSlash s = false.
Proof.
  induction s as [|c s IH]; [reflexivity|].
  simpl. intros H. apply orb_false_iff in H as [Hc Hs].
  destruct s; [assumption|]. now apply IH.
Qed.

Lemma plain_nonempty seg : plain seg = true -> seg <> "".
Proof.
  unfold plain. rewrite !andb_true_iff, !negb_true_iff.
  intros [[[_ H] _] _] ->. discriminate H.
Qed.

Lemma concat_slash_nonempty segs f :
  f <> "" -> String.concat "/" (segs ++ [f]) <> "".
Proof.
  intros Hf. destruct segs as [|s segs]; [exact Hf|].
  destruct segs as [|s' segs]; cbn [app String.concat]; destruct s; discriminate.
Qed.

Lemma endsWithSlash_concat pre segs f :
  plain f = true ->
  endsWithSlash (pre +:+ String.concat "/" (segs ++ [f])) = false.
Proof.
  intros Hf.
  replace (String.concat "/" (segs ++ [f]))
    with (String.concat "/" (segs ++ [""]) +:+ f)
    by (rewrite <- concat_slash_last; reflexivity).
  rewrite <- Str.append_assoc.
  rewrite endsWithSlash_app by now apply plain_nonempty.
  apply endsWithSlash_no_slash. now apply plain_no_slash.
Qed.

(** [path.join] of an absolute directory and a relative path of plain
    segments is the concatenation of the two segment lists. *)
Lemma join_render os tl f :
  forallb plain os = true -> forallb plain tl = true -> plain f = true ->
  join (render os) (String.concat "/" (tl ++ [f])) = render (os ++ tl ++ [f]).
Proof.
  intros Ho Ht Hf.
  assert (Hall : forallb plain (os ++ tl ++ [f]) = true).
  { rewrite !forallb_app, Ho, Ht. simpl. now rewrite Hf. }
  assert (Hb : String.concat "/" (tl ++ [f]) <> "")
    by (apply concat_slash_nonempty; now apply plain_nonempty).
  unfold join. change (String.eqb (render os) "") with false. cbv iota.
  apply String.eqb_neq in Hb. rewrite Hb.
  set (p := render os +:+ "/" +:+ String.concat "/" (tl ++ [f])).
  assert (Hsplit : fold_left (push_segment false) (split_slash p) [] = os ++ tl ++ [f]).
  { subst p. destruct os as [|o os].
    - change (render [] +:+ "/" +:+ String.concat "/" (tl ++ [f]))
        with (String "/" (String "/" (String.concat "/" (tl ++ [f])))).
      cbn [split_slash]. change (Ascii.eqb "/" "/") with true. cbv iota.
      rewrite split_slash_concat_list;
        [|destruct tl; discriminate|now apply forallb_plain_no_slash].
      change (fold_left ?g ("" :: "" :: ?l) []) with (fold_left g l []).
      now rewrite fold_push_plain.
    - rewrite <- (split_slash_render ((o :: os) ++ tl ++ [f])) by assumption.
      f_equal. unfold render.
      rewrite (concat_slash_app (o :: os) (tl ++ [f]));
        [|discriminate|destruct tl; discriminate].
      rewrite Str.append_assoc. reflexivity. }
  unfold normalize.
  assert (Hp : String.eqb p "" = false) by reflexivity.
  assert (Habs : isAbsolute p = true) by reflexivity.
  rewrite Hp, Habs. cbn [negb]. unfold normalizeString. rewrite Hsplit.
  assert (Hne : String.concat "/" (os ++ tl ++ [f]) <> "").
  { rewrite app_assoc. apply concat_slash_nonempty. now apply plain_nonempty. }
  apply String.eqb_neq in Hne. rewrite Hne.
  assert (Hend : endsWithSlash p = false).
  { subst p. rewrite <- Str.append_assoc. now apply endsWithSlash_concat. }
  rewrite Hend. reflexivity.
Qed.

(** A normalized absolute path is left alone. *)
Lemma normalize_render segs :
  forallb plain segs = true -> normalize (render segs) = render segs.
Proof.
  intros H. unfold normalize.
  assert (Hp : String.eqb (render segs) "" = false) by reflexivity.
  assert (Habs : isAbsolute (render segs) = true) by reflexivity.
  rewrite Hp, Habs. cbn [negb]. unfold normalizeString.
  rewrite split_slash_render by assumption.
  destruct segs as [|x segs] using rev_ind; [reflexivity|].
  clear IHsegs.
  assert (Hx : plain x = true).
  { rewrite forallb_app in H. apply andb_true_iff in H as [_ H]. cbn in H.
    now rewrite andb_true_r in H. }
  assert (Hne : String.concat "/" (segs ++ [x]) <> "").
  { apply concat_slash_nonempty. now apply plain_nonempty. }
  apply String.eqb_neq in Hne. rewrite Hne.
  assert (Hend : endsWithSlash (render (segs ++ [x])) = false).
  { unfold render. now apply (endsWithSlash_concat "/" segs x). }
  rewrite Hend. reflexivity.
Qed.

(** [path.join] of the output root with [path.relative] from the source
    root to a path at or below it: the path moved from one root to the
    other. *)
Lemma join_relative_below cwd rs os tl :
  forallb plain rs = true -> forallb plain os = true -> forallb plain tl = true ->
  join (render os) (relative cwd (render rs) (render (rs ++ tl))) = render (os ++ tl).
Proof.
  intros Hr Ho Ht. rewrite relative_below by assumption.
  destruct tl as [|f tl] using rev_ind.
  - rewrite app_nil_r. unfold join.
    change (String.eqb (render os) "") with false. cbn.
    now apply normalize_render.
  - clear IHtl. rewrite forallb_app in Ht. apply andb_true_iff in Ht as [Ht Hf].
    cbn in Hf. rewrite andb_true_r in Hf. now apply join_render.
Qed.

Lemma render_app a b :
  a <> [] -> b <> [] -> render (a ++ b) = render a +:+ "/" +:+ String.concat "/" b.
Proof.
  intros Ha Hb. unfold render. rewrite concat_slash_app by assumption.
  now rewrite Str.append_assoc.
Qed.

(** ** [path.dirname] *)

Lemma string_length_app s t : String.length (s +:+ t) = (String.length s + String.length t)%nat.
Proof.
  induction s as [|c s IH]; [reflexivity|]. rewrite Str.append_cons. simpl. now rewrite IH.
Qed.

(** The loop of [path.dirname], from the last character down to the second:
    [rev_tail] is what is still to be visited, last character first.  The
    result is [end], if the loop sets it. *)
Fixpoint dirname_scan (matchedSlash : bool) (rev_tail : list ascii) : option nat :=
  match rev_tail with
  | [] => None
  | c :: more =>
      if Ascii.eqb c "/" then
        if matchedSlash then dirname_scan true more else Some (S (length more))
      else dirname_scan false more
  end.

(** [path.dirname] *)
Definition dirname (p : string) : string :=
  match p with
  | EmptyString => "."
  | String c tail =>
      let hasRoot := Ascii.eqb c "/" in
      match dirname_scan true (rev (list_ascii_of_string tail)) with
      | None => if hasRoot then "/" else "."
      | Some e => if hasRoot && (e =? 1)%nat then "//" else String.substring 0 e p
      end
  end.

Example dirname_examples :
  dirname "/repo/src/a.ts" = "/repo/src" /\ dirname "/repo" = "/" /\ dirname "/" = "/"
  /\ dirname "a" = "." /\ dirname "a/b/" = "a" /\ dirname "//a" = "//" /\ dirname "" = "."
  /\ dirname "/a//b" = "/a/" /\ dirname "a/" = ".".
Proof. repeat split; reflexivity. Qed.

Lemma dirname_scan_segment x : forall b m,
  has_slash x = false -> x <> "" ->
  dirname_scan b (rev (list_ascii_of_string x) ++ "/"%char :: m) = Some (S (length m)).
Proof.
  assert (G : forall l m, Forall (fun c => Ascii.eqb c "/" = false) l ->
                          dirname_scan false (l ++ "/"%char :: m) = Some (S (length m))).
  { induction l as [|c l IH]; intros m H; [reflexivity|].
    inversion H as [|? ? Hc Hl]; subst. cbn. rewrite Hc. now apply IH. }
  intros b m Hs Hne.
  assert (Hall : Forall (fun c => Ascii.eqb c "/" = false) (rev (list_ascii_of_string x))).
  { apply Forall_rev. clear Hne. induction x as [|c x IH]; [constructor|].
    cbn in Hs. apply orb_false_iff in Hs as [Hc Hx]. constructor; auto. }
  destruct (rev (list_ascii_of_string x)) as [|c l] eqn:E.
  - destruct x; [congruence|]. cbn in E. now destruct (rev (list_ascii_of_string x)).
  - inversion Hall as [|? ? Hc Hl]; subst. cbn. rewrite Hc. now apply G.
Qed.

Lemma dirname_scan_no_slash x : forall b,
  has_slash x = false -> x <> "" ->
  dirname_scan b (rev (list_ascii_of_string x)) = None.
Proof.
  assert (G : forall l b, l <> [] -> Forall (fun c => Ascii.eqb c "/" = false) l ->
                          dirname_scan b l = None).
  { induction l as [|c l IH]; intros b Hne H; [congruence|].
    inversion H as [|? ? Hc Hl]; subst. cbn. rewrite Hc.
    destruct l; [reflexivity|]. now apply IH. }
  intros b Hs Hne. apply G.
  - destruct x; [congruence|]. cbn. now destruct (rev (list_ascii_of_string x)).
  - apply Forall_rev. clear Hne. induction x as [|c x IH]; [constructor|].
    cbn in Hs. apply orb_false_iff in Hs as [Hc Hx]. constructor; auto.
Qed.

Lemma substring_app a b : String.substring 0 (String.length a) (a +:+ b) = a.
Proof.
  induction a as [|c a IH]; [now destruct b|].
  rewrite Str.append_cons. cbn. now rewrite IH.
Qed.

Lemma length_list_ascii s : length (list_ascii_of_string s) = String.length s.
Proof. induction s; cbn; congruence. Qed.

(** The directory of a normalized absolute path is the path without its
    last segment. *)
Lemma dirname_render segs x :
  forallb plain segs = true -> plain x = true ->
  dirname (render (segs ++ [x])) = render segs.
Proof.
  intros Hs Hx.
  pose proof (plain_no_slash x Hx) as Hx1. pose proof (plain_nonempty x Hx) as Hx2.
  destruct segs as [|s segs].
  - change (render ([] ++ [x])) with (String "/" x). cbn [dirname].
    now rewrite dirname_scan_no_slash.
  - rewrite render_app by discriminate.
    change (String.concat "/" [x]) with x.
    set (d := render (s :: segs)).
    assert (Hd : exists t, d = String "/" t /\ t <> "").
    { exists (String.concat "/" (s :: segs)). split; [reflexivity|].
      destruct (@exists_last _ (s :: segs)) as (l & y & E); [discriminate|].
      rewrite E in Hs |- *. apply concat_slash_nonempty.
      rewrite forallb_app in Hs. apply andb_true_iff in Hs as [_ Hs]. cbn in Hs.
      rewrite andb_true_r in Hs. now apply plain_nonempty. }
    destruct Hd as (t & Hd & Ht). rewrite Hd.
    change (String "/" t +:+ "/" +:+ x) with (String "/" (t +:+ "/" +:+ x)).
    cbn [dirname].
    rewrite !Str.list_ascii_app, !rev_app_distr.
    change (rev (list_ascii_of_string "/")) with ["/"%char].
    rewrite <- app_assoc. cbn [app].
    rewrite dirname_scan_segment by assumption.
    rewrite length_rev, length_list_ascii.
    assert (Hl : (S (String.length t) =? 1)%nat = false).
    { apply Nat.eqb_neq. destruct t; [congruence|]. cbn. lia. }
    rewrite Hl, andb_false_r.
    change (String "/" (t +:+ "/" +:+ x)) with (String "/" t +:+ "/" +:+ x).
    change (S (String.length t)) with (String.length (String "/" t)).
    apply substring_app.
Qed.

Lemma dirname_root : dirname (render []) = render [].
Proof. reflexivity. Qed.


Lemma split_slash_no_slash s : Forall (fun seg => has_slash seg = false) (split_slash s).
Proof.
  induction s as [|c s IH]; [repeat constructor|].
  cbn [split_slash]. destruct (Ascii.eqb c "/") eqn:E.
  - constructor; [reflexivity|assumption].
  - destruct (split_slash s) as [|seg segs]; [repeat constructor; cbn; now rewrite E|].
    inversion IH; subst. constructor; [|assumption]. cbn. now rewrite E.
Qed.

Lemma push_segment_keeps_plain acc seg :
  forallb plain acc = true -> has_slash seg = false ->
  forallb plain (push_segment false acc seg) = true.
Proof.
  intros Ha Hs. unfold push_segment.
  destruct (String.eqb seg "" || String.eqb seg ".") eqn:E1; [assumption|].
  apply orb_false_iff in E1 as [E1 E2].
  destruct (String.eqb seg "..") eqn:E3.
  - destruct (last acc) as [l|] eqn:El; [|reflexivity].
    assert (Hl : plain l = true).
    { apply last_Some in El as [acc' ->]. rewrite forallb_app in Ha.
      apply andb_true_iff in Ha as [_ Ha]. cbn in Ha. now rewrite andb_true_r in Ha. }
    destruct (String.eqb l "..") eqn:E4.
    + apply String.eqb_eq in E4. subst l. discriminate Hl.
    + apply last_Some in El as [acc' ->]. rewrite removelast_last.
      rewrite forallb_app in Ha. now apply andb_true_iff in Ha as [Ha _].
  - rewrite forallb_app, Ha. cbn. unfold plain. now rewrite Hs, E1, E2, E3.
Qed.

(** [path.resolve] always gives a normalized absolute path. *)
Lemma resolve_segments_plain cwd p : forallb plain (resolve_segments cwd p) = true.
Proof.
  unfold resolve_segments.
  generalize (split_slash (if isAbsolute p then p else cwd +:+ "/" +:+ p)),
    (split_slash_no_slash (if isAbsolute p then p else cwd +:+ "/" +:+ p)).
  intros l Hl. assert (H : forallb plain [] = true) by reflexivity.
  revert H. generalize (@nil string) as acc.
  induction Hl as [|seg l Hseg Hl IH]; intros acc Hacc; [assumption|].
  cbn [fold_left]. apply IH. now apply push_segment_keeps_plain.
Qed.

Lemma length_le_render segs : length segs <= String.length (render segs).
Proof.
  unfold render. change ("/" +:+ ?x) with (String "/" x). cbn [String.length].
  induction segs as [|s segs IH]; [cbn; lia|].
  destruct segs as [|s' segs]; [cbn; lia|].
  change (String.concat "/" (s :: s' :: segs))
    with (s +:+ String "/" (String.concat "/" (s' :: segs))).
  rewrite string_length_app.
  change (String.length (String "/" ?x)) with (S (String.length x)).
  change (length (s :: ?l)) with (S (length l)). lia.
Qed.

Lemma render_snoc_neq segs x : plain x = true -> render segs <> render (segs ++ [x]).
Proof.
  intros Hx E. apply (f_equal String.length) in E.
  destruct segs as [|s segs].
  - change (render ([] ++ [x])) with (String "/" x) in E.
    change (render []) with "/" in E.
    apply plain_nonempty in Hx. destruct x; [congruence|]. cbn in E. lia.
  - rewrite render_app in E by discriminate. rewrite !string_length_app in E.
    change (String.length "/") with 1 in E. lia.
Qed.


End Path.

(* ===================================================================== *)
(** * The file system and the dist cleaner ([utils/fs.ts]) *)
(* ===================================================================== *)

Module Fs.

(** ASCII case folding, for the [i] flag of the two regular expressions. *)
Definition toLower (c : ascii) : ascii :=
  let n := nat_of_ascii c in
  if (65 <=? n)%nat && (n <=? 90)%nat then ascii_of_nat (n + 32) else c.

Fixpoint lowercase (s : string) : string :=
  match s with
  | EmptyString => EmptyString
  | String c s' => String (toLower c) (lowercase s')
  end.

Definition TS_EXTENSIONS : list string := ["ts"; "tsx"; "mts"; "cts"].

(** The alternation [(ts|tsx|mts|cts)] under the [i] flag, matched against
    the whole of [e]. *)
Definition recognized_ext (e : string) : bool :=
  existsb (String.eqb (lowercase e)) TS_EXTENSIONS.

(** [/\.(ts|tsx|mts|cts)$/i] matched at the head of [s]: because of the
    [$], the match has to use up all of [s]. *)
Definition ext_match_here (s : string) : bool :=
  match s with
  | String c e => Ascii.eqb c "." && recognized_ext e
  | EmptyString => false
  end.

(** [isTsLike]: [regex.test(filePath)], a match at some position. *)
Fixpoint isTsLike (filePath : string) : bool :=
  ext_match_here filePath ||
  match filePath with
  | String _ rest => isTsLike rest
  | EmptyString => false
  end.

(** [stripTsExt]: [p.replace(regex, "")], the leftmost match removed. *)
Fixpoint stripTsExt (p : string) : string :=
  if ext_match_here p then EmptyString
  else match p with
       | String c rest => String c (stripTsExt rest)
       | EmptyString => EmptyString
       end.

(** The file system: the set of paths that exist. *)
Definition within (dir q : string) : bool :=
  String.eqb dir q || String.prefix (dir +:+ "/") q.

(** [fs.promises.rm(p, { force: true, recursive: true })] when it succeeds. *)
Definition rm (p : string) (fs : gset string) : gset string :=
  filter (fun q => within p q = false) fs.

(** The same call when it fails.  A recursive removal is not undone: the
    entries at or below [p] that it had deleted before it failed, those
    that [deleted] holds of, stay deleted. *)
Definition rm_interrupted (deleted : string -> bool) (p : string) (fs : gset string)
  : gset string :=
  filter (fun q => within p q && deleted q = false) fs.

Section RmIfExists.

(** What the environment makes of a removal (permissions, busy files): the
    error code with which removing a path fails, if it does, and what a
    removal that fails has deleted by then. *)
Variable rm_fault : string -> option string.
Variable rm_partial : string -> string -> bool.

(** Of removals that run at the same time and fail, the position among them
    of the one that fails first. *)
Variable rm_earliest : list string -> nat.

(** [rmIfExists]: an [ENOENT] failure is swallowed, any other rethrown. *)
Definition rmIfExists (p : string) (fs : gset string) : gset string * option string :=
  match rm_fault p with
  | None => (rm p fs, None)
  | Some code =>
      (rm_interrupted (rm_partial p) p fs,
       if String.eqb code "ENOENT" then None else Some code)
  end.

Section DistCleaner.

Variable cwd : string.
Variables rootDirAbs outDirAbs : string.

Definition EMITTED_SUFFIXES : list string :=
  [".js"; ".js.map"; ".d.ts"; ".d.ts.map"; ".mjs"; ".mjs.map"; ".cjs"; ".cjs.map"].

Definition toOutPath (srcPathAbs : string) : string :=
  Path.join outDirAbs (Path.relative cwd rootDirAbs srcPathAbs).

(** The paths [removeEmittedForSource] hands to [rmIfExists]:
    [EMITTED_SUFFIXES.map((s) => base + s)]. *)
Definition emittedTargets (srcFileAbs : string) : list string :=
  let outLike := toOutPath srcFileAbs in
  let base := stripTsExt outLike in
  map (fun s => base +:+ s) EMITTED_SUFFIXES.

(** The removals that [EMITTED_SUFFIXES.map(...)] starts.  Every one of them
    runs to its end, whatever becomes of the others: the result is the file
    system once all of them have settled, with the errors of those that
    failed, in the order of the array. *)
Fixpoint rm_all (targets : list string) (fs : gset string)
  : gset string * list string :=
  match targets with
  | [] => (fs, [])
  | t :: ts =>
      let '(fs1, e1) := rmIfExists t fs in
      let '(fs2, es) := rm_all ts fs1 in
      (fs2, option_list e1 ++ es)
  end.

(** [await Promise.all(...)] rejects with the error of the promise that
    rejects first in time. *)
Definition promise_all (targets errors : list string) : option string :=
  errors !! (rm_earliest targets mod length errors)%nat.

Definition removeEmittedForSource (srcFileAbs : string) (fs : gset string)
  : gset string * option string :=
  let targets := emittedTargets srcFileAbs in
  let '(fs', errors) := rm_all targets fs in
  (fs', promise_all targets errors).

Definition removeOutDirForSourceDir (srcDirAbs : string) (fs : gset string)
  : gset string * option string :=
  rmIfExists (toOutPath srcDirAbs) fs.

(** The operation that the [unlink] handler of the source watcher hands to
    the operation queue for [absPath]: the emitted files of a source file,
    or the mirrored copy of any other file. *)
Definition unlinkOperation (absPath : string) (fs : gset string)
  : gset string * option string :=
  if isTsLike absPath then removeEmittedForSource absPath fs
  else rmIfExists (Path.join outDirAbs (Path.relative cwd rootDirAbs absPath)) fs.

End DistCleaner.
End RmIfExists.

Fixpoint has_dot (s : string) : bool :=
  match s with
  | EmptyString => false
  | String c s' => Ascii.eqb c "." || has_dot s'
  end.

(** ** Facts *)

Example isTsLike_examples :
  isTsLike "/src/a/b.ts" = true /\ isTsLike "/src/Comp.TSX" = true
  /\ isTsLike "/src/logo.png" = false /\ isTsLike "/src/a.ts/readme" = false
  /\ isTsLike "/src/x.mts" = true /\ isTsLike "/src/types.d.cts" = true.
Proof. repeat split; reflexivity. Qed.

Example stripTsExt_examples :
  stripTsExt "/dist/a/b.ts" = "/dist/a/b" /\ stripTsExt "/dist/x.d.ts" = "/dist/x.d"
  /\ stripTsExt "/dist/logo.png" = "/dist/logo.png"
  /\ stripTsExt "/dist/a.ts/b.MTS" = "/dist/a.ts/b".
Proof. repeat split; reflexivity. Qed.

Example emittedTargets_example :
  emittedTargets "/" "/repo/src" "/repo/dist" "/repo/src/a/b.ts"
  = ["/repo/dist/a/b.js"; "/repo/dist/a/b.js.map"; "/repo/dist/a/b.d.ts";
     "/repo/dist/a/b.d.ts.map"; "/repo/dist/a/b.mjs"; "/repo/dist/a/b.mjs.map";
     "/repo/dist/a/b.cjs"; "/repo/dist/a/b.cjs.map"].
Proof. reflexivity. Qed.

(** A built tree: one compiled source file and one copied asset. *)
Definition built : gset string :=
  {[ "/repo/dist/a/b.js"; "/repo/dist/a/b.js.map"; "/repo/dist/a/b.d.ts";
     "/repo/dist/assets/logo.png" ]}.

(** Deleting the source file removes its three outputs, and doing it again
    changes nothing. *)
Example deletion_sync :
  let once := unlinkOperation (fun _ => None) (fun _ _ => false) (fun _ => 0)
                              "/" "/repo/src" "/repo/dist" "/repo/src/a/b.ts" built in
  let twice := unlinkOperation (fun _ => None) (fun _ _ => false) (fun _ => 0)
                               "/" "/repo/src" "/repo/dist" "/repo/src/a/b.ts" once.1 in
  elements once.1 = ["/repo/dist/assets/logo.png"] /\ once.2 = None
  /\ elements twice.1 = ["/repo/dist/assets/logo.png"] /\ twice.2 = None.
Proof. vm_compute. repeat split; reflexivity. Qed.

(** Deleting an asset removes its copy and nothing else. *)
Example asset_deletion :
  let r := unlinkOperation (fun _ => None) (fun _ _ => false) (fun _ => 0)
                           "/" "/repo/src" "/repo/dist" "/repo/src/assets/logo.png" built in
  r.2 = None /\ r.1 = built ∖ {[ "/repo/dist/assets/logo.png" ]}.
Proof. split; [reflexivity|]. apply (bool_decide_unpack _). vm_compute. exact I. Qed.

(** A removal that fails for another reason than a missing file makes the
    whole operation fail; the other removals go through all the same. *)
Example deletion_fails :
  let r := unlinkOperation
             (fun q => if String.eqb q "/repo/dist/a/b.d.ts" then Some "EPERM" else None)
             (fun _ _ => false) (fun _ => 0)
             "/" "/repo/src" "/repo/dist" "/repo/src/a/b.ts" built in
  r.2 = Some "EPERM"
  /\ elements r.1 = ["/repo/dist/a/b.d.ts"; "/repo/dist/assets/logo.png"].
Proof. vm_compute. split; reflexivity. Qed.

(** Two removals fail: the operation fails with the error of the one that
    failed first, which need not be the first in the array. *)
Example deletion_fails_twice :
  let fault q := if String.eqb q "/repo/dist/a/b.js" then Some "EBUSY"
                 else if String.eqb q "/repo/dist/a/b.d.ts" then Some "EPERM" else None in
  (unlinkOperation fault (fun _ _ => false) (fun _ => 0)
                   "/" "/repo/src" "/repo/dist" "/repo/src/a/b.ts" built).2 = Some "EBUSY"
  /\ (unlinkOperation fault (fun _ _ => false) (fun _ => 1)
                      "/" "/repo/src" "/repo/dist" "/repo/src/a/b.ts" built).2 = Some "EPERM".
Proof. vm_compute. split; reflexivity. Qed.

Lemma toLower_dot c : Ascii.eqb (toLower c) "." = Ascii.eqb c ".".
Proof. destruct c as [[] [] [] [] [] [] [] []]; reflexivity. Qed.

Lemma toLower_slash c : Ascii.eqb (toLower c) "/" = Ascii.eqb c "/".
Proof. destruct c as [[] [] [] [] [] [] [] []]; reflexivity. Qed.

Lemma has_dot_lowercase s : has_dot (lowercase s) = has_dot s.
Proof. induction s as [|c s IH]; [reflexivity|]. simpl. now rewrite toLower_dot, IH. Qed.

Lemma has_slash_lowercase s : Path.has_slash (lowercase s) = Path.has_slash s.
Proof. induction s as [|c s IH]; [reflexivity|]. simpl. now rewrite toLower_slash, IH. Qed.

Lemma recognized_ext_cases e :
  recognized_ext e = true ->
  lowercase e = "ts" \/ lowercase e = "tsx" \/ lowercase e = "mts" \/ lowercase e = "cts".
Proof.
  unfold recognized_ext, TS_EXTENSIONS. cbn [existsb].
  rewrite orb_false_r, !orb_true_iff, !String.eqb_eq. tauto.
Qed.

Lemma recognized_ext_no_dot e : recognized_ext e = true -> has_dot e = false.
Proof.
  intros H. rewrite <- has_dot_lowercase.
  destruct (recognized_ext_cases e H) as [-> | [-> | [-> | ->]]]; reflexivity.
Qed.

Lemma recognized_ext_no_slash e : recognized_ext e = true -> Path.has_slash e = false.
Proof.
  intros H. rewrite <- has_slash_lowercase.
  destruct (recognized_ext_cases e H) as [-> | [-> | [-> | ->]]]; reflexivity.
Qed.

Lemma recognized_ext_length e : recognized_ext e = true -> (2 <= String.length e)%nat.
Proof.
  intros H.
  assert (Hl : String.length (lowercase e) = String.length e).
  { clear H. induction e as [|c e IH]; simpl; congruence. }
  rewrite <- Hl.
  destruct (recognized_ext_cases e H) as [-> | [-> | [-> | ->]]]; simpl; lia.
Qed.

Lemma has_dot_app s t : has_dot (s +:+ t) = has_dot s || has_dot t.
Proof.
  induction s as [|c s IH]; [reflexivity|].
  rewrite Str.append_cons. simpl. now rewrite IH, orb_assoc.
Qed.

Lemma has_slash_app s t : Path.has_slash (s +:+ t) = Path.has_slash s || Path.has_slash t.
Proof.
  induction s as [|c s IH]; [reflexivity|].
  rewrite Str.append_cons. simpl. now rewrite IH, orb_assoc.
Qed.

(** The pattern matches at the dot that starts the extension... *)
Lemma ext_match_here_ext e : recognized_ext e = true -> ext_match_here (String "." e) = true.
Proof. intros H. unfold ext_match_here. now rewrite H. Qed.

(** ... and nowhere before it: a match contains a single dot, its first
    character. *)
Lemma ext_match_here_single_dot c s :
  ext_match_here (String c s) = true -> has_dot s = false.
Proof.
  unfold ext_match_here. rewrite andb_true_iff. intros [_ H].
  now apply recognized_ext_no_dot.
Qed.

Lemma stripTsExt_app x e :
  recognized_ext e = true -> stripTsExt (x +:+ String "." e) = x.
Proof.
  intros He. induction x as [|c x IH].
  - rewrite Str.append_nil_l. cbn [stripTsExt]. now rewrite ext_match_here_ext.
  - rewrite Str.append_cons. cbn [stripTsExt].
    destruct (ext_match_here (String c (x +:+ String "." e))) eqn:E.
    + apply ext_match_here_single_dot in E. rewrite has_dot_app in E.
      simpl in E. rewrite orb_true_r in E. discriminate E.
    + now rewrite IH.
Qed.

Lemma isTsLike_app x e : recognized_ext e = true -> isTsLike (x +:+ String "." e) = true.
Proof.
  intros He. induction x as [|c x IH].
  - rewrite Str.append_nil_l. cbn [isTsLike]. now rewrite ext_match_here_ext.
  - rewrite Str.append_cons. cbn [isTsLike]. rewrite IH. apply orb_true_r.
Qed.

Lemma length_append s t : String.length (s +:+ t) = (String.length s + String.length t)%nat.
Proof.
  induction s as [|c s IH]; [reflexivity|]. rewrite Str.append_cons. simpl. now rewrite IH.
Qed.

(** A file name [stem.ext] with a recognized extension is a plain segment. *)
Lemma source_name_plain stem e :
  Path.has_slash stem = false -> recognized_ext e = true ->
  Path.plain (stem +:+ String "." e) = true.
Proof.
  intros Hs He.
  assert (Hlen : (3 <= String.length (stem +:+ String "." e))%nat).
  { rewrite length_append. simpl. pose proof (recognized_ext_length e He). lia. }
  unfold Path.plain. rewrite has_slash_app, Hs. simpl.
  rewrite (recognized_ext_no_slash e He). simpl.
  rewrite !andb_true_iff, !negb_true_iff, !String.eqb_neq.
  repeat split; intros E; rewrite E in Hlen; simpl in Hlen; lia.
Qed.

Lemma EMITTED_SUFFIXES_NoDup : NoDup EMITTED_SUFFIXES.
Proof. apply (bool_decide_unpack _). vm_compute. exact I. Qed.

(** C3.  For every source file [p] = root/ds.../stem.ext below the source
    root, with a recognized extension [ext] (ts, tsx, mts, cts, in any
    case), the paths removed for [p] are, for the configured suffixes in
    order, out/ds.../stem<suffix>: one path per suffix, all different, each
    at the position under the output root that mirrors the position of [p]
    under the source root, the extension taken off before the suffix is put
    on.  The mapping is a function of the two roots and [p] alone. *)
Theorem emittedTargets_mirror (cwd : string) (rs os ds : list string) (stem e : string) :
  forallb Path.plain rs = true ->
  forallb Path.plain os = true ->
  forallb Path.plain ds = true ->
  Path.has_slash stem = false ->
  recognized_ext e = true ->
  let p := Path.render (rs ++ ds ++ [stem +:+ "." +:+ e]) in
  let targets := emittedTargets cwd (Path.render rs) (Path.render os) p in
  isTsLike p = true
  /\ targets = map (fun suffix => Path.render (os ++ ds ++ [stem +:+ suffix])) EMITTED_SUFFIXES
  /\ length targets = length EMITTED_SUFFIXES
  /\ NoDup targets.
Proof.
  intros Hr Ho Hd Hs He p targets.
  change ("." +:+ e) with (String "." e) in p.
  assert (Hf : Path.plain (stem +:+ String "." e) = true)
    by now apply source_name_plain.
  assert (Hout : toOutPath cwd (Path.render rs) (Path.render os) p
                 = Path.render ((os ++ ds) ++ [stem]) +:+ String "." e).
  { unfold toOutPath, p.
    rewrite Path.relative_below;
      [|assumption|rewrite forallb_app, Hd; simpl; now rewrite Hf].
    rewrite Path.join_render by assumption.
    rewrite app_assoc. apply Path.render_last. }
  assert (Htargets : targets
    = map (fun suffix => Path.render (os ++ ds ++ [stem +:+ suffix])) EMITTED_SUFFIXES).
  { unfold targets, emittedTargets. rewrite Hout, stripTsExt_app by assumption.
    apply map_ext. intros s. rewrite app_assoc. symmetry. apply Path.render_last. }
  split; [|split; [exact Htargets|split]].
  - unfold p. rewrite app_assoc, Path.render_last. now apply isTsLike_app.
  - unfold targets, emittedTargets. now rewrite length_map.
  - unfold targets, emittedTargets.
    apply (NoDup_fmap_2 (String.append _)). apply EMITTED_SUFFIXES_NoDup.
Qed.

Lemma emittedTargets_mirror_witness :
  let p := Path.render (["repo"; "src"] ++ ["a"] ++ ["b" +:+ "." +:+ "ts"]) in
  let targets := emittedTargets "/" (Path.render ["repo"; "src"]) (Path.render ["repo"; "dist"]) p in
  isTsLike p = true
  /\ targets = map (fun suffix => Path.render (["repo"; "dist"] ++ ["a"] ++ ["b" +:+ suffix]))
                   EMITTED_SUFFIXES
  /\ length targets = length EMITTED_SUFFIXES
  /\ NoDup targets.
Proof.
  apply (emittedTargets_mirror "/" ["repo"; "src"] ["repo"; "dist"] ["a"] "b" "ts");
    reflexivity.
Defined.

(** ** The two patterns *)

Lemma toLower_idem c : toLower (toLower c) = toLower c.
Proof. destruct c as [[] [] [] [] [] [] [] []]; reflexivity. Qed.

Lemma lowercase_idem s : lowercase (lowercase s) = lowercase s.
Proof. induction s as [|c s IH]; [reflexivity|]. cbn. now rewrite toLower_idem, IH. Qed.

Lemma recognized_ext_lowercase e : recognized_ext (lowercase e) = recognized_ext e.
Proof. unfold recognized_ext. now rewrite lowercase_idem. Qed.

Lemma ext_match_here_lowercase s : ext_match_here (lowercase s) = ext_match_here s.
Proof.
  destruct s as [|c e]; [reflexivity|]. cbn [lowercase ext_match_here].
  now rewrite toLower_dot, recognized_ext_lowercase.
Qed.

(** X5.  The case of the letters does not matter to [isTsLike] and
    [stripTsExt]: a path is a source file exactly when its lower-case form
    is one, and stripping the extension commutes with lower-casing. *)
Theorem extension_case_is_ignored (p : string) :
  isTsLike (lowercase p) = isTsLike p
  /\ stripTsExt (lowercase p) = lowercase (stripTsExt p).
Proof.
  induction p as [|c p [IH1 IH2]]; [split; reflexivity|].
  pose proof (ext_match_here_lowercase (String c p)) as H.
  cbn [lowercase] in H. cbn [lowercase isTsLike stripTsExt].
  rewrite H, IH1. split; [reflexivity|].
  destruct (ext_match_here (String c p)); [reflexivity|].
  cbn [lowercase]. now rewrite IH2.
Qed.

(** X6.  [stripTsExt] and [isTsLike] agree.  A path that [isTsLike] accepts
    is what [stripTsExt] makes of it followed by a dot and one of the four
    extensions (in any case): exactly that extension is taken off, once.  A
    path that [isTsLike] refuses is returned unchanged. *)
Theorem stripTsExt_removes_the_extension (p : string) :
  (isTsLike p = true
   /\ exists e, recognized_ext e = true /\ p = stripTsExt p +:+ "." +:+ e)
  \/ (isTsLike p = false /\ stripTsExt p = p).
Proof.
  induction p as [|c p IH]; [right; split; reflexivity|].
  cbn [isTsLike stripTsExt].
  destruct (ext_match_here (String c p)) eqn:E.
  - left. split; [reflexivity|]. exists p.
    unfold ext_match_here in E. apply andb_true_iff in E as [Hc He].
    apply Ascii.eqb_eq in Hc. subst c. split; [assumption|reflexivity].
  - cbn [orb]. destruct IH as [[Hts (e & He & Hp)]|[Hts Hp]].
    + left. split; [assumption|]. exists e. split; [assumption|].
      rewrite Str.append_cons. now rewrite <- Hp.
    + right. split; [assumption|]. now rewrite Hp.
Qed.

(** The extension is looked for in the last segment only. *)
Lemma stripTsExt_dir a b : stripTsExt (a +:+ "/" +:+ b) = a +:+ "/" +:+ stripTsExt b.
Proof.
  induction a as [|c a IH].
  - rewrite !Str.append_nil_l. change ("/" +:+ b) with (String "/" b).
    cbn [stripTsExt ext_match_here]. reflexivity.
  - rewrite 2!(Str.append_cons c a). cbn [stripTsExt].
    destruct (ext_match_here (String c (a +:+ "/" +:+ b))) eqn:E; [|now rewrite IH].
    unfold ext_match_here in E. apply andb_true_iff in E as [_ E].
    apply recognized_ext_no_slash in E. rewrite has_slash_app in E.
    change ("/" +:+ b) with (String "/" b) in E. cbn in E.
    rewrite orb_true_r in E. discriminate E.
Qed.

(** ** What the removals leave *)

Lemma within_below d t q :
  String.prefix (d +:+ "/") t = true -> within t q = true -> within d q = true.
Proof.
  intros Hd Hq. unfold within in *. apply orb_true_iff. right.
  apply orb_true_iff in Hq as [Hq|Hq].
  - apply String.eqb_eq in Hq. now subst q.
  - apply (Str.prefix_trans _ t); [assumption|].
    apply (Str.prefix_trans _ (t +:+ "/")); [apply Str.prefix_app|assumption].
Qed.

Lemma within_render a b :
  a <> [] -> within (Path.render a) (Path.render (a ++ b)) = true.
Proof.
  intros Ha. unfold within. destruct b as [|x b].
  - rewrite app_nil_r, String.eqb_refl. reflexivity.
  - rewrite Path.render_app by (assumption || discriminate).
    rewrite <- Str.append_assoc, Str.prefix_app. apply orb_true_r.
Qed.

Section RemovalFacts.

Variable rm_fault : string -> option string.
Variable rm_partial : string -> string -> bool.
Variable rm_earliest : list string -> nat.

(** What a removal of [t] leaves, whichever way it went: what lay outside
    [t] and, if it failed, what it had not deleted by then. *)
Lemma rmIfExists_files t fs q :
  q ∈ (rmIfExists rm_fault rm_partial t fs).1
  <-> q ∈ fs /\ (within t q = true -> rm_fault t <> None /\ rm_partial t q = false).
Proof.
  unfold rmIfExists. destruct (rm_fault t) as [code|]; cbn [fst].
  - unfold rm_interrupted. rewrite elem_of_filter.
    destruct (within t q), (rm_partial t q); cbn [andb];
      (split; [intros [H Hq]; split; [exact Hq|]; intros E; try discriminate E;
               try discriminate H; now split
              |intros [Hq H]; split; [|exact Hq]; try reflexivity;
               now destruct (H eq_refl)]).
  - unfold rm. rewrite elem_of_filter. split.
    + intros [H Hq]. split; [exact Hq|]. intros E. congruence.
    + intros [Hq H]. split; [|exact Hq].
      destruct (within t q); [|reflexivity]. now destruct (H eq_refl).
Qed.

Lemma rmIfExists_error t fs :
  (rmIfExists rm_fault rm_partial t fs).2 = None
  <-> rm_fault t = None \/ rm_fault t = Some "ENOENT".
Proof.
  unfold rmIfExists. destruct (rm_fault t) as [code|]; [|cbn; tauto].
  destruct (String.eqb code "ENOENT") eqn:E; cbn [snd].
  - apply String.eqb_eq in E. subst. tauto.
  - apply String.eqb_neq in E. split; [discriminate|]. intros [H|H]; congruence.
Qed.

Lemma rmIfExists_rethrown t fs e :
  (rmIfExists rm_fault rm_partial t fs).2 = Some e
  <-> rm_fault t = Some e /\ e <> "ENOENT".
Proof.
  unfold rmIfExists. destruct (rm_fault t) as [code|]; cbn [snd].
  - destruct (String.eqb code "ENOENT") eqn:E.
    + apply String.eqb_eq in E. subst. split; [discriminate|]. intros [[= <-] H]. congruence.
    + apply String.eqb_neq in E. split; [intros [= <-]; now split|now intros [[= <-] _]].
  - split; [discriminate|]. now intros [H _].
Qed.

Lemma rm_all_files targets : forall fs q,
  q ∈ (rm_all rm_fault rm_partial targets fs).1
  <-> q ∈ fs /\ forall t, t ∈ targets -> within t q = true ->
                  rm_fault t <> None /\ rm_partial t q = false.
Proof.
  induction targets as [|t ts IH]; intros fs q; cbn [rm_all].
  - cbn [fst]. split; [intros H; split; [assumption|]|tauto].
    intros t Ht. now apply not_elem_of_nil in Ht.
  - pose proof (rmIfExists_files t fs q) as H1.
    destruct (rmIfExists rm_fault rm_partial t fs) as [fs1 e1]. cbn [fst] in H1.
    pose proof (IH fs1 q) as H2.
    destruct (rm_all rm_fault rm_partial ts fs1) as [fs2 es]. cbn [fst] in H2 |- *.
    rewrite H2, H1. split.
    + intros [[Hq Ht] Hts]. split; [assumption|].
      intros u Hu. apply elem_of_cons in Hu as [->|Hu]; auto.
    + intros [Hq H]. split; [split; [assumption|]|].
      * apply H, list_elem_of_here.
      * intros u Hu. apply H. now apply list_elem_of_further.
Qed.

(** The errors collected are those of the removals that fail otherwise than
    with [ENOENT]. *)
Lemma rm_all_errors targets : forall fs e,
  e ∈ (rm_all rm_fault rm_partial targets fs).2
  <-> exists t, t ∈ targets /\ rm_fault t = Some e /\ e <> "ENOENT".
Proof.
  induction targets as [|t ts IH]; intros fs e; cbn [rm_all].
  - cbn [snd]. split; [intros H; now apply not_elem_of_nil in H|].
    intros (t & Ht & _). now apply not_elem_of_nil in Ht.
  - pose proof (rmIfExists_rethrown t fs e) as H1.
    destruct (rmIfExists rm_fault rm_partial t fs) as [fs1 e1]. cbn [snd] in H1.
    pose proof (IH fs1 e) as H2.
    destruct (rm_all rm_fault rm_partial ts fs1) as [fs2 es]. cbn [snd] in H2 |- *.
    rewrite elem_of_app, H2. split.
    + intros [He|(u & Hu & Hf)].
      * exists t. split; [apply list_elem_of_here|]. apply H1.
        destruct e1 as [e'|]; cbn in He; [|now apply not_elem_of_nil in He].
        apply list_elem_of_singleton in He. now subst.
      * exists u. split; [now apply list_elem_of_further|exact Hf].
    + intros (u & Hu & Hf). apply elem_of_cons in Hu as [->|Hu].
      * left. apply H1 in Hf. rewrite Hf. cbn. apply list_elem_of_here.
      * right. now exists u.
Qed.

(** [Promise.all] rejects exactly when one of its promises does, and then
    with the error of one of them. *)
Lemma promise_all_none targets errors :
  promise_all rm_earliest targets errors = None <-> errors = [].
Proof.
  unfold promise_all. split; [|intros ->; apply lookup_nil].
  intros H. destruct errors as [|e errors]; [reflexivity|].
  apply lookup_ge_None in H.
  pose proof (Nat.mod_upper_bound (rm_earliest targets) (length (e :: errors))) as Hlt.
  cbn [length] in *. lia.
Qed.

Lemma promise_all_some targets errors e :
  promise_all rm_earliest targets errors = Some e -> e ∈ errors.
Proof. unfold promise_all. apply list_elem_of_lookup_2. Qed.

Variables cwd rootDirAbs outDirAbs : string.

(** X7.  [removeEmittedForSource] removes what it can.  Each of the eight
    removals is attempted whatever becomes of the others: once they have
    settled, a path exists exactly when it existed before and every target
    it lies at or below is one whose removal failed without having deleted
    it.  The call succeeds exactly when every removal went through or
    failed with [ENOENT]; one removal that fails otherwise makes the call
    fail, with the error of such a removal, without undoing or preventing
    the rest. *)
Theorem removeEmittedForSource_removes_what_it_can
    (srcFileAbs : string) (fs : gset string) :
  let r := removeEmittedForSource rm_fault rm_partial rm_earliest
                                  cwd rootDirAbs outDirAbs srcFileAbs fs in
  let targets := emittedTargets cwd rootDirAbs outDirAbs srcFileAbs in
  (forall q, q ∈ r.1 <->
             q ∈ fs /\ forall t, t ∈ targets -> within t q = true ->
                         rm_fault t <> None /\ rm_partial t q = false)
  /\ (r.2 = None <->
      forall t, t ∈ targets -> rm_fault t = None \/ rm_fault t = Some "ENOENT")
  /\ (forall e, r.2 = Some e ->
        e <> "ENOENT" /\ exists t, t ∈ targets /\ rm_fault t = Some e).
Proof.
  cbv zeta. unfold removeEmittedForSource.
  set (targets := emittedTargets cwd rootDirAbs outDirAbs srcFileAbs).
  pose proof (fun q => rm_all_files targets fs q) as Hfiles.
  pose proof (fun e => rm_all_errors targets fs e) as Herr.
  destruct (rm_all rm_fault rm_partial targets fs) as [fs' errors].
  cbn [fst snd] in *. split; [exact Hfiles|]. split.
  - rewrite promise_all_none. split.
    + intros -> t Ht. destruct (rm_fault t) as [code|] eqn:E; [|now left]. right.
      destruct (String.eqb code "ENOENT") eqn:En;
        [apply String.eqb_eq in En; now subst|].
      apply String.eqb_neq in En.
      assert (Hin : code ∈ @nil string) by (apply Herr; now exists t).
      now apply not_elem_of_nil in Hin.
    + intros H. destruct errors as [|e errors]; [reflexivity|].
      destruct (proj1 (Herr e) (list_elem_of_here _ _)) as (t & Ht & Hf & Hne).
      destruct (H t Ht) as [E|E]; congruence.
  - intros e He. apply promise_all_some, Herr in He as (t & Ht & Hf & Hne).
    split; [exact Hne|now exists t].
Qed.

End RemovalFacts.

(** Every path removed for a source below [ds] under the source root starts
    with the mirror of [ds] under the output root. *)
Lemma emittedTargets_prefix cwd rs os ds tl t :
  forallb Path.plain rs = true -> forallb Path.plain os = true ->
  forallb Path.plain ds = true -> forallb Path.plain tl = true ->
  os <> [] -> tl <> [] ->
  t ∈ emittedTargets cwd (Path.render rs) (Path.render os) (Path.render (rs ++ ds ++ tl)) ->
  String.prefix (Path.render (os ++ ds) +:+ "/") t = true.
Proof.
  intros Hr Ho Hd Ht Hos Htl Hin. unfold emittedTargets, toOutPath in Hin.
  rewrite Path.join_relative_below in Hin;
    [|assumption..|rewrite forallb_app, Hd, Ht; reflexivity].
  rewrite app_assoc, Path.render_app in Hin;
    [|destruct os; [congruence|discriminate]|assumption].
  rewrite stripTsExt_dir in Hin.
  apply list_elem_of_fmap in Hin as (s & -> & _).
  rewrite <- (Str.append_assoc (Path.render (os ++ ds))), Str.append_assoc.
  apply Str.prefix_app.
Qed.

(** X8.  Deletion sync stays inside the output directory.  When the watcher
    reports the deletion of a path below the source root, whatever that
    path is (source file or asset), whatever exists and whichever removals
    fail, nothing that lies outside the output directory is removed. *)
Theorem unlink_stays_in_outDir
    (rm_fault : string -> option string) (rm_partial : string -> string -> bool)
    (rm_earliest : list string -> nat) (cwd : string) (rs os tl : list string)
    (fs : gset string) (q : string) :
  forallb Path.plain rs = true -> forallb Path.plain os = true ->
  forallb Path.plain tl = true ->
  os <> [] -> tl <> [] ->
  q ∈ fs ->
  within (Path.render os) q = false ->
  q ∈ (unlinkOperation rm_fault rm_partial rm_earliest cwd (Path.render rs)
                       (Path.render os) (Path.render (rs ++ tl)) fs).1.
Proof.
  intros Hr Ho Ht Hos Htl Hq Hout. unfold unlinkOperation.
  assert (Hkeep : forall t, String.prefix (Path.render os +:+ "/") t = true ->
                            within t q = false).
  { intros t Hp. destruct (within t q) eqn:E; [|reflexivity].
    rewrite (within_below (Path.render os) t q Hp E) in Hout. discriminate Hout. }
  destruct (isTsLike (Path.render (rs ++ tl))).
  - unfold removeEmittedForSource.
    pose proof (rm_all_files rm_fault rm_partial
                  (emittedTargets cwd (Path.render rs) (Path.render os)
                                  (Path.render (rs ++ tl))) fs q) as Hfiles.
    destruct (rm_all _ _ _ fs) as [fs' errors]. cbn [fst] in *.
    apply Hfiles. split; [assumption|]. intros t Hin Hw.
    rewrite Hkeep in Hw; [discriminate Hw|].
    rewrite <- (app_nil_r os) at 1. now apply (emittedTargets_prefix cwd rs os [] tl).
  - rewrite rmIfExists_files. split; [assumption|]. intros Hw.
    rewrite Hkeep in Hw; [discriminate Hw|].
    rewrite Path.join_relative_below by assumption.
    rewrite Path.render_app by assumption.
    rewrite <- Str.append_assoc. apply Str.prefix_app.
Qed.

Lemma unlink_stays_in_outDir_witness :
  "/repo/dist2/a/b.js"
  ∈ (unlinkOperation (fun _ => Some "EPERM") (fun _ _ => true) (fun _ => 0)
       "/" (Path.render ["repo"; "src"])
       (Path.render ["repo"; "dist"]) (Path.render (["repo"; "src"] ++ ["a"; "b.ts"]))
       {[ "/repo/dist/a/b.js"; "/repo/dist2/a/b.js" ]}).1.
Proof.
  apply (unlink_stays_in_outDir (fun _ => Some "EPERM") (fun _ _ => true) (fun _ => 0)
           "/" ["repo"; "src"] ["repo"; "dist"] ["a"; "b.ts"]);
    [reflexivity|reflexivity|reflexivity|discriminate|discriminate| |reflexivity].
  apply elem_of_union. right. now apply elem_of_singleton.
Defined.

(** X9.  Deleting a source directory takes the outputs of everything below it
    along.  When the removal of the mirrored directory goes through,
    [removeOutDirForSourceDir] succeeds; for every path below the deleted
    directory neither its copy under the output root nor any of the eight
    files [removeEmittedForSource] would target for it is left; and what
    lies outside the mirrored directory is kept. *)
Theorem unlinkDir_removes_outputs_below
    (rm_fault : string -> option string) (rm_partial : string -> string -> bool)
    (cwd : string) (rs os ds tl : list string) (fs : gset string) :
  forallb Path.plain rs = true -> forallb Path.plain os = true ->
  forallb Path.plain ds = true -> forallb Path.plain tl = true ->
  os <> [] -> tl <> [] ->
  rm_fault (Path.render (os ++ ds)) = None ->
  let r := removeOutDirForSourceDir rm_fault rm_partial cwd (Path.render rs)
                                    (Path.render os) (Path.render (rs ++ ds)) fs in
  r.2 = None
  /\ (Path.render (os ++ ds ++ tl) ∉ r.1)
  /\ (forall t, t ∈ emittedTargets cwd (Path.render rs) (Path.render os)
                                   (Path.render (rs ++ ds ++ tl)) ->
                t ∉ r.1)
  /\ (forall q, q ∈ fs -> within (Path.render (os ++ ds)) q = false -> q ∈ r.1).
Proof.
  intros Hr Ho Hd Ht Hos Htl Hrm r.
  assert (Hne : os ++ ds <> []) by (destruct os; [congruence|discriminate]).
  assert (Hr1 : forall q, q ∈ r.1 <-> q ∈ fs /\ within (Path.render (os ++ ds)) q = false).
  { intros q. unfold r, removeOutDirForSourceDir, toOutPath.
    rewrite Path.join_relative_below by assumption.
    rewrite rmIfExists_files. rewrite Hrm.
    destruct (within (Path.render (os ++ ds)) q); [|intuition discriminate].
    split; [intros [_ H]; now destruct (H eq_refl)|intros [_ H]; discriminate H]. }
  split; [|split; [|split]].
  - unfold r, removeOutDirForSourceDir, toOutPath.
    rewrite Path.join_relative_below by assumption.
    apply rmIfExists_error. now left.
  - rewrite Hr1. intros [_ H]. rewrite app_assoc, within_render in H by assumption.
    discriminate H.
  - intros t Hin. rewrite Hr1. intros [_ H].
    pose proof (emittedTargets_prefix cwd rs os ds tl t Hr Ho Hd Ht Hos Htl Hin) as Hp.
    unfold within in H. apply orb_false_iff in H as [_ H].
    apply Str.prefix_inv in Hp as [c ->].
    rewrite Str.prefix_app in H. discriminate H.
  - intros q Hq Hout. rewrite Hr1. now split.
Qed.

Lemma unlinkDir_removes_outputs_below_witness :
  let r := removeOutDirForSourceDir (fun _ => None) (fun _ _ => false) "/"
             (Path.render ["repo"; "src"])
             (Path.render ["repo"; "dist"]) (Path.render (["repo"; "src"] ++ ["a"]))
             {[ "/repo/dist/a/x/b.js"; "/repo/dist/a/x/b.d.ts"; "/repo/dist/ab.js" ]} in
  r.2 = None
  /\ (Path.render (["repo"; "dist"] ++ ["a"] ++ ["x"; "b.ts"]) ∉ r.1)
  /\ (forall t, t ∈ emittedTargets "/" (Path.render ["repo"; "src"])
                     (Path.render ["repo"; "dist"])
                     (Path.render (["repo"; "src"] ++ ["a"] ++ ["x"; "b.ts"])) ->
                t ∉ r.1)
  /\ (forall q, q ∈ ({[ "/repo/dist/a/x/b.js"; "/repo/dist/a/x/b.d.ts";
                        "/repo/dist/ab.js" ]} : gset string) ->
                within (Path.render (["repo"; "dist"] ++ ["a"])) q = false -> q ∈ r.1).
Proof.
  apply (unlinkDir_removes_outputs_below (fun _ => None) (fun _ _ => false) "/"
           ["repo"; "src"] ["repo"; "dist"] ["a"] ["x"; "b.ts"]);
    [reflexivity|reflexivity|reflexivity|reflexivity|discriminate|discriminate|reflexivity].
Defined.

(** ** Outputs of different sources are kept apart *)

(** No emitted suffix ends with another one: what precedes the suffix can
    be read off the emitted path. *)
Lemma emitted_suffix_inj b1 b2 s1 s2 :
  s1 ∈ EMITTED_SUFFIXES -> s2 ∈ EMITTED_SUFFIXES ->
  b1 +:+ s1 = b2 +:+ s2 -> b1 = b2 /\ s1 = s2.
Proof.
  intros H1 H2 E.
  apply (f_equal list_ascii_of_string) in E. rewrite !Str.list_ascii_app in E.
  apply (f_equal (@rev ascii)) in E. rewrite !rev_app_distr in E.
  assert (Hb : forall x y,
             rev (list_ascii_of_string x) = rev (list_ascii_of_string y) -> x = y).
  { intros x y H. apply Str.list_ascii_inj, rev_inj. exact H. }
  unfold EMITTED_SUFFIXES in H1, H2.
  repeat (apply elem_of_cons in H1 as [->|H1]); [..|now apply not_elem_of_nil in H1];
    repeat (apply elem_of_cons in H2 as [->|H2]); try (now apply not_elem_of_nil in H2);
    cbn in E; try discriminate E;
    injection E as E; (split; [now apply Hb|reflexivity]).
Qed.

(** X10.  Two sources whose output paths differ once the extension is taken off
    share no emitted file: what [removeEmittedForSource] targets for one of
    them is never a target for the other. *)
Theorem emittedTargets_disjoint (cwd rootDirAbs outDirAbs p1 p2 t : string) :
  stripTsExt (toOutPath cwd rootDirAbs outDirAbs p1)
  <> stripTsExt (toOutPath cwd rootDirAbs outDirAbs p2) ->
  t ∈ emittedTargets cwd rootDirAbs outDirAbs p1 ->
  t ∉ emittedTargets cwd rootDirAbs outDirAbs p2.
Proof.
  intros Hne H1 H2. unfold emittedTargets in H1, H2.
  apply list_elem_of_fmap in H1 as (s1 & -> & Hs1).
  apply list_elem_of_fmap in H2 as (s2 & E & Hs2).
  now destruct (emitted_suffix_inj _ _ s1 s2 Hs1 Hs2 E).
Qed.

Lemma emittedTargets_disjoint_witness :
  "/repo/dist/a.d.ts" ∉ emittedTargets "/" "/repo/src" "/repo/dist" "/repo/src/a.d.ts".
Proof.
  apply (emittedTargets_disjoint "/" "/repo/src" "/repo/dist" "/repo/src/a.ts").
  - vm_compute. discriminate.
  - apply (bool_decide_unpack _). vm_compute. exact I.
Defined.

End Fs.

(* ===================================================================== *)
(** * The orchestrator ([core/builder.ts], [utils/process.ts]) *)
(* ===================================================================== *)

Module Builder.

(** The two managed child processes. *)
Inductive Proc := Tsc | Alias.

Definition proc_name (p : Proc) : string :=
  match p with Tsc => "tsc" | Alias => "tsc-alias" end.

Inductive Sig := SIGTERM | SIGKILL.

(** The three panels of the terminal display. *)
Inductive Box := BldrBox | TscBox | AliasBox.

(** What the orchestrator does to the outside world, in the order in which
    it happens. *)
Inductive Effect :=
| Stdout (text : string)               (* the real [console.log] *)
| Stderr (text : string)               (* the real [console.error] *)
| Display (box : Box) (text : string)  (* text handed to a panel of the display *)
| Swallowed (text : string)            (* the replaced console with no display behind it *)
| UiCreated
| UiDestroyed
| FlagSet                              (* [shutdown.inProgress = true] *)
| Spawn (cmd : string) (args : list string)
| PipesAttached (p : Proc)
| WatcherStarted (root : string)
| WatcherClose                         (* [state.watcher.close()] called *)
| Kill (p : Proc) (sig : Sig) (delivered : bool)
| ProcessExit (code : Z).

(** A [ChildProcess] of Node: [exited] once its [exit] event has fired;
    [killed] is Node's flag of that name, true from the moment a call of
    [kill] has managed to send a signal. *)
Record ChildProcess := mkChild { exited : bool; killed : bool }.

(** Where the [shutdown] coroutine is. *)
Inductive Phase :=
| Idle                                       (* never entered *)
| ClosingWatcher (code : Z)                  (* at [await state.watcher.close()] *)
| Killing (code : Z) (waitTsc waitAlias : bool) (* at [await Promise.all([...])] *)
| Gone (code : Z).                           (* [process.exit(code)] was called *)

Record State := mkState {
  fs : gset string;
  inProgress : bool;            (* [(shutdown as any).inProgress] *)
  ui : bool;                    (* [state.ui] is defined *)
  routed : bool;                (* [console.log], [console.error] replaced *)
  watcher : bool;               (* [state.watcher] is defined *)
  tsc : option ChildProcess;    (* [state.tsc] *)
  alias : option ChildProcess;  (* [state.alias] *)
  piped : bool;                 (* [setupOutputPipe] ran for both children *)
  phase : Phase;
  exitScheduled : bool;         (* blessed has scheduled a call of [process.exit(0)] *)
  trace : list Effect
}.

Definition init (files : gset string) : State :=
  mkState files false false false false None None false Idle false [].

Definition emit (e : Effect) (s : State) : State :=
  mkState (fs s) (inProgress s) (ui s) (routed s) (watcher s) (tsc s) (alias s)
          (piped s) (phase s) (exitScheduled s) (trace s ++ [e]).

Definition set_fs (f : gset string) (s : State) : State :=
  mkState f (inProgress s) (ui s) (routed s) (watcher s) (tsc s) (alias s)
          (piped s) (phase s) (exitScheduled s) (trace s).

Definition set_inProgress (b : bool) (s : State) : State :=
  mkState (fs s) b (ui s) (routed s) (watcher s) (tsc s) (alias s)
          (piped s) (phase s) (exitScheduled s) (trace s).

Definition set_ui (b : bool) (s : State) : State :=
  mkState (fs s) (inProgress s) b (routed s) (watcher s) (tsc s) (alias s)
          (piped s) (phase s) (exitScheduled s) (trace s).

Definition set_routed (b : bool) (s : State) : State :=
  mkState (fs s) (inProgress s) (ui s) b (watcher s) (tsc s) (alias s)
          (piped s) (phase s) (exitScheduled s) (trace s).

Definition set_watcher (b : bool) (s : State) : State :=
  mkState (fs s) (inProgress s) (ui s) (routed s) b (tsc s) (alias s)
          (piped s) (phase s) (exitScheduled s) (trace s).

Definition set_piped (b : bool) (s : State) : State :=
  mkState (fs s) (inProgress s) (ui s) (routed s) (watcher s) (tsc s) (alias s)
          b (phase s) (exitScheduled s) (trace s).

Definition set_phase (p : Phase) (s : State) : State :=
  mkState (fs s) (inProgress s) (ui s) (routed s) (watcher s) (tsc s) (alias s)
          (piped s) p (exitScheduled s) (trace s).

Definition set_exitScheduled (b : bool) (s : State) : State :=
  mkState (fs s) (inProgress s) (ui s) (routed s) (watcher s) (tsc s) (alias s)
          (piped s) (phase s) b (trace s).

Definition child (who : Proc) (s : State) : option ChildProcess :=
  match who with Tsc => tsc s | Alias => alias s end.

Definition set_child (who : Proc) (c : option ChildProcess) (s : State) : State :=
  match who with
  | Tsc => mkState (fs s) (inProgress s) (ui s) (routed s) (watcher s) c (alias s)
                   (piped s) (phase s) (exitScheduled s) (trace s)
  | Alias => mkState (fs s) (inProgress s) (ui s) (routed s) (watcher s) (tsc s) c
                     (piped s) (phase s) (exitScheduled s) (trace s)
  end.

(** ** The console *)

(** [console.log]: the real one, or, once [build] has replaced it in watch
    mode, [state.ui?.logToBldr(text)].  (How the panel cuts the text into
    lines, and where among the lines it already holds it shows them, is the
    display's business.) *)
Definition console_log (text : string) (s : State) : State :=
  if routed s then
    if ui s then emit (Display BldrBox text) s else emit (Swallowed text) s
  else emit (Stdout text) s.

(** [console.error], likewise. *)
Definition console_error (text : string) (s : State) : State :=
  if routed s then
    if ui s then emit (Display BldrBox ("{red-fg}❌ " +:+ text +:+ "{/red-fg}")) s
    else emit (Swallowed text) s
  else emit (Stderr text) s.

(** [`${code}`] for an exit code: a number, or [null] after a signal. *)
Definition show_code (code : option Z) : string :=
  match code with
  | Some z => NilEmpty.string_of_int (Z.to_int z)
  | None => "null"
  end.

(** ** Shutdown *)

(** [p.kill(sig)]. *)
Definition kill (who : Proc) (sig : Sig) (s : State) : State :=
  match child who s with
  | Some c =>
      if exited c then emit (Kill who sig false) s
      else set_child who (Some (mkChild false true)) (emit (Kill who sig true) s)
  | None => s
  end.

(** [killProcess(name, p)] up to the creation of its promise; the boolean
    tells whether a wait (exit listener and 2000 ms timer) was set up. *)
Definition killProcess (who : Proc) (s : State) : State * bool :=
  match child who s with
  | Some c =>
      if killed c then (s, false)
      else (kill who SIGTERM
              (console_log ("🔄 Killing " +:+ proc_name who +:+ "...") s), true)
  | None => (s, false)
  end.

(** After [Promise.all] has resolved. *)
Definition finish (code : Z) (s : State) : State :=
  set_phase (Gone code)
    (emit (ProcessExit code) (console_log "✅ All processes cleaned up" s)).

(** From the end of the [try]/[catch] around the watcher to the [await] of
    [Promise.all]. *)
Definition after_watcher (code : Z) (s : State) : State :=
  let '(s1, waitTsc) := killProcess Tsc s in
  let '(s2, waitAlias) := killProcess Alias s1 in
  if waitTsc || waitAlias then set_phase (Killing code waitTsc waitAlias) s2
  else finish code s2.

(** [shutdown(code)], up to its first suspension. *)
Definition shutdown (code : Z) (s : State) : State :=
  if inProgress s then s
  else
    let s := emit FlagSet (set_inProgress true s) in
    let s := if ui s then set_ui false (emit UiDestroyed s) else s in
    let s := console_log "
⏳ Shutting down..." s in
    if watcher s then set_phase (ClosingWatcher code) (emit WatcherClose s)
    else after_watcher code (console_log "✅ Src watcher closed" s).

(** One wait of [Promise.all] resolves. *)
Definition resolve_wait (who : Proc) (s : State) : State :=
  match phase s with
  | Killing code wt wa =>
      let wt' := match who with Tsc => false | Alias => wt end in
      let wa' := match who with Tsc => wa | Alias => false end in
      if wt' || wa' then set_phase (Killing code wt' wa') s else finish code s
  | _ => s
  end.

Definition waiting_for (who : Proc) (s : State) : bool :=
  match phase s with
  | Killing _ wt wa => match who with Tsc => wt | Alias => wa end
  | _ => false
  end.

(** What the environment can make happen once [build] has set things up. *)
Inductive Event :=
| Signal                                   (* SIGINT or SIGTERM *)
| ExitKey                                  (* escape, q or C-c in the display *)
| ChildData (who : Proc) (text : string)   (* a chunk on stdout or stderr, trimmed *)
| ChildExit (who : Proc) (code : option Z) (* the child's [exit] event *)
| WatcherClosed (error : option string)    (* [watcher.close()] settles *)
| KillTimeout (who : Proc)                 (* the 2000 ms timer of [killProcess] *)
| ChildError (who : Proc) (error : string) (* the child's [error] event *)
| ScheduledExit.                           (* the callback that blessed's signal
                                              listener scheduled is run *)

Definition box_of (who : Proc) : Box :=
  match who with Tsc => TscBox | Alias => AliasBox end.

(** The [exit] listener installed by [setupOutputPipe]. *)
Definition on_exit_piped (who : Proc) (code : option Z) (s : State) : State :=
  match code with
  | Some c =>
      if Z.eqb c 0 then s
      else shutdown c
             (console_error ("❌ " +:+ proc_name who +:+ " exited with code "
                             +:+ show_code code) s)
  | None => s
  end.

(** What runs when SIGINT or SIGTERM arrives.  [build] has put its listener
    on the process first ([process.on("SIGINT", () => shutdown(0))]); while
    the display exists, the screen of blessed, created after that, has one
    there too.  That one does nothing as long as the signal has more than
    one listener, and otherwise schedules a call of [process.exit(0)] for a
    later turn of the event loop.  [screen.destroy()] takes it off the
    process, but the emit under way still calls it: after a shutdown that
    has just destroyed the display it finds the listener of [build] alone
    and schedules the exit. *)
Definition on_signal (s : State) : State :=
  let s1 := shutdown 0 s in
  if ui s && negb (ui s1) then set_exitScheduled true s1 else s1.

(** The callback that blessed's listener has scheduled. *)
Definition scheduled_exit (s : State) : State :=
  if exitScheduled s then set_phase (Gone 0) (emit (ProcessExit 0) s) else s.

Definition handle (ev : Event) (s : State) : State :=
  match phase s with
  | Gone _ => s
  | _ =>
    match ev with
    | Signal => on_signal s
    | ExitKey => if ui s then shutdown 0 s else s
    | ChildData who text =>
        if piped s && ui s && CLI.truthy text
        then emit (Display (box_of who) text) s else s
    | ChildError who error =>
        if piped s && ui s
        then emit (Display (box_of who) ("❌ " +:+ error +:+ "{/red-fg}")) s else s
    | ChildExit who code =>
        match child who s with
        | Some c =>
            if exited c then s
            else
              (* the listeners present when the event is emitted, in the
                 order of their registration *)
              let waited := waiting_for who s in
              let s := set_child who (Some (mkChild true (killed c))) s in
              let s := if piped s then on_exit_piped who code s else s in
              if waited then resolve_wait who s else s
        | None => s
        end
    | WatcherClosed error =>
        match phase s with
        | ClosingWatcher code =>
            after_watcher code
              match error with
              | None => console_log "✅ Src watcher closed" s
              | Some e => console_error ("❌ Error closing src watcher: " +:+ e) s
              end
        | _ => s
        end
    | KillTimeout who =>
        if waiting_for who s then
          let s := match child who s with
                   | Some c => if killed c then s else kill who SIGKILL s
                   | None => s
                   end in
          resolve_wait who s
        else s
    | ScheduledExit => scheduled_exit s
    end
  end.

Definition run_events (evs : list Event) (s : State) : State :=
  fold_left (fun st ev => handle ev st) evs s.

(** ** One-shot processes and [build] *)

(** How a spawned process ends: the [error] event (it could not be
    started) or the [exit] event with its code ([null] after a signal). *)
Inductive Ending :=
| FailedToStart (msg : string)
| ExitedWith (code : option Z).

(** A complete run of a one-shot process as the orchestrator sees it: how it
    ended, everything it wrote to stdout and stderr before the error is
    built, and the files it left behind. *)
Record ProcRun := mkRun {
  ended : Ending;
  captured : string;
  files_after : gset string
}.

(** [interface Config] *)
Record Config := mkConfig {
  tsconfigPath : string;
  configDir : string;
  outDir : string;
  rootDir : string
}.

(** A promise's fate: resolved with a value or rejected with the message
    of an [Error]. *)
Inductive Res (A : Type) :=
| Ok (a : A)
| Err (msg : string).
Arguments Ok {A} a.
Arguments Err {A} msg.

Definition dquote : string := String (ascii_of_nat 34) EmptyString.

(** Code that threads the orchestrator state and may throw. *)
Definition M (A : Type) : Type := State -> State * Res A.

Definition ret {A} (a : A) : M A := fun s => (s, Ok a).
Definition throw {A} (msg : string) : M A := fun s => (s, Err msg).
Definition lift {A} (r : Res A) : M A := fun s => (s, r).
Definition act (f : State -> State) : M unit := fun s => (f s, Ok tt).

Definition bind {A B} (k : A -> M B) (m : M A) : M B :=
  fun s => match m s with
           | (s', Ok a) => k a s'
           | (s', Err e) => (s', Err e)
           end.

#[global] Instance M_ret : MRet M := @ret.
#[global] Instance M_bind : MBind M := @bind.

(** [try { m } catch (error) { h error }] *)
Definition try_catch {A} (m : M A) (h : string -> M A) : M A :=
  fun s => match m s with
           | (s', Ok a) => (s', Ok a)
           | (s', Err e) => h e s'
           end.

Section Build.

Variable cwd : string.                                   (* [process.cwd()] *)
Variable trim : string -> string.                        (* [String.prototype.trim] *)
Variable rm_fault : string -> option string.             (* failures of [fs.promises.rm] *)
Variable rm_partial : string -> string -> bool.           (* what a failed removal deleted *)
Variable exec : string -> list string -> gset string -> ProcRun. (* the external tools *)
Variable findClosestTsconfig : string -> Res string.
Variable readTsConfig : string -> Res Config.

(** The error with which [run] rejects, if it does. *)
Definition run_error (cmd : string) (args : list string) (r : ProcRun) : option string :=
  match ended r with
  | FailedToStart msg => Some ("Failed to start " +:+ cmd +:+ ": " +:+ msg)
  | ExitedWith (Some 0%Z) => None
  | ExitedWith code =>
      let cleanOutput := trim (captured r) in
      Some (if String.eqb cleanOutput "" then
              cmd +:+ " " +:+ String.concat " " args
                  +:+ " failed with exit code " +:+ show_code code
            else cleanOutput)
  end.

(** [run(cmd, args, cwd)] *)
Definition run (cmd : string) (args : list string) : M unit :=
  fun s =>
    let r := exec cmd args (fs s) in
    let s' := set_fs (files_after r) (emit (Spawn cmd args) s) in
    match run_error cmd args r with
    | None => (s', Ok tt)
    | Some errorMsg => (s', Err errorMsg)
    end.

(** [spawnLongRunning(cmd, args, cwd)], stored in [state.tsc] or [state.alias]. *)
Definition spawnLongRunning (who : Proc) (args : list string) (s : State) : State :=
  set_child who (Some (mkChild false false)) (emit (Spawn (proc_name who) args) s).

Definition rmIfExists (p : string) : M unit :=
  fun s =>
    match Fs.rmIfExists rm_fault rm_partial p (fs s) with
    | (files, None) => (set_fs files s, Ok tt)
    | (files, Some code) => (set_fs files s, Err code)
    end.

(** [path.resolve(a, b)] *)
Definition resolve (a b : string) : string :=
  Path.render (Path.resolve_segments cwd
                 (if Path.isAbsolute b then b else a +:+ "/" +:+ b)).

(** [rel(from, to)] *)
Definition rel (from to : string) : string :=
  let r := Path.relative cwd from to in
  if String.prefix "." r then r else "./" +:+ r.

(** Lines 9 to 25 of [build]: the project file and the two roots. *)
Definition resolve_config (args : CLI.Args) : Res (string * string * string) :=
  let located :=
    match CLI.project args with
    | Some p => if CLI.truthy p then Ok (resolve cwd p) else findClosestTsconfig cwd
    | None => findClosestTsconfig cwd
    end in
  match located with
  | Err e => Err e
  | Ok path =>
      match readTsConfig path with
      | Err e => Err e
      | Ok cfg =>
          if String.eqb (outDir cfg) "" || String.eqb (rootDir cfg) "" then
            Err (String.concat "
" ["❌ tsconfig must specify both " +:+ dquote +:+ "compilerOptions.outDir" +:+ dquote
     +:+ " and " +:+ dquote +:+ "compilerOptions.rootDir" +:+ dquote +:+ " for dist sync.";
   "Found: rootDir=" +:+ rootDir cfg +:+ " outDir=" +:+ outDir cfg;
   "File: " +:+ path])
          else
            Ok (path,
                if Path.isAbsolute (rootDir cfg) then rootDir cfg
                else resolve (configDir cfg) (rootDir cfg),
                if Path.isAbsolute (outDir cfg) then outDir cfg
                else resolve (configDir cfg) (outDir cfg))
      end
  end.

Definition createTerminalUI (s : State) : State :=
  set_ui true (emit UiCreated s).

(** [tsc] then [tsc-alias], the body of both [try] blocks. *)
Definition compile (start done : string) (tscArgs aliasArgs : list string) : M unit :=
  act (console_log start);;
  run "tsc" tscArgs;;
  run "tsc-alias" aliasArgs;;
  act (console_log done).

(** [setupOutputPipe] for both children, under [if (state.ui)]. *)
Definition setupOutputPipes (s : State) : State :=
  if ui s then set_piped true (emit (PipesAttached Alias) (emit (PipesAttached Tsc) s))
  else s.

(** [build] from line 27 on. *)
Definition build_in (path rootDirAbs outDirAbs : string) (args : CLI.Args) : M unit :=
  (if CLI.watch args then act (fun s => set_routed true (createTerminalUI s))
   else ret tt);;
  act (console_log (String.concat "
" ["
📦 Project  : " +:+ rel cwd path;
   "📁 Root Dir : " +:+ rel cwd rootDirAbs;
   "📁 Out Dir  : " +:+ rel cwd outDirAbs;
   "➡️  Mode     : " +:+ (if CLI.watch args then "Watch" else "Build") +:+ "
"]));;
  act (console_log "📦 Cleaning output directory...");;
  rmIfExists outDirAbs;;
  act (console_log "✅ Output directory cleaned");;
  let tscArgs := ["-p"; path; "--pretty"] in
  let aliasArgs := ["-p"; path] in
  if negb (CLI.watch args) then
    try_catch
      (compile "
📦 Starting build..." "✅ Build completed successfully!" tscArgs aliasArgs)
      (fun error =>
         act (console_error "❌ Build failed, cleaning output directory...");;
         rmIfExists outDirAbs;;
         throw error)
  else
    try_catch
      (compile "
📦 Starting initial build..." "✅ Initial build completed" tscArgs aliasArgs)
      (fun error =>
         act (fun s =>
                if ui s then
                  emit (Display TscBox ("❌ Initial build failed: " +:+ error +:+ "{/red-fg}")) s
                else s));;
    act (spawnLongRunning Tsc (tscArgs ++ ["-w"]));;
    act (spawnLongRunning Alias (aliasArgs ++ ["-w"]));;
    act setupOutputPipes;;
    act (fun s => set_watcher true (emit (WatcherStarted rootDirAbs) s)).

Definition build (args : CLI.Args) : M unit :=
  cfg ← lift (resolve_config args);
  let '(path, rootDirAbs, outDirAbs) := cfg in
  build_in path rootDirAbs outDirAbs args.

(** The error of the first of the two tools that fails, if one does, when
    they run one after the other on [files]. *)
Definition first_failure (path : string) (files : gset string) : option string :=
  let tscRun := exec "tsc" ["-p"; path; "--pretty"] files in
  match run_error "tsc" ["-p"; path; "--pretty"] tscRun with
  | Some e => Some e
  | None => run_error "tsc-alias" ["-p"; path]
              (exec "tsc-alias" ["-p"; path] (files_after tscRun))
  end.

End Build.

(** [trim] for ASCII white space, to run the model on examples. *)
Definition is_space (c : ascii) : bool :=
  let n := nat_of_ascii c in ((9 <=? n)%nat && (n <=? 13)%nat) || (n =? 32)%nat.

Fixpoint trimStart (s : string) : string :=
  match s with
  | String c s' => if is_space c then trimStart s' else s
  | EmptyString => EmptyString
  end.

Fixpoint trimEnd (s : string) : string :=
  match s with
  | String c s' =>
      let t := trimEnd s' in
      if is_space c && String.eqb t "" then EmptyString else String c t
  | EmptyString => EmptyString
  end.

Definition trim_ascii (s : string) : string := trimEnd (trimStart s).

(** ** The build: properties *)

(** Computes the fields of a state built from the setters, leaving the
    texts alone. *)
Ltac state_proj :=
  cbn [fs inProgress ui routed watcher tsc alias piped phase exitScheduled trace
       init emit set_fs set_inProgress set_ui set_routed set_watcher set_piped
       set_phase set_exitScheduled child set_child console_log console_error createTerminalUI
       spawnLongRunning setupOutputPipes proc_name fst snd].

Section BuildFacts.

Variable cwd : string.
Variable trim : string -> string.
Variable rm_fault : string -> option string.
Variable rm_partial : string -> string -> bool.
Variable exec : string -> list string -> gset string -> ProcRun.
Variable findClosestTsconfig : string -> Res string.
Variable readTsConfig : string -> Res Config.

Local Abbreviation build :=
  (build cwd trim rm_fault rm_partial exec findClosestTsconfig readTsConfig).
Local Abbreviation resolve_config := (resolve_config cwd findClosestTsconfig readTsConfig).

Lemma run_error_nonzero cmd args r code :
  ended r = ExitedWith code -> code <> Some 0%Z ->
  run_error trim cmd args r
  = Some (if String.eqb (trim (captured r)) "" then
            cmd +:+ " " +:+ String.concat " " args
                +:+ " failed with exit code " +:+ show_code code
          else trim (captured r)).
Proof.
  intros He Hc. unfold run_error. rewrite He.
  destruct code as [[| |]|]; congruence.
Qed.

Lemma rm_nothing_within dir files q : q ∈ Fs.rm dir files -> Fs.within dir q = false.
Proof. unfold Fs.rm. rewrite elem_of_filter. tauto. Qed.

(** [trim] leaves nothing of the empty string. *)
Hypothesis trim_empty : trim "" = "".

(** C4.  In one-shot mode, when the compiler exits with a code other than
    0, [build] rejects, no path at or below the output root is left, and
    the error carries the trimmed text captured from the compiler's stdout
    and stderr or, when nothing is left of it (in particular when the
    captured buffer is empty), a message made of the command line and the
    exit code. *)
Theorem oneshot_failure_cleans_and_reports
    (args : CLI.Args) (files : gset string) (path rootAbs outAbs : string)
    (code : option Z) :
  CLI.watch args = false ->
  resolve_config args = Ok (path, rootAbs, outAbs) ->
  rm_fault outAbs = None ->
  let tscArgs := ["-p"; path; "--pretty"] in
  let tscRun := exec "tsc" tscArgs (Fs.rm outAbs files) in
  let synthesized := "tsc " +:+ String.concat " " tscArgs
                            +:+ " failed with exit code " +:+ show_code code in
  ended tscRun = ExitedWith code ->
  code <> Some 0%Z ->
  let result := build args (init files) in
  snd result
  = Err (if String.eqb (trim (captured tscRun)) "" then synthesized
         else trim (captured tscRun))
  /\ (captured tscRun = "" -> snd result = Err synthesized)
  /\ (forall q, q ∈ fs (fst result) -> Fs.within outAbs q = false)
  /\ last (trace (fst result))
     = Some (Stderr "❌ Build failed, cleaning output directory...").
Proof.
  intros Hwatch Hcfg Hrm tscArgs tscRun synthesized Hend Hcode result.
  pose proof (run_error_nonzero "tsc" tscArgs tscRun code Hend Hcode) as Herr.
  assert (Hres : snd result
                 = Err (if String.eqb (trim (captured tscRun)) "" then synthesized
                        else trim (captured tscRun))
               /\ (forall q, q ∈ fs (fst result) -> Fs.within outAbs q = false)
               /\ last (trace (fst result))
                  = Some (Stderr "❌ Build failed, cleaning output directory...")).
  { subst result. unfold Builder.build, mbind, M_bind, bind, lift.
    rewrite Hcfg. unfold build_in. rewrite Hwatch.
    cbv [negb mbind M_bind bind ret act rmIfExists Fs.rmIfExists try_catch
         compile run throw].
    rewrite Hrm. cbn [fs set_fs console_log emit init routed].
    fold tscArgs. fold tscRun. rewrite Herr.
    cbn [fst snd].
    split; [reflexivity|split].
    - intros q. apply rm_nothing_within.
    - cbn [fs set_fs console_error emit routed init trace]. apply last_snoc. }
  destruct Hres as (Hmsg & Hfs & Hlast).
  repeat split; try assumption.
  intros Hcap. rewrite Hmsg, Hcap, trim_empty. reflexivity.
Qed.

(** Splits the description of the state in which [build] leaves watch
    mode, up to the claim about the warning. *)
Ltac watch_started :=
  split; [reflexivity|];
  split; [|repeat (split; [reflexivity|]); reflexivity];
  eexists; split;
  [do 4 rewrite <- app_assoc; reflexivity|];
  split; [|intros c; rewrite !in_app_iff; cbn [In]; intuition discriminate].

(** Whatever the two tools do, the initial pass of watch mode ends with
    both long-running processes spawned, their output piped into the
    display and the source watcher started. *)
Lemma build_watch_always_starts
    (args : CLI.Args) (files : gset string) (path rootAbs outAbs : string) :
  CLI.watch args = true ->
  resolve_config args = Ok (path, rootAbs, outAbs) ->
  rm_fault outAbs = None ->
  let result := build args (init files) in
  let s := fst result in
  snd result = Ok tt
  /\ (exists before,
        trace s = before ++ [Spawn "tsc" ["-p"; path; "--pretty"; "-w"];
                             Spawn "tsc-alias" ["-p"; path; "-w"];
                             PipesAttached Tsc; PipesAttached Alias;
                             WatcherStarted rootAbs]
        /\ (forall msg,
              first_failure trim exec path (Fs.rm outAbs files) = Some msg ->
              last before
              = Some (Display TscBox ("❌ Initial build failed: " +:+ msg +:+ "{/red-fg}")))
        /\ forall c, ~ In (ProcessExit c) before)
  /\ tsc s = Some (mkChild false false)
  /\ alias s = Some (mkChild false false)
  /\ piped s = true /\ watcher s = true /\ ui s = true /\ routed s = true
  /\ phase s = Idle /\ inProgress s = false.
Proof.
  intros Hwatch Hcfg Hrm result s. subst s result.
  unfold Builder.build, mbind, M_bind, bind, lift.
  rewrite Hcfg. unfold build_in. rewrite Hwatch.
  cbv [negb mbind M_bind bind ret act rmIfExists Fs.rmIfExists try_catch
       compile run throw].
  rewrite Hrm. unfold first_failure.
  cbn [fs set_fs console_log emit init routed createTerminalUI set_routed set_ui ui].
  set (tscArgs := ["-p"; path; "--pretty"]).
  set (tscRun := exec "tsc" tscArgs (Fs.rm outAbs files)).
  destruct (run_error trim "tsc" tscArgs tscRun) as [e1|] eqn:E1.
  - subst tscArgs. state_proj. watch_started.
    intros msg [= <-]. apply last_snoc.
  - cbn [fs set_fs console_log emit init routed createTerminalUI set_routed set_ui ui].
    set (aliasArgs := ["-p"; path]).
    set (aliasRun := exec "tsc-alias" aliasArgs (files_after tscRun)).
    destruct (run_error trim "tsc-alias" aliasArgs aliasRun) as [e2|] eqn:E2.
    + subst tscArgs aliasArgs. state_proj. watch_started.
      intros msg [= <-]. apply last_snoc.
    + subst tscArgs aliasArgs. state_proj. watch_started.
      intros msg [=].
Qed.

(** C7.  In watch mode, when the initial pass fails (the compiler or the
    alias resolver rejects with [msg]), [build] does not reject and the
    process is not exited: the failure is shown as a warning in the
    compiler panel, and then both long-running processes are spawned, their
    output is piped into the display and the source watcher is started. *)
Theorem watch_survives_initial_failure
    (args : CLI.Args) (files : gset string) (path rootAbs outAbs msg : string) :
  CLI.watch args = true ->
  resolve_config args = Ok (path, rootAbs, outAbs) ->
  rm_fault outAbs = None ->
  first_failure trim exec path (Fs.rm outAbs files) = Some msg ->
  let result := build args (init files) in
  let s := fst result in
  snd result = Ok tt
  /\ (exists before,
        trace s = before ++
          [Display TscBox ("❌ Initial build failed: " +:+ msg +:+ "{/red-fg}");
           Spawn "tsc" ["-p"; path; "--pretty"; "-w"];
           Spawn "tsc-alias" ["-p"; path; "-w"];
           PipesAttached Tsc; PipesAttached Alias;
           WatcherStarted rootAbs]
        /\ forall c, ~ In (ProcessExit c) before)
  /\ tsc s = Some (mkChild false false)
  /\ alias s = Some (mkChild false false)
  /\ piped s = true /\ watcher s = true /\ ui s = true
  /\ phase s = Idle /\ inProgress s = false.
Proof.
  intros Hwatch Hcfg Hrm Hfail result s.
  destruct (build_watch_always_starts args files path rootAbs outAbs Hwatch Hcfg Hrm)
    as (Hok & (before & Htrace & Hwarn & Hexit) & Htsc & Halias & Hp & Hw & Hui & _ & Hph & Hin).
  specialize (Hwarn msg Hfail).
  apply last_Some in Hwarn as [before' ->].
  split; [exact Hok|]. split; [|tauto].
  exists before'. split.
  - fold result in Htrace. fold s in Htrace. rewrite Htrace, <- app_assoc. reflexivity.
  - intros c Hc. apply (Hexit c). apply in_or_app. now left.
Qed.

End BuildFacts.

(** A project to run the model on: the compiler fails with exit code 2. *)
Definition demo_files : gset string :=
  {[ "/repo/src/a.ts"; "/repo/dist"; "/repo/dist/a.js" ]}.

Definition demo_exec (cmd : string) (args : list string) (files : gset string) : ProcRun :=
  if String.eqb cmd "tsc" then
    mkRun (ExitedWith (Some 2%Z)) "  src/a.ts(1,7): error TS2322
" ({[ "/repo/dist/b.js" ]} ∪ files)
  else mkRun (ExitedWith (Some 0%Z)) "" files.

Definition demo_config : Config :=
  mkConfig "/repo/tsconfig.json" "/repo" "/repo/dist" "src".

Definition demo_build (watch : bool) : State * Res unit :=
  build "/repo" trim_ascii (fun _ => None) (fun _ _ => false) demo_exec
        (fun _ => Ok "/repo/tsconfig.json") (fun _ => Ok demo_config)
        (CLI.mkArgs watch None) (init demo_files).

Example demo_build_oneshot :
  snd (demo_build false) = Err "src/a.ts(1,7): error TS2322"
  /\ elements (fs (fst (demo_build false))) = ["/repo/src/a.ts"].
Proof. vm_compute. split; reflexivity. Qed.

Lemma oneshot_failure_cleans_and_reports_witness :
  let result := demo_build false in
  snd result = Err "src/a.ts(1,7): error TS2322"
  /\ (forall q, q ∈ fs (fst result) -> Fs.within "/repo/dist" q = false).
Proof.
  pose proof (oneshot_failure_cleans_and_reports
                "/repo" trim_ascii (fun _ => None) (fun _ _ => false) demo_exec
                (fun _ => Ok "/repo/tsconfig.json") (fun _ => Ok demo_config)
                eq_refl (CLI.mkArgs false None) demo_files
                "/repo/tsconfig.json" "/repo/src" "/repo/dist" (Some 2%Z)
                eq_refl eq_refl eq_refl eq_refl ltac:(discriminate)) as H.
  cbv zeta in H. destruct H as (Hmsg & _ & Hfs & _).
  split; [exact Hmsg | exact Hfs].
Defined.

Lemma watch_survives_initial_failure_witness :
  let s := fst (demo_build true) in
  snd (demo_build true) = Ok tt
  /\ tsc s = Some (mkChild false false) /\ alias s = Some (mkChild false false)
  /\ piped s = true /\ watcher s = true /\ ui s = true /\ phase s = Idle.
Proof.
  pose proof (watch_survives_initial_failure
                "/repo" trim_ascii (fun _ => None) (fun _ _ => false) demo_exec
                (fun _ => Ok "/repo/tsconfig.json") (fun _ => Ok demo_config)
                (CLI.mkArgs true None) demo_files
                "/repo/tsconfig.json" "/repo/src" "/repo/dist"
                "src/a.ts(1,7): error TS2322"
                eq_refl eq_refl eq_refl eq_refl) as H.
  cbv zeta in H. destruct H as (Hok & _ & Ht & Ha & Hp & Hw & Hu & Hph & _).
  repeat split; assumption.
Defined.


(** The state in which [build] leaves the orchestrator in watch mode (see
    [build_watch_always_starts]), with an empty effect trace: display up,
    console replaced, both children running and piped, watcher started. *)
Definition watching (files : gset string) : State :=
  mkState files false true true true
          (Some (mkChild false false)) (Some (mkChild false false)) true Idle false [].

Definition is_kill (e : Effect) : bool :=
  match e with Kill _ _ _ => true | _ => false end.

(** The calls of [kill] made so far. *)
Definition kills (s : State) : list Effect := List.filter is_kill (trace s).

(** ** Shutdown: properties *)

(** The steps of the teardown. *)
Inductive Step :=
| SFlag | SUi | SWatcher | STerm (p : Proc) | SForce (p : Proc) | SExit.

#[global] Instance Proc_eq_dec : EqDecision Proc.
Proof. solve_decision. Defined.

#[global] Instance Step_eq_dec : EqDecision Step.
Proof. solve_decision. Defined.

Definition teardown_step (e : Effect) : option Step :=
  match e with
  | FlagSet => Some SFlag
  | UiDestroyed => Some SUi
  | WatcherClose => Some SWatcher
  | Kill p SIGTERM _ => Some (STerm p)
  | Kill p SIGKILL _ => Some (SForce p)
  | ProcessExit _ => Some SExit
  | _ => None
  end.

(** The teardown steps taken so far, in order. *)
Definition teardown (s : State) : list Step := omap teardown_step (trace s).

(** What ties the phase of the coroutine to the steps already taken. *)
Definition coherent (s : State) : Prop :=
  NoDup (teardown s) /\
  match phase s with
  | Idle => inProgress s = false /\ teardown s = []
  | ClosingWatcher _ =>
      inProgress s = true /\ (SExit ∉ teardown s)
      /\ forall p, (STerm p ∉ teardown s) /\ (SForce p ∉ teardown s)
  | Killing _ wt wa =>
      inProgress s = true /\ (SExit ∉ teardown s)
      /\ (wt = true -> SForce Tsc ∉ teardown s)
      /\ (wa = true -> SForce Alias ∉ teardown s)
  | Gone _ => True
  end.

Lemma teardown_emit e s :
  teardown (emit e s) = teardown s ++ option_list (teardown_step e).
Proof. unfold teardown. cbn [emit trace]. now rewrite omap_app. Qed.

Lemma teardown_emit_none e s :
  teardown_step e = None -> teardown (emit e s) = teardown s.
Proof. intros H. rewrite teardown_emit, H. apply app_nil_r. Qed.

Lemma teardown_console_log t s : teardown (console_log t s) = teardown s.
Proof. unfold console_log. destruct (routed s), (ui s); now apply teardown_emit_none. Qed.

Lemma teardown_console_error t s : teardown (console_error t s) = teardown s.
Proof. unfold console_error. destruct (routed s), (ui s); now apply teardown_emit_none. Qed.

Lemma phase_console_log t s : phase (console_log t s) = phase s.
Proof. unfold console_log. now destruct (routed s), (ui s). Qed.

Lemma phase_console_error t s : phase (console_error t s) = phase s.
Proof. unfold console_error. now destruct (routed s), (ui s). Qed.

Lemma inProgress_console_log t s : inProgress (console_log t s) = inProgress s.
Proof. unfold console_log. now destruct (routed s), (ui s). Qed.

Lemma inProgress_console_error t s : inProgress (console_error t s) = inProgress s.
Proof. unfold console_error. now destruct (routed s), (ui s). Qed.

Lemma child_console_log who t s : child who (console_log t s) = child who s.
Proof. unfold console_log. now destruct who, (routed s), (ui s). Qed.

Lemma child_console_error who t s : child who (console_error t s) = child who s.
Proof. unfold console_error. now destruct who, (routed s), (ui s). Qed.

(** [kill] adds at most its own step and leaves the coroutine alone. *)
Lemma kill_spec who sig s :
  phase (kill who sig s) = phase s
  /\ inProgress (kill who sig s) = inProgress s
  /\ (teardown (kill who sig s) = teardown s
      \/ teardown (kill who sig s)
         = teardown s ++ [match sig with SIGTERM => STerm who | SIGKILL => SForce who end]).
Proof.
  unfold kill. destruct (child who s) as [c|]; [|auto].
  destruct (exited c).
  - repeat split. right. rewrite teardown_emit. now destruct sig.
  - destruct who; (repeat split; right; change (teardown (set_child _ _ ?x)) with (teardown x);
      rewrite teardown_emit; now destruct sig).
Qed.

Lemma killProcess_spec who s :
  phase (killProcess who s).1 = phase s
  /\ inProgress (killProcess who s).1 = inProgress s
  /\ (teardown (killProcess who s).1 = teardown s
      \/ teardown (killProcess who s).1 = teardown s ++ [STerm who]).
Proof.
  unfold killProcess. destruct (child who s) as [c|]; [|auto].
  destruct (killed c); [auto|]. cbn [fst].
  destruct (kill_spec who SIGTERM (console_log ("🔄 Killing " +:+ proc_name who +:+ "...") s))
    as (Hp & Hi & Ht).
  rewrite Hp, Hi, phase_console_log, inProgress_console_log.
  rewrite teardown_console_log in Ht. auto.
Qed.

Lemma nodup_snoc (l : list Step) x : NoDup l -> x ∉ l -> NoDup (l ++ [x]).
Proof.
  intros Hl Hx. apply NoDup_app. split; [assumption|]. split.
  - intros y Hy Hy'. apply list_elem_of_singleton in Hy'. now subst.
  - apply NoDup_singleton.
Qed.

Lemma notin_snoc (l : list Step) x y : y ∉ l -> y <> x -> y ∉ l ++ [x].
Proof.
  intros Hl Hne H. apply elem_of_app in H as [H|H]; [now apply Hl|].
  apply list_elem_of_singleton in H. now apply Hne.
Qed.

(** Discharges freshness side conditions about appended steps. *)
Ltac fresh_step :=
  repeat first [ assumption | discriminate | apply nodup_snoc | apply notin_snoc ].

(** Decides a closed statement about a list of steps. *)
Ltac decide_steps := apply (bool_decide_unpack _); reflexivity.

Lemma finish_coherent code s :
  inProgress s = true ->
  NoDup (teardown s) -> SExit ∉ teardown s -> coherent (finish code s).
Proof.
  intros Hin Hnd Hex. unfold finish, coherent. cbn [phase set_phase].
  change (teardown (set_phase _ ?x)) with (teardown x).
  rewrite teardown_emit, teardown_console_log.
  cbn [teardown_step option_list].
  split; [|exact I]. now apply nodup_snoc.
Qed.

Lemma after_watcher_coherent code s :
  inProgress s = true ->
  NoDup (teardown s) -> SExit ∉ teardown s ->
  (forall p, (STerm p ∉ teardown s) /\ (SForce p ∉ teardown s)) ->
  coherent (after_watcher code s).
Proof.
  intros Hin Hnd Hex Hfresh. unfold after_watcher.
  destruct (killProcess_spec Tsc s) as (Hp1 & Hi1 & Ht1).
  destruct (killProcess Tsc s) as [s1 w1]. cbn [fst] in *.
  destruct (killProcess_spec Alias s1) as (Hp2 & Hi2 & Ht2).
  destruct (killProcess Alias s1) as [s2 w2]. cbn [fst] in *.
  assert (Hnd1 : NoDup (teardown s1) /\ (SExit ∉ teardown s1)
                 /\ (STerm Alias ∉ teardown s1)
                 /\ forall p, SForce p ∉ teardown s1).
  { destruct Ht1 as [E1|E1]; rewrite E1;
      (split; [|split; [|split; [|intros p; destruct (Hfresh p)]]]);
      fresh_step; apply Hfresh. }
  destruct Hnd1 as (Hnd1 & Hex1 & Hterm1 & Hforce1).
  assert (Hnd2 : NoDup (teardown s2) /\ (SExit ∉ teardown s2)
                 /\ forall p, SForce p ∉ teardown s2).
  { destruct Ht2 as [E2|E2]; rewrite E2;
      (split; [|split; [|intros p; pose proof (Hforce1 p)]]); fresh_step. }
  destruct Hnd2 as (Hnd2 & Hex2 & Hforce2).
  destruct (w1 || w2).
  - unfold coherent. cbn [phase set_phase].
    change (teardown (set_phase _ ?x)) with (teardown x).
    change (inProgress (set_phase _ ?x)) with (inProgress x).
    rewrite Hi2, Hi1. repeat split; auto.
  - apply finish_coherent; [congruence|assumption|assumption].
Qed.

Lemma shutdown_coherent code s :
  coherent s -> (forall c, phase s <> Gone c) -> coherent (shutdown code s).
Proof.
  intros Hc Hng. unfold shutdown. destruct (inProgress s) eqn:Hin; [assumption|].
  destruct Hc as [_ Hc]. destruct (phase s) as [|c0|c0 wt wa|c0] eqn:Hph;
    try (destruct Hc; congruence); try congruence.
  destruct Hc as [_ Htd].
  set (s1 := emit FlagSet (set_inProgress true s)).
  assert (H1 : teardown s1 = [SFlag]).
  { unfold s1. rewrite teardown_emit.
    change (teardown (set_inProgress _ s)) with (teardown s). now rewrite Htd. }
  set (s2 := if ui s1 then set_ui false (emit UiDestroyed s1) else s1).
  assert (H2 : inProgress s2 = true /\ phase s2 = Idle
               /\ (teardown s2 = [SFlag] \/ teardown s2 = [SFlag; SUi])).
  { unfold s2. destruct (ui s1).
    - change (teardown (set_ui _ ?x)) with (teardown x).
      rewrite teardown_emit, H1. cbn. auto.
    - cbn. auto. }
  destruct H2 as (Hi2 & Hp2 & Ht2).
  set (s3 := console_log _ s2).
  assert (H3 : inProgress s3 = true /\ teardown s3 = teardown s2).
  { unfold s3. now rewrite inProgress_console_log, teardown_console_log. }
  destruct H3 as (Hi3 & Ht3).
  destruct (watcher s3).
  - unfold coherent. cbn [phase set_phase].
    change (teardown (set_phase _ ?x)) with (teardown x).
    change (inProgress (set_phase _ ?x)) with (inProgress x).
    rewrite teardown_emit, Ht3. cbn [teardown_step option_list].
    change (inProgress (emit _ ?x)) with (inProgress x).
    destruct Ht2 as [-> | ->]; cbn [app option_list];
      (split; [decide_steps|]); (split; [assumption|]);
      (split; [decide_steps|intros [|]; split; decide_steps]).
  - apply after_watcher_coherent.
    + now rewrite inProgress_console_log.
    + rewrite teardown_console_log, Ht3. destruct Ht2 as [-> | ->]; decide_steps.
    + rewrite teardown_console_log, Ht3. destruct Ht2 as [-> | ->]; decide_steps.
    + intros p. rewrite teardown_console_log, Ht3.
      destruct Ht2 as [-> | ->]; destruct p; split; decide_steps.
Qed.

Lemma coherent_ext s s' :
  teardown s' = teardown s -> phase s' = phase s -> inProgress s' = inProgress s ->
  coherent s -> coherent s'.
Proof. unfold coherent. intros -> -> ->. trivial. Qed.

Lemma coherent_console_log t s : coherent s -> coherent (console_log t s).
Proof.
  apply coherent_ext;
    [apply teardown_console_log|apply phase_console_log|apply inProgress_console_log].
Qed.

Lemma coherent_console_error t s : coherent s -> coherent (console_error t s).
Proof.
  apply coherent_ext;
    [apply teardown_console_error|apply phase_console_error|apply inProgress_console_error].
Qed.

Lemma coherent_set_child who c s : coherent s -> coherent (set_child who c s).
Proof. apply coherent_ext; now destruct who. Qed.

Lemma resolve_wait_coherent who s : coherent s -> coherent (resolve_wait who s).
Proof.
  intros Hc. unfold resolve_wait. destruct (phase s) as [|c|c wt wa|c] eqn:Hph; try assumption.
  destruct Hc as (Hnd & Hc). rewrite Hph in Hc. destruct Hc as (Hin & Hex & Ht & Ha).
  match goal with |- coherent (if ?b then _ else _) => destruct b end.
  - unfold coherent. cbn [phase set_phase].
    change (teardown (set_phase _ ?x)) with (teardown x).
    change (inProgress (set_phase _ ?x)) with (inProgress x).
    repeat split; try assumption; destruct who; auto; discriminate.
  - now apply finish_coherent.
Qed.

Lemma on_exit_piped_coherent who code s :
  coherent s -> (forall c, phase s <> Gone c) -> coherent (on_exit_piped who code s).
Proof.
  intros Hc Hng. unfold on_exit_piped. destruct code as [c|]; [|assumption].
  destruct (Z.eqb c 0); [assumption|].
  apply shutdown_coherent; [now apply coherent_console_error|].
  now rewrite phase_console_error.
Qed.

Lemma timeout_coherent who s :
  coherent s -> waiting_for who s = true ->
  coherent (resolve_wait who
              match child who s with
              | Some c => if killed c then s else kill who SIGKILL s
              | None => s
              end).
Proof.
  intros Hc Hw.
  assert (Hplain : coherent (resolve_wait who s)) by now apply resolve_wait_coherent.
  destruct (child who s) as [c|]; [|assumption].
  destruct (killed c); [assumption|].
  destruct (kill_spec who SIGKILL s) as (Hp & Hi & [Ht|Ht]).
  { apply resolve_wait_coherent. revert Hc. now apply coherent_ext. }
  unfold waiting_for in Hw. unfold resolve_wait. rewrite Hp.
  destruct (phase s) as [|c0|c0 wt wa|c0] eqn:Hph; try discriminate.
  destruct Hc as (Hnd & Hc). rewrite Hph in Hc. destruct Hc as (Hin & Hex & Htsc & Hal).
  assert (Hforce : SForce who ∉ teardown s) by (destruct who; auto).
  assert (Hnd' : NoDup (teardown (kill who SIGKILL s))) by (rewrite Ht; fresh_step).
  assert (Hex' : SExit ∉ teardown (kill who SIGKILL s)) by (rewrite Ht; fresh_step).
  match goal with |- coherent (if ?b then _ else _) => destruct b end.
  - unfold coherent. cbn [phase set_phase].
    change (teardown (set_phase _ ?x)) with (teardown x).
    change (inProgress (set_phase _ ?x)) with (inProgress x).
    rewrite Hi. split; [assumption|]. split; [assumption|]. split; [assumption|].
    rewrite Ht. destruct who; (split; [|]); intros Hx; try discriminate;
      fresh_step; auto.
  - apply finish_coherent; [congruence|assumption|assumption].
Qed.

Lemma on_signal_coherent s :
  coherent s -> (forall c, phase s <> Gone c) -> coherent (on_signal s).
Proof.
  intros Hc Hng. unfold on_signal.
  pose proof (shutdown_coherent 0 s Hc Hng) as H.
  destruct (ui s && negb (ui (shutdown 0 s))); [|exact H].
  revert H. now apply coherent_ext.
Qed.

Lemma scheduled_exit_coherent s :
  coherent s -> SExit ∉ teardown s -> coherent (scheduled_exit s).
Proof.
  intros Hc Hex. unfold scheduled_exit. destruct (exitScheduled s); [|exact Hc].
  unfold coherent. cbn [phase set_phase].
  change (teardown (set_phase _ ?x)) with (teardown x).
  rewrite teardown_emit. cbn [teardown_step option_list].
  split; [|exact I]. apply nodup_snoc; [apply Hc|exact Hex].
Qed.

(** Every handler keeps the coroutine and the steps taken coherent. *)
Lemma handle_coherent ev s : coherent s -> coherent (handle ev s).
Proof.
  intros Hc. unfold handle.
  destruct (phase s) as [|c0|c0 wt wa|c0] eqn:Hph; try assumption;
    destruct ev as [| |who text|who code|error|who|who error|];
    try (apply on_signal_coherent; [exact Hc|now rewrite Hph]);
    try (apply scheduled_exit_coherent; [exact Hc|];
         destruct Hc as (_ & Hc); rewrite Hph in Hc;
         first [destruct Hc as (_ & ->); apply not_elem_of_nil|apply Hc]);
    try (destruct (ui s); [apply shutdown_coherent; [exact Hc|now rewrite Hph]|assumption]);
    try (match goal with |- coherent (if ?b then _ else _) => destruct b end;
         [|assumption];
         revert Hc; now apply coherent_ext; [apply teardown_emit_none| |]);
    try (destruct (child who s) as [c|]; [|assumption];
         destruct (exited c); [assumption|];
         match goal with
         | |- context [if piped ?x then _ else _] =>
             assert (Hs : coherent (if piped x then on_exit_piped who code x else x))
               by (destruct (piped x);
                   [apply on_exit_piped_coherent;
                    [|intros c'; destruct who; cbn [set_child phase]; now rewrite Hph]|];
                   now apply coherent_set_child)
         end;
         destruct (waiting_for who s); [now apply resolve_wait_coherent|assumption]);
    try (destruct (waiting_for who s) eqn:Hw; [now apply timeout_coherent|assumption]);
    try assumption.
  (* the watcher has closed *)
  destruct Hc as (Hnd & Hc). rewrite Hph in Hc. destruct Hc as (Hin & Hex & Hfresh).
  destruct error as [e|]; apply after_watcher_coherent;
    rewrite ?inProgress_console_log, ?inProgress_console_error,
            ?teardown_console_log, ?teardown_console_error; assumption.
Qed.

Lemma run_events_coherent evs : forall s, coherent s -> coherent (run_events evs s).
Proof.
  induction evs as [|ev evs IH]; intros s Hc; [assumption|].
  apply IH. now apply handle_coherent.
Qed.

(** C8.  The shutdown coordinator runs at most once: in every run of the
    orchestrator that starts before shutdown, whatever signals, exit keys,
    child exits and timers arrive and in whatever order, each teardown step
    (setting the flag, destroying the display, closing the watcher, the
    termination request and the forced kill of each child, leaving the
    process) is taken at most once; and once the flag is set, a further
    call of [shutdown] returns at once, changing nothing and doing
    nothing. *)
Theorem shutdown_runs_at_most_once (evs : list Event) (s0 : State) :
  inProgress s0 = false -> phase s0 = Idle -> teardown s0 = [] ->
  let s := run_events evs s0 in
  NoDup (teardown s)
  /\ (inProgress s = true -> forall code, shutdown code s = s).
Proof.
  intros Hin Hph Htd s.
  assert (Hc : coherent s0).
  { unfold coherent. rewrite Hph, Htd. repeat split; [apply NoDup_nil_2|assumption]. }
  split.
  - apply (run_events_coherent evs s0 Hc).
  - intros Hs code. unfold shutdown. now rewrite Hs.
Qed.

(** ** The forced kill never reaches a running child *)

Definition delivered_force (e : Effect) : bool :=
  match e with Kill _ SIGKILL true => true | _ => false end.

(** A SIGKILL has been sent to a process that was still running. *)
Definition forced (s : State) : bool := List.existsb delivered_force (trace s).

(** Node's [killed] is set, or the process is gone. *)
Definition signalled (c : ChildProcess) : bool := killed c || exited c.

(** Every child that [shutdown] is waiting for has been signalled. *)
Definition guarded (s : State) : Prop :=
  forall who, waiting_for who s = true ->
    exists c, child who s = Some c /\ signalled c = true.

(** [s'] has the coroutine where [s] has it, no forced kill was delivered
    in between, and the children signalled in [s] still are. *)
Definition calm (s s' : State) : Prop :=
  forced s' = forced s
  /\ phase s' = phase s
  /\ forall who c, child who s = Some c -> signalled c = true ->
       exists c', child who s' = Some c' /\ signalled c' = true.

Lemma calm_refl s : calm s s.
Proof. unfold calm. eauto. Qed.

Lemma calm_trans s1 s2 s3 : calm s1 s2 -> calm s2 s3 -> calm s1 s3.
Proof.
  intros (A1 & A2 & A3) (B1 & B2 & B3). unfold calm.
  repeat split; try congruence.
  intros who c Hc Hs. destruct (A3 who c Hc Hs) as (c' & Hc' & Hs'). eauto.
Qed.

Lemma forced_emit e s : forced (emit e s) = forced s || delivered_force e.
Proof.
  unfold forced. cbn [emit trace]. rewrite existsb_app. cbn. now rewrite orb_false_r.
Qed.

Lemma calm_emit e s : delivered_force e = false -> calm s (emit e s).
Proof.
  intros He. unfold calm. rewrite forced_emit, He, orb_false_r.
  repeat split. intros who c Hc Hs. exists c. now destruct who.
Qed.

Lemma calm_console_log t s : calm s (console_log t s).
Proof. unfold console_log. destruct (routed s), (ui s); now apply calm_emit. Qed.

Lemma calm_console_error t s : calm s (console_error t s).
Proof. unfold console_error. destruct (routed s), (ui s); now apply calm_emit. Qed.

Lemma calm_guarded s s' : calm s s' -> guarded s -> guarded s'.
Proof.
  intros (_ & Hp & Hc) Hg who Hw. unfold waiting_for in Hw. rewrite Hp in Hw.
  destruct (Hg who Hw) as (c & Hc' & Hs). eauto.
Qed.

Lemma kill_term_calm who s : calm s (kill who SIGTERM s).
Proof.
  unfold kill. destruct (child who s) as [c|] eqn:Hc; [|apply calm_refl].
  destruct (exited c) eqn:He; [now apply calm_emit|].
  unfold calm. split; [|split; [now destruct who|]].
  - transitivity (forced (emit (Kill who SIGTERM true) s)); [now destruct who|].
    rewrite forced_emit. cbn. apply orb_false_r.
  - intros who' c' Hc' Hs'. destruct who, who'; cbn in *; eauto.
Qed.

(** After [p.kill()] the child is signalled, whatever it was before. *)
Lemma kill_signalled who sig s c :
  child who s = Some c ->
  exists c', child who (kill who sig s) = Some c' /\ signalled c' = true.
Proof.
  intros Hc. unfold kill. rewrite Hc. destruct (exited c) eqn:He.
  - exists c. split; [now destruct who|]. unfold signalled. rewrite He. apply orb_true_r.
  - exists (mkChild false true). split; [now destruct who|reflexivity].
Qed.

Lemma killProcess_calm who s :
  calm s (killProcess who s).1
  /\ ((killProcess who s).2 = true ->
      exists c, child who (killProcess who s).1 = Some c /\ signalled c = true).
Proof.
  unfold killProcess. destruct (child who s) as [c|] eqn:Hc;
    [|split; [apply calm_refl|discriminate]].
  destruct (killed c); [split; [apply calm_refl|discriminate]|]. cbn [fst snd].
  split.
  - eapply calm_trans; [apply calm_console_log|apply kill_term_calm].
  - intros _. apply (kill_signalled who SIGTERM _ c). now rewrite child_console_log.
Qed.

Definition safe (s : State) : Prop := forced s = false /\ guarded s.

Lemma finish_safe code s : forced s = false -> safe (finish code s).
Proof.
  intros Hf. unfold finish, safe. split.
  - change (forced (set_phase _ ?x)) with (forced x).
    rewrite forced_emit. destruct (calm_console_log "✅ All processes cleaned up" s) as (-> & _).
    now rewrite Hf.
  - intros who Hw. discriminate Hw.
Qed.

Lemma after_watcher_safe code s : forced s = false -> safe (after_watcher code s).
Proof.
  intros Hf. unfold after_watcher.
  destruct (killProcess_calm Tsc s) as [C1 W1].
  destruct (killProcess Tsc s) as [s1 w1]. cbn [fst snd] in *.
  destruct (killProcess_calm Alias s1) as [C2 W2].
  destruct (killProcess Alias s1) as [s2 w2]. cbn [fst snd] in *.
  assert (Hf2 : forced s2 = false).
  { destruct C1 as (E1 & _), C2 as (E2 & _). congruence. }
  destruct (w1 || w2) eqn:Hw; [|now apply finish_safe].
  split; [exact Hf2|]. intros who Hwait. cbn in Hwait.
  destruct who.
  - destruct (W1 Hwait) as (c & Hc & Hs). destruct C2 as (_ & _ & C2).
    destruct (C2 Tsc c Hc Hs) as (c' & Hc' & Hs'). exists c'. split; assumption.
  - destruct (W2 Hwait) as (c & Hc & Hs). exists c.
    split; [|assumption]. exact Hc.
Qed.

Lemma shutdown_safe code s : safe s -> safe (shutdown code s).
Proof.
  intros [Hf Hg]. unfold shutdown. destruct (inProgress s); [now split|].
  set (s1 := emit FlagSet (set_inProgress true s)).
  assert (H1 : forced s1 = false).
  { unfold s1. rewrite forced_emit. cbn. now rewrite orb_false_r. }
  set (s2 := if ui s1 then set_ui false (emit UiDestroyed s1) else s1).
  assert (H2 : forced s2 = false).
  { unfold s2. destruct (ui s1); [|assumption].
    change (forced (set_ui _ ?x)) with (forced x). rewrite forced_emit, H1. reflexivity. }
  set (s3 := console_log _ s2).
  assert (H3 : forced s3 = false).
  { unfold s3. destruct (calm_console_log "
⏳ Shutting down..." s2) as (-> & _). assumption. }
  destruct (watcher s3).
  - split.
    + change (forced (set_phase _ ?x)) with (forced x). rewrite forced_emit, H3. reflexivity.
    + intros who Hw. discriminate Hw.
  - apply after_watcher_safe.
    destruct (calm_console_log "✅ Src watcher closed" s3) as (-> & _). assumption.
Qed.

Lemma resolve_wait_safe who s : safe s -> safe (resolve_wait who s).
Proof.
  intros [Hf Hg]. unfold resolve_wait.
  destruct (phase s) as [|c|c wt wa|c] eqn:Hph; try (now split).
  match goal with |- safe (if ?b then _ else _) => destruct b end;
    [|now apply finish_safe].
  split; [assumption|]. intros who' Hw.
  assert (Hw' : waiting_for who' s = true).
  { unfold waiting_for in *. rewrite Hph. cbn in Hw.
    destruct who, who'; cbn in Hw; congruence. }
  destruct (Hg who' Hw') as (c' & Hc' & Hs'). exists c'. split; [|assumption].
  now destruct who'.
Qed.

Lemma calm_safe s s' : calm s s' -> safe s -> safe s'.
Proof.
  intros Hc [Hf Hg]. split; [|now apply (calm_guarded s)].
  destruct Hc as (-> & _). assumption.
Qed.

Lemma set_exited_safe who c s :
  child who s = Some c -> safe s ->
  safe (set_child who (Some (mkChild true (killed c))) s).
Proof.
  intros Hc. apply calm_safe. unfold calm.
  split; [now destruct who|]. split; [now destruct who|].
  intros who' c' Hc' Hs'. destruct who, who'; cbn in *; eauto.
  - exists (mkChild true (killed c)). split; [reflexivity|].
    unfold signalled. cbn. apply orb_true_r.
  - exists (mkChild true (killed c)). split; [reflexivity|].
    unfold signalled. cbn. apply orb_true_r.
Qed.

Lemma on_exit_piped_safe who code s : safe s -> safe (on_exit_piped who code s).
Proof.
  intros Hs. unfold on_exit_piped. destruct code as [z|]; [|assumption].
  destruct (Z.eqb z 0); [assumption|].
  apply shutdown_safe. revert Hs. apply calm_safe, calm_console_error.
Qed.

Lemma timeout_safe who s :
  safe s -> waiting_for who s = true ->
  safe (resolve_wait who
          match child who s with
          | Some c => if killed c then s else kill who SIGKILL s
          | None => s
          end).
Proof.
  intros Hs Hw. apply resolve_wait_safe.
  destruct Hs as [Hf Hg]. destruct (Hg who Hw) as (c & Hc & Hsig). rewrite Hc.
  destruct (killed c) eqn:Hk; [now split|].
  unfold signalled in Hsig. rewrite Hk in Hsig. cbn in Hsig.
  apply (calm_safe s); [|now split].
  unfold kill. rewrite Hc, Hsig. now apply calm_emit.
Qed.

Lemma on_signal_safe s : safe s -> safe (on_signal s).
Proof.
  intros Hs. unfold on_signal.
  pose proof (shutdown_safe 0 s Hs) as H.
  destruct (ui s && negb (ui (shutdown 0 s))); [|exact H].
  revert H. apply calm_safe. unfold calm. repeat split.
  intros who c Hc Hsig. exists c. now destruct who.
Qed.

Lemma scheduled_exit_safe s : safe s -> safe (scheduled_exit s).
Proof.
  intros [Hf Hg]. unfold scheduled_exit. destruct (exitScheduled s); [|now split].
  split.
  - change (forced (set_phase _ ?x)) with (forced x). rewrite forced_emit, Hf. reflexivity.
  - intros who Hw. discriminate Hw.
Qed.

Lemma handle_safe ev s : safe s -> safe (handle ev s).
Proof.
  intros Hs. unfold handle. destruct ev as [| |who text|who code|error|who|who error|].
  - destruct (phase s); try assumption; now apply on_signal_safe.
  - destruct (phase s); try assumption;
      (destruct (ui s); [now apply shutdown_safe|assumption]).
  - destruct (phase s); try assumption;
      (destruct (piped s && ui s && CLI.truthy text); [|assumption];
       revert Hs; now apply calm_safe, calm_emit).
  - destruct (phase s); try assumption;
      (destruct (child who s) as [c|] eqn:Hc; [|assumption];
       destruct (exited c); [assumption|];
       match goal with
       | |- context [if piped ?x then _ else _] =>
           assert (Hx : safe (if piped x then on_exit_piped who code x else x))
             by (destruct (piped x);
                 [apply on_exit_piped_safe|]; now apply set_exited_safe)
       end;
       destruct (waiting_for who s); [now apply resolve_wait_safe|assumption]).
  - destruct (phase s) eqn:Hph; try assumption.
    destruct Hs as [Hf _]. apply after_watcher_safe.
    destruct error as [e|].
    + destruct (calm_console_error ("❌ Error closing src watcher: " +:+ e) s) as (-> & _).
      assumption.
    + destruct (calm_console_log "✅ Src watcher closed" s) as (-> & _). assumption.
  - destruct (phase s) eqn:Hph; try assumption;
      (destruct (waiting_for who s) eqn:Hw; [now apply timeout_safe|assumption]).
  - destruct (phase s); try assumption;
      (destruct (piped s && ui s); [|assumption];
       revert Hs; now apply calm_safe, calm_emit).
  - destruct (phase s); try assumption; now apply scheduled_exit_safe.
Qed.

(** X11.  The escalation is dead code for running children: from a state in
    which [shutdown] is not yet waiting for a child, whatever happens, no SIGKILL
    is ever sent to a process that is still running. *)
Lemma forced_kill_never_delivered (evs : list Event) (s : State) :
  forced s = false ->
  (forall who, waiting_for who s = false) ->
  forced (run_events evs s) = false.
Proof.
  intros Hf Hw.
  assert (Hs : safe s).
  { split; [assumption|]. intros who H. rewrite Hw in H. discriminate H. }
  clear Hf Hw. revert s Hs.
  induction evs as [|ev evs IH]; intros s Hs; [apply Hs|].
  cbn [run_events fold_left]. apply IH. now apply handle_safe.
Qed.

(** ** In watch mode nothing reaches the terminal *)

Definition is_terminal (e : Effect) : bool :=
  match e with Stdout _ | Stderr _ => true | _ => false end.

(** What has been written to the real standard output and error. *)
Definition terminal (s : State) : list Effect := List.filter is_terminal (trace s).

(** The console is replaced and the terminal shows [T]. *)
Definition muted (T : list Effect) (s : State) : Prop :=
  routed s = true /\ terminal s = T.

Lemma muted_emit T e s : is_terminal e = false -> muted T s -> muted T (emit e s).
Proof.
  intros He [Hr Ht]. split; [exact Hr|].
  unfold terminal. cbn [emit trace]. rewrite List.filter_app. cbn [List.filter].
  rewrite He, app_nil_r. exact Ht.
Qed.

Lemma muted_console_log T t s : muted T s -> muted T (console_log t s).
Proof.
  intros H. pose proof H as [Hr _]. unfold console_log. rewrite Hr.
  destruct (ui s); now apply muted_emit.
Qed.

Lemma muted_console_error T t s : muted T s -> muted T (console_error t s).
Proof.
  intros H. pose proof H as [Hr _]. unfold console_error. rewrite Hr.
  destruct (ui s); now apply muted_emit.
Qed.

Lemma muted_kill T who sig s : muted T s -> muted T (kill who sig s).
Proof.
  intros H. unfold kill. destruct (child who s) as [c|]; [|assumption].
  destruct (exited c); [now apply muted_emit|].
  assert (H' : muted T (emit (Kill who sig true) s)) by now apply muted_emit.
  now destruct who.
Qed.

Lemma muted_killProcess T who s : muted T s -> muted T (killProcess who s).1.
Proof.
  intros H. unfold killProcess. destruct (child who s) as [c|]; [|assumption].
  destruct (killed c); [assumption|]. cbn [fst].
  now apply muted_kill, muted_console_log.
Qed.

Lemma muted_finish T code s : muted T s -> muted T (finish code s).
Proof.
  intros H. unfold finish.
  change (muted T (set_phase (Gone code) ?x)) with (muted T x).
  now apply muted_emit, muted_console_log.
Qed.

Lemma muted_after_watcher T code s : muted T s -> muted T (after_watcher code s).
Proof.
  intros H. unfold after_watcher.
  pose proof (muted_killProcess T Tsc s H) as H1.
  destruct (killProcess Tsc s) as [s1 w1]. cbn [fst] in H1.
  pose proof (muted_killProcess T Alias s1 H1) as H2.
  destruct (killProcess Alias s1) as [s2 w2]. cbn [fst] in H2.
  destruct (w1 || w2); [exact H2|now apply muted_finish].
Qed.

Lemma muted_shutdown T code s : muted T s -> muted T (shutdown code s).
Proof.
  intros H. unfold shutdown. destruct (inProgress s); [assumption|].
  set (s1 := emit FlagSet (set_inProgress true s)).
  assert (H1 : muted T s1) by (apply muted_emit; [reflexivity|exact H]).
  set (s2 := if ui s1 then set_ui false (emit UiDestroyed s1) else s1).
  assert (H2 : muted T s2).
  { unfold s2. destruct (ui s1); [|assumption].
    change (muted T (set_ui false ?x)) with (muted T x). now apply muted_emit. }
  set (s3 := console_log _ s2).
  assert (H3 : muted T s3) by now apply muted_console_log.
  destruct (watcher s3).
  - change (muted T (set_phase ?p ?x)) with (muted T x). now apply muted_emit.
  - now apply muted_after_watcher, muted_console_log.
Qed.

Lemma muted_resolve_wait T who s : muted T s -> muted T (resolve_wait who s).
Proof.
  intros H. unfold resolve_wait. destruct (phase s); try assumption.
  match goal with |- muted T (if ?b then _ else _) => destruct b end;
    [exact H|now apply muted_finish].
Qed.

Lemma muted_on_exit_piped T who code s : muted T s -> muted T (on_exit_piped who code s).
Proof.
  intros H. unfold on_exit_piped. destruct code as [z|]; [|assumption].
  destruct (Z.eqb z 0); [assumption|].
  now apply muted_shutdown, muted_console_error.
Qed.

Lemma muted_on_signal T s : muted T s -> muted T (on_signal s).
Proof.
  intros H. unfold on_signal.
  pose proof (muted_shutdown T 0 s H) as H'.
  destruct (ui s && negb (ui (shutdown 0 s))); exact H'.
Qed.

Lemma muted_scheduled_exit T s : muted T s -> muted T (scheduled_exit s).
Proof.
  intros H. unfold scheduled_exit. destruct (exitScheduled s); [|exact H].
  change (muted T (set_phase ?p ?x)) with (muted T x). now apply muted_emit.
Qed.

Lemma muted_handle T ev s : muted T s -> muted T (handle ev s).
Proof.
  intros H. unfold handle. destruct ev as [| |who text|who code|error|who|who error|].
  - destruct (phase s); try assumption; now apply muted_on_signal.
  - destruct (phase s); try assumption;
      (destruct (ui s); [now apply muted_shutdown|assumption]).
  - destruct (phase s); try assumption;
      (destruct (piped s && ui s && CLI.truthy text); [now apply muted_emit|assumption]).
  - destruct (phase s); try assumption;
      (destruct (child who s) as [c|]; [|assumption];
       destruct (exited c); [assumption|];
       match goal with
       | |- context [if piped ?x then _ else _] =>
           assert (Hx : muted T (if piped x then on_exit_piped who code x else x))
             by (assert (Hc : muted T x) by (now destruct who);
                 destruct (piped x); [now apply muted_on_exit_piped|exact Hc])
       end;
       destruct (waiting_for who s); [now apply muted_resolve_wait|assumption]).
  - destruct (phase s); try assumption.
    apply muted_after_watcher.
    destruct error; [now apply muted_console_error|now apply muted_console_log].
  - destruct (phase s); try assumption;
      (destruct (waiting_for who s); [|assumption];
       apply muted_resolve_wait;
       destruct (child who s) as [c|]; [|assumption];
       destruct (killed c); [assumption|now apply muted_kill]).
  - destruct (phase s); try assumption;
      (destruct (piped s && ui s); [now apply muted_emit|assumption]).
  - destruct (phase s); try assumption; now apply muted_scheduled_exit.
Qed.

(** X12.  The replaced console is never restored: once [build] has replaced
    the console, nothing that the orchestrator logs is written to the real
    standard output or error any more, during the watch session or during
    shutdown, because the replacement is never undone. *)
Lemma routed_console_never_prints (evs : list Event) (s : State) :
  routed s = true -> terminal (run_events evs s) = terminal s.
Proof.
  intros Hr.
  assert (H : muted (terminal s) s) by now split.
  revert H. generalize (terminal s) as T. revert s Hr.
  induction evs as [|ev evs IH]; intros s Hr T H; [apply H|].
  cbn [run_events fold_left].
  pose proof (muted_handle T ev s H) as H'.
  apply IH; [apply H'|exact H'].
Qed.

Lemma shutdown_runs_at_most_once_witness :
  let s := run_events [ChildExit Tsc (Some 2%Z); Signal; ExitKey; WatcherClosed None;
                       Signal; KillTimeout Alias; ChildExit Alias None]
                      (watching ∅) in
  NoDup (teardown s)
  /\ (inProgress s = true -> forall code, shutdown code s = s).
Proof.
  apply (shutdown_runs_at_most_once
           [ChildExit Tsc (Some 2%Z); Signal; ExitKey; WatcherClosed None;
            Signal; KillTimeout Alias; ChildExit Alias None] (watching ∅));
    reflexivity.
Defined.

(** A compiler crash: its exit code becomes the exit code of the
    orchestrator.  The crashed child is waited for like a live one; only
    its timer ends the wait, and the forced kill then goes to a process that
    no longer exists. *)
Example shutdown_after_crash :
  let s := run_events [ChildExit Tsc (Some 2%Z); Signal; WatcherClosed None;
                       ChildExit Alias None; KillTimeout Tsc] (watching ∅) in
  teardown s = [SFlag; SUi; SWatcher; STerm Tsc; STerm Alias; SForce Tsc; SExit]
  /\ phase s = Gone 2
  /\ In (Kill Tsc SIGKILL false) (trace s).
Proof. vm_compute. repeat split. tauto. Qed.

(** C2 at its failing input: the watch session is left with an exit key
    (escape, q, or C-c, which the display reads as a key), the watcher
    closes, and neither child reacts to SIGTERM before its 2000 ms timer
    fires.  Each child is sent SIGTERM and nothing else; when the timers
    fire [killed] is already true, so SIGKILL is not sent, and the
    orchestrator leaves with code 0 while both children still run. *)
Theorem unresponsive_child_is_never_force_killed :
  let s := run_events [ExitKey; WatcherClosed None; KillTimeout Tsc; KillTimeout Alias]
                      (watching ∅) in
  kills s = [Kill Tsc SIGTERM true; Kill Alias SIGTERM true]
  /\ last (trace s) = Some (ProcessExit 0)
  /\ tsc s = Some (mkChild false true)
  /\ alias s = Some (mkChild false true).
Proof. vm_compute. repeat split; reflexivity. Qed.

(** C6 at its failing input: the watch session is left with an exit key,
    and both children exit in an orderly way.  The display is destroyed
    first, but [console.log] is still the replacement installed by [build],
    which now finds no display: every status line of the shutdown is
    swallowed and nothing at all is written to the terminal. *)
Theorem shutdown_lines_are_swallowed :
  trace (run_events [ExitKey; WatcherClosed None; ChildExit Tsc None; ChildExit Alias None]
                    (watching ∅))
  = [FlagSet; UiDestroyed;
     Swallowed "
⏳ Shutting down...";
     WatcherClose;
     Swallowed "✅ Src watcher closed";
     Swallowed "🔄 Killing tsc...";
     Kill Tsc SIGTERM true;
     Swallowed "🔄 Killing tsc-alias...";
     Kill Alias SIGTERM true;
     Swallowed "✅ All processes cleaned up";
     ProcessExit 0].
Proof. vm_compute. reflexivity. Qed.

(** A termination signal in watch mode.  The listener of [build] starts the
    shutdown, which destroys the display; the listener of blessed, called
    next, finds no second listener on the signal any more and schedules
    [process.exit(0)].  When that runs the process is gone, whatever the
    shutdown was waiting for: here the watcher has closed and both children
    have been asked to terminate, but their exits are not waited for and
    the last status line is never reached. *)
Example signal_in_watch_mode :
  let s := run_events [Signal; WatcherClosed None; ScheduledExit; KillTimeout Tsc]
                      (watching ∅) in
  trace s
  = [FlagSet; UiDestroyed;
     Swallowed "
⏳ Shutting down...";
     WatcherClose;
     Swallowed "✅ Src watcher closed";
     Swallowed "🔄 Killing tsc...";
     Kill Tsc SIGTERM true;
     Swallowed "🔄 Killing tsc-alias...";
     Kill Alias SIGTERM true;
     ProcessExit 0]
  /\ tsc s = Some (mkChild false true) /\ alias s = Some (mkChild false true).
Proof. vm_compute. repeat split; reflexivity. Qed.

(** The same when the watcher takes its time: the process is gone before
    either child has been sent a signal. *)
Example signal_with_a_slow_watcher :
  let s := run_events [Signal; ScheduledExit; WatcherClosed None] (watching ∅) in
  trace s
  = [FlagSet; UiDestroyed;
     Swallowed "
⏳ Shutting down...";
     WatcherClose;
     ProcessExit 0]
  /\ tsc s = Some (mkChild false false) /\ alias s = Some (mkChild false false).
Proof. vm_compute. repeat split; reflexivity. Qed.

(** Without the display (a one-shot build, or a shutdown already under
    way) a signal is handled by the listener of [build] alone. *)
Example signal_without_display :
  let s := run_events [Signal; ScheduledExit] (init ∅) in
  trace s
  = [FlagSet;
     Stdout "
⏳ Shutting down...";
     Stdout "✅ Src watcher closed";
     Stdout "✅ All processes cleaned up";
     ProcessExit 0]
  /\ exitScheduled s = false.
Proof. vm_compute. repeat split; reflexivity. Qed.

(** ** More about [build], and the entry point *)

Section BuildMore.

Variable cwd : string.
Variable trim : string -> string.
Variable rm_fault : string -> option string.
Variable rm_partial : string -> string -> bool.
Variable exec : string -> list string -> gset string -> ProcRun.
Variable findClosestTsconfig : string -> Res string.
Variable readTsConfig : string -> Res Config.

Local Abbreviation build :=
  (build cwd trim rm_fault rm_partial exec findClosestTsconfig readTsConfig).
Local Abbreviation resolve_config := (resolve_config cwd findClosestTsconfig readTsConfig).

Definition is_spawn (e : Effect) : bool :=
  match e with Spawn _ _ => true | _ => false end.

(** The processes started so far. *)
Definition spawns (s : State) : list Effect := List.filter is_spawn (trace s).

(** X13.  A one-shot build, whichever way it goes.  The output root is emptied
    first and the compiler runs on what is left.  If the compiler fails
    (non-zero exit, death by signal, or it cannot be started), [build]
    rejects with its error, the alias resolver is never started, and the
    output root is emptied again.  If the compiler succeeds and the alias
    resolver fails, [build] rejects with the error of the resolver and what
    the two tools wrote below the output root is removed.  If both succeed,
    [build] resolves, the files are those the resolver left, and the last
    thing printed is the success line. *)
Theorem oneshot_build
    (args : CLI.Args) (files : gset string) (path rootAbs outAbs : string) :
  CLI.watch args = false ->
  resolve_config args = Ok (path, rootAbs, outAbs) ->
  rm_fault outAbs = None ->
  let tscArgs := ["-p"; path; "--pretty"] in
  let aliasArgs := ["-p"; path] in
  let cleaned := Fs.rm outAbs files in
  let tscRun := exec "tsc" tscArgs cleaned in
  let aliasRun := exec "tsc-alias" aliasArgs (files_after tscRun) in
  let result := build args (init files) in
  let s := fst result in
  match run_error trim "tsc" tscArgs tscRun, run_error trim "tsc-alias" aliasArgs aliasRun with
  | Some e, _ =>
      snd result = Err e /\ spawns s = [Spawn "tsc" tscArgs]
      /\ fs s = Fs.rm outAbs (files_after tscRun)
  | None, Some e =>
      snd result = Err e /\ spawns s = [Spawn "tsc" tscArgs; Spawn "tsc-alias" aliasArgs]
      /\ fs s = Fs.rm outAbs (files_after aliasRun)
  | None, None =>
      snd result = Ok tt /\ spawns s = [Spawn "tsc" tscArgs; Spawn "tsc-alias" aliasArgs]
      /\ fs s = files_after aliasRun
      /\ last (trace s) = Some (Stdout "✅ Build completed successfully!")
  end.
Proof.
  intros Hwatch Hcfg Hrm tscArgs aliasArgs cleaned tscRun aliasRun result s.
  subst s result. unfold Builder.build, mbind, M_bind, bind, lift.
  rewrite Hcfg. unfold build_in. rewrite Hwatch.
  cbv [negb mbind M_bind bind ret act rmIfExists Fs.rmIfExists try_catch
       compile run throw].
  rewrite Hrm. cbn [fs set_fs console_log emit init routed].
  fold tscArgs. fold cleaned. fold tscRun.
  destruct (run_error trim "tsc" tscArgs tscRun) as [e1|].
  - unfold spawns. state_proj. cbn [app List.filter is_spawn].
    split; [reflexivity|split; reflexivity].
  - state_proj. fold aliasArgs. fold aliasRun.
    destruct (run_error trim "tsc-alias" aliasArgs aliasRun) as [e2|].
    + unfold spawns. state_proj. cbn [app List.filter is_spawn].
      split; [reflexivity|split; reflexivity].
    + unfold spawns. state_proj. cbn [app List.filter is_spawn].
      split; [reflexivity|split; [reflexivity|split; reflexivity]].
Qed.


(** X14.  When the output root cannot be removed (any failure other than
    [ENOENT]), [build] rejects with that failure before any tool is started:
    no process is spawned and no watcher is started.  No file is added, and
    every file outside the output root is still there; below the output
    root, what the failed removal had got to is gone.  In watch mode the
    display is already up and the console already replaced at that
    point. *)
Theorem build_stops_when_cleaning_fails
    (args : CLI.Args) (files : gset string) (path rootAbs outAbs code : string) :
  resolve_config args = Ok (path, rootAbs, outAbs) ->
  rm_fault outAbs = Some code ->
  code <> "ENOENT" ->
  let result := build args (init files) in
  let s := fst result in
  snd result = Err code
  /\ spawns s = []
  /\ tsc s = None /\ alias s = None /\ watcher s = false
  /\ ui s = CLI.watch args /\ routed s = CLI.watch args
  /\ fs s ⊆ files
  /\ (forall q, q ∈ files -> Fs.within outAbs q = false -> q ∈ fs s).
Proof.
  intros Hcfg Hrm Hcode result s. subst s result.
  unfold Builder.build, mbind, M_bind, bind, lift.
  rewrite Hcfg. unfold build_in.
  apply String.eqb_neq in Hcode.
  destruct (CLI.watch args);
    cbv [negb mbind M_bind bind ret act rmIfExists Fs.rmIfExists try_catch
         compile run throw];
    state_proj; rewrite Hrm, Hcode; unfold spawns; state_proj;
    cbn [app List.filter is_spawn]; repeat (split; [reflexivity|]);
    (split;
     [intros q Hq; now apply elem_of_filter in Hq
     |intros q Hq Hw; apply elem_of_filter; rewrite Hw; now split]).
Qed.

(** ** The entry point ([index.ts]) and the dependency check *)

(** [String(e?.stack || e)] for the error [main] ends with. *)
Variable stack : string -> string.

(** [commandExists(cmd)]: [which] ended with status 0. *)
Definition commandExists (cmd : string) : M bool :=
  fun s =>
    let r := exec "which" [cmd] (fs s) in
    (emit (Spawn "which" [cmd]) s,
     Ok match ended r with
        | ExitedWith (Some 0%Z) => true
        | _ => false
        end).

(** [installDeps(deps)] *)
Definition installDeps (deps : list string) : M unit :=
  act (console_log ("
📦 Installing: " +:+ String.concat ", " deps +:+ "...
"));;
  (fun s =>
    let r := exec "bun" ("add" :: "-d" :: deps) (fs s) in
    let s' := set_fs (files_after r) (emit (Spawn "bun" ("add" :: "-d" :: deps)) s) in
    match ended r with
    | ExitedWith (Some 0%Z) =>
        (console_log "
✅ Dependencies installed successfully!
" s', Ok tt)
    | ExitedWith code =>
        (s', Err ("Failed to install dependencies (exit code " +:+ show_code code +:+ ")"))
    | FailedToStart msg => (s', Err ("Failed to run bun: " +:+ msg))
    end) : M unit.

(** [checkDependencies()] *)
Definition checkDependencies : M bool :=
  hasTsc ← commandExists "tsc";
  hasAlias ← commandExists "tsc-alias";
  let missing := (if hasTsc : bool then [] else ["typescript"])
                   ++ (if hasAlias : bool then [] else ["tsc-alias"]) in
  if (length missing =? 0)%nat then (ret true : M bool)
  else
    act (console_log ("
⚠️  Missing required dependencies: " +:+ String.concat ", " missing));;
    installDeps missing;;
    (ret true : M bool).

(** The handler of [main().catch]: the error is written with
    [console.error] and the process exits with code 1. *)
Definition on_rejection (e : string) (s : State) : State :=
  set_phase (Gone 1) (emit (ProcessExit 1) (console_error (stack e) s)).

(** [main()] with its [catch], for the arguments [argv] =
    [process.argv.slice(2)]. *)
Definition main (argv : list string) (s : State) : State :=
  let s := console_log "📦 Initializing..."
             (console_log "------------- bldr -------------" s) in
  match checkDependencies s with
  | (s, Err e) => on_rejection e s
  | (s, Ok depsOk) =>
      if negb depsOk then set_phase (Gone 1) (emit (ProcessExit 1) s)
      else
        let '(parsed, out) := CLI.parseArgs argv in
        let s := fold_left (fun st line => console_log line st) out s in
        match parsed with
        | CLI.Exited code => set_phase (Gone code) (emit (ProcessExit code) s)
        | CLI.Thrown msg => on_rejection msg s
        | CLI.Returned args =>
            match build args s with
            | (s, Ok _) => s
            | (s, Err e) => on_rejection e s
            end
        end
  end.


(** *** What the pieces leave alone *)

Definition exit_code (e : Effect) : option Z :=
  match e with ProcessExit c => Some c | _ => None end.

(** The codes with which [process.exit] was called, in order. *)
Definition exits (s : State) : list Z := omap exit_code (trace s).

(** [m] does not exit the process. *)
Definition stays {A} (m : M A) : Prop := forall s, exits (fst (m s)) = exits s.

Lemma exits_emit e s : exits (emit e s) = exits s ++ option_list (exit_code e).
Proof. unfold exits. cbn [emit trace]. now rewrite omap_app. Qed.

Lemma exits_console_log t s : exits (console_log t s) = exits s.
Proof.
  unfold console_log. destruct (routed s), (ui s); rewrite exits_emit; apply app_nil_r.
Qed.

Lemma exits_console_error t s : exits (console_error t s) = exits s.
Proof.
  unfold console_error. destruct (routed s), (ui s); rewrite exits_emit; apply app_nil_r.
Qed.

Lemma stays_ret {A} (a : A) : stays (ret a).
Proof. now intros s. Qed.

Lemma stays_throw {A} msg : stays (@throw A msg).
Proof. now intros s. Qed.

Lemma stays_act f : (forall s, exits (f s) = exits s) -> stays (act f).
Proof. intros H s. apply H. Qed.

Lemma stays_bind {A B} (m : M A) (k : A -> M B) :
  stays m -> (forall a, stays (k a)) -> stays (m ≫= k).
Proof.
  intros Hm Hk s. unfold mbind, M_bind, bind. specialize (Hm s).
  destruct (m s) as [s' [a|e]]; cbn [fst] in *; [|exact Hm].
  now rewrite Hk.
Qed.

Lemma stays_try_catch {A} (m : M A) h :
  stays m -> (forall e, stays (h e)) -> stays (try_catch m h).
Proof.
  intros Hm Hh s. unfold try_catch. specialize (Hm s).
  destruct (m s) as [s' [a|e]]; cbn [fst] in *; [exact Hm|].
  now rewrite Hh.
Qed.

Lemma stays_run cmd args : stays (run trim exec cmd args).
Proof.
  intros s. unfold run.
  destruct (run_error trim cmd args _); cbn [fst];
    change (exits (set_fs ?f ?x)) with (exits x); rewrite exits_emit; apply app_nil_r.
Qed.

Lemma stays_rmIfExists p : stays (rmIfExists rm_fault rm_partial p).
Proof.
  intros s. unfold rmIfExists.
  now destruct (Fs.rmIfExists rm_fault rm_partial p (fs s)) as [files [code|]].
Qed.

Lemma stays_compile start done tscArgs aliasArgs :
  stays (compile trim exec start done tscArgs aliasArgs).
Proof.
  unfold compile.
  repeat (apply stays_bind; [|intros ?]);
    try apply stays_run; apply stays_act; intros s; apply exits_console_log.
Qed.

(** [build] never exits the process by itself. *)
Lemma stays_build args : stays (build args).
Proof.
  unfold Builder.build. apply stays_bind; [now intros s|]. intros [[path rootAbs] outAbs].
  unfold build_in.
  apply stays_bind.
  { destruct (CLI.watch args); [|apply stays_ret]. apply stays_act. intros s.
    change (exits (set_routed true (createTerminalUI s))) with (exits (emit UiCreated s)).
    rewrite exits_emit. apply app_nil_r. }
  intros _. apply stays_bind; [apply stays_act; intros s; apply exits_console_log|].
  intros _. apply stays_bind; [apply stays_act; intros s; apply exits_console_log|].
  intros _. apply stays_bind; [apply stays_rmIfExists|].
  intros _. apply stays_bind; [apply stays_act; intros s; apply exits_console_log|].
  intros _. destruct (negb (CLI.watch args)).
  - apply stays_try_catch; [apply stays_compile|]. intros e.
    apply stays_bind; [apply stays_act; intros s; apply exits_console_error|].
    intros _. apply stays_bind; [apply stays_rmIfExists|]. intros _. apply stays_throw.
  - apply stays_bind.
    { apply stays_try_catch; [apply stays_compile|]. intros e. apply stays_act. intros s.
      destruct (ui s); [|reflexivity]. rewrite exits_emit. apply app_nil_r. }
    intros _. apply stays_bind.
    { apply stays_act. intros s. unfold spawnLongRunning.
      change (exits (set_child Tsc ?c ?x)) with (exits x). rewrite exits_emit. apply app_nil_r. }
    intros _. apply stays_bind.
    { apply stays_act. intros s. unfold spawnLongRunning.
      change (exits (set_child Alias ?c ?x)) with (exits x). rewrite exits_emit. apply app_nil_r. }
    intros _. apply stays_bind.
    { apply stays_act. intros s. unfold setupOutputPipes. destruct (ui s); [|reflexivity].
      change (exits (set_piped true ?x)) with (exits x). rewrite !exits_emit.
      cbn. now rewrite !app_nil_r. }
    intros _. apply stays_act. intros s.
    change (exits (set_watcher true ?x)) with (exits x). rewrite exits_emit. apply app_nil_r.
Qed.

Lemma stays_checkDependencies : stays checkDependencies.
Proof.
  assert (Hc : forall cmd, stays (commandExists cmd)).
  { intros cmd s. unfold commandExists. cbn [fst]. rewrite exits_emit. apply app_nil_r. }
  unfold checkDependencies.
  apply stays_bind; [apply Hc|]. intros hasTsc.
  apply stays_bind; [apply Hc|]. intros hasAlias.
  match goal with |- stays (if ?b then _ else _) => destruct b end; [apply stays_ret|].
  apply stays_bind; [apply stays_act; intros s; apply exits_console_log|]. intros _.
  apply stays_bind; [|intros _; apply stays_ret].
  unfold installDeps.
  apply stays_bind; [apply stays_act; intros s; apply exits_console_log|]. intros _ s.
  destruct (ended _) as [msg|[[| |]|]]; cbn [fst];
    rewrite ?exits_console_log;
    change (exits (set_fs ?f ?x)) with (exits x); rewrite exits_emit; apply app_nil_r.
Qed.

Lemma spawns_emit e s :
  spawns (emit e s) = spawns s ++ (if is_spawn e then [e] else []).
Proof.
  unfold spawns. cbn [emit trace]. rewrite List.filter_app. cbn.
  now destruct (is_spawn e).
Qed.

Lemma spawns_console_log t s : spawns (console_log t s) = spawns s.
Proof.
  unfold console_log. destruct (routed s), (ui s); rewrite spawns_emit; apply app_nil_r.
Qed.

Lemma fs_console_log t s : fs (console_log t s) = fs s.
Proof. unfold console_log. now destruct (routed s), (ui s). Qed.

(** X15.  [checkDependencies] asks [which] for [tsc] and for [tsc-alias], in
    that order.  When both are found it answers [true] and touches nothing.
    Otherwise it runs [bun add -d] once, with [typescript] and [tsc-alias]
    for exactly the tools that were not found, in that order; it answers
    [true] when that command exits with 0 and rejects when it exits
    otherwise or cannot be started. *)
Theorem checkDependencies_installs_what_is_missing (s : State) :
  let has cmd := match ended (exec "which" [cmd] (fs s)) with
                 | ExitedWith (Some 0%Z) => true
                 | _ => false
                 end in
  let missing := (if has "tsc" then [] else ["typescript"])
                   ++ (if has "tsc-alias" then [] else ["tsc-alias"]) in
  let install := exec "bun" ("add" :: "-d" :: missing) (fs s) in
  let result := checkDependencies s in
  match missing with
  | [] =>
      snd result = Ok true /\ fs (fst result) = fs s
      /\ spawns (fst result)
         = spawns s ++ [Spawn "which" ["tsc"]; Spawn "which" ["tsc-alias"]]
  | _ =>
      snd result
      = match ended install with
        | ExitedWith (Some 0%Z) => Ok true
        | ExitedWith code =>
            Err ("Failed to install dependencies (exit code " +:+ show_code code +:+ ")")
        | FailedToStart msg => Err ("Failed to run bun: " +:+ msg)
        end
      /\ fs (fst result) = files_after install
      /\ spawns (fst result)
         = spawns s ++ [Spawn "which" ["tsc"]; Spawn "which" ["tsc-alias"];
                        Spawn "bun" ("add" :: "-d" :: missing)]
  end.
Proof.
  intros has missing install result.
  assert (Hres : result = checkDependencies s) by reflexivity.
  unfold checkDependencies, mbind, M_bind, bind, commandExists in Hres.
  cbn [fs emit] in Hres. fold (has "tsc") in Hres. fold (has "tsc-alias") in Hres.
  fold missing in Hres.
  assert (Hfin : forall x, fs x = fs s ->
            spawns x = spawns s ++ [Spawn "which" ["tsc"]; Spawn "which" ["tsc-alias"]] ->
            let r := installDeps missing
                       (console_log ("
⚠️  Missing required dependencies: " +:+ String.concat ", " missing) x) in
            snd r = match ended install with
                    | ExitedWith (Some 0%Z) => Ok tt
                    | ExitedWith code =>
                        Err ("Failed to install dependencies (exit code "
                               +:+ show_code code +:+ ")")
                    | FailedToStart msg => Err ("Failed to run bun: " +:+ msg)
                    end
            /\ fs (fst r) = files_after install
            /\ spawns (fst r)
               = spawns s ++ [Spawn "which" ["tsc"]; Spawn "which" ["tsc-alias"];
                              Spawn "bun" ("add" :: "-d" :: missing)]).
  { intros x Hfs Hsp r. subst r. unfold installDeps, mbind, M_bind, bind, act.
    set (y := console_log _ (console_log _ x)).
    assert (Hy : fs y = fs s /\ spawns y = spawns x).
    { unfold y. now rewrite !spawns_console_log, !fs_console_log. }
    destruct Hy as [Hy1 Hy2]. rewrite Hy1. fold install.
    assert (Hz : forall z, z = set_fs (files_after install)
                               (emit (Spawn "bun" ("add" :: "-d" :: missing)) y) ->
                 fs z = files_after install
                 /\ spawns z = spawns s ++ [Spawn "which" ["tsc"]; Spawn "which" ["tsc-alias"];
                                            Spawn "bun" ("add" :: "-d" :: missing)]).
    { intros z ->. split; [reflexivity|].
      change (spawns (set_fs ?f ?u)) with (spawns u).
      rewrite spawns_emit, Hy2, Hsp, <- app_assoc. reflexivity. }
    destruct (Hz _ eq_refl) as [Hz1 Hz2].
    destruct (ended install) as [msg|[[| |]|]]; cbn [fst snd]; try (split; [reflexivity|now split]).
    split; [reflexivity|]. now rewrite spawns_console_log, fs_console_log. }
  set (x := emit (Spawn "which" ["tsc-alias"]) (emit (Spawn "which" ["tsc"]) s)) in *.
  assert (Hx : fs x = fs s
               /\ spawns x = spawns s ++ [Spawn "which" ["tsc"]; Spawn "which" ["tsc-alias"]]).
  { unfold x. split; [reflexivity|]. rewrite !spawns_emit, <- app_assoc. reflexivity. }
  destruct Hx as [Hx1 Hx2]. specialize (Hfin x Hx1 Hx2). cbv zeta in Hfin.
  destruct missing as [|m ms] eqn:Em.
  - cbn [length Nat.eqb] in Hres. rewrite Hres. cbn [fst snd ret]. auto.
  - cbn [length Nat.eqb] in Hres. unfold act, mbind, M_bind, bind in Hres.
    rewrite Hres. clear Hres.
    destruct Hfin as (F1 & F2 & F3).
    destruct (installDeps (m :: ms) _) as [z [[]|e]]; unfold ret; cbn [fst snd] in *;
      (split; [|now split]);
      destruct (ended install) as [msg|[[| |]|]]; congruence.
Qed.

(** [checkDependencies] never answers [false]. *)
Lemma checkDependencies_true s b : snd (checkDependencies s) = Ok b -> b = true.
Proof.
  unfold checkDependencies, mbind, M_bind, bind, commandExists.
  match goal with |- context [if ?c then _ else _] => destruct c end; [now intros [= <-]|].
  unfold act, installDeps, mbind, M_bind, bind, act.
  destruct (ended _) as [msg|[[| |]|]]; cbn; congruence.
Qed.

(** X16.  The exit codes of [main].  [process.exit] is called at most once:
    with 1 when the dependency check rejects, when [parseArgs] throws or
    when [build] rejects; with 0 when [parseArgs] prints the help, which
    it gets to do only after the dependency check has succeeded.  When
    [build] resolves, [main] does not exit the process. *)
Theorem main_exits_with_1_on_failure_and_0_for_help (argv : list string) (s : State) :
  let started := console_log "📦 Initializing..."
                   (console_log "------------- bldr -------------" s) in
  let checked := checkDependencies started in
  exits (main argv s)
  = exits s ++
    match snd checked, fst (CLI.parseArgs argv) with
    | Err _, _ => [1%Z]
    | Ok _, CLI.Thrown _ => [1%Z]
    | Ok _, CLI.Exited _ => [0%Z]
    | Ok _, CLI.Returned args =>
        match snd (build args (fst checked)) with
        | Ok _ => []
        | Err _ => [1%Z]
        end
    end.
Proof.
  intros started checked. unfold main. fold started. fold checked.
  assert (Hs : exits started = exits s)
    by (unfold started; now rewrite !exits_console_log).
  pose proof (stays_checkDependencies started) as Hc. fold checked in Hc.
  pose proof (checkDependencies_true started) as Htrue. fold checked in Htrue.
  assert (Hrej : forall e x, exits (on_rejection e x) = exits x ++ [1%Z]).
  { intros e x. unfold on_rejection.
    change (exits (set_phase ?p ?y)) with (exits y).
    now rewrite exits_emit, exits_console_error. }
  destruct checked as [s1 [depsOk|e]]; cbn [fst snd] in *.
  2:{ now rewrite Hrej, Hc, Hs. }
  rewrite (Htrue depsOk eq_refl). cbn [negb].
  pose proof (CLI.parse_loop_well_ended argv (CLI.mkArgs false None) [] eq_refl I) as Hp.
  fold (CLI.parseArgs argv) in Hp. unfold CLI.well_ended in Hp.
  destruct (CLI.parseArgs argv) as [[args|msg|code] out]; cbn [fst snd] in Hp |- *.
  - destruct Hp as [-> _]. cbn [fold_left].
    pose proof (stays_build args s1) as Hb.
    destruct (build args s1) as [s2 [[]|e]]; cbn [fst snd] in *.
    + now rewrite app_nil_r, Hb, Hc, Hs.
    + now rewrite Hrej, Hb, Hc, Hs.
  - destruct Hp as [_ ->]. cbn [fold_left]. now rewrite Hrej, Hc, Hs.
  - destruct Hp as [-> ->]. cbn [fold_left].
    change (exits (set_phase ?p ?y)) with (exits y).
    now rewrite exits_emit, exits_console_log, Hc, Hs.
Qed.

End BuildMore.

(** A project on which both tools succeed: the compiler writes one file. *)
Definition good_exec (cmd : string) (args : list string) (files : gset string) : ProcRun :=
  if String.eqb cmd "tsc" then mkRun (ExitedWith (Some 0%Z)) "" ({[ "/repo/dist/a.js" ]} ∪ files)
  else mkRun (ExitedWith (Some 0%Z)) "" files.

Lemma oneshot_build_witness :
  let result := build "/repo" trim_ascii (fun _ => None) (fun _ _ => false) good_exec
                      (fun _ => Ok "/repo/tsconfig.json") (fun _ => Ok demo_config)
                      (CLI.mkArgs false None) (init demo_files) in
  snd result = Ok tt
  /\ spawns (fst result) = [Spawn "tsc" ["-p"; "/repo/tsconfig.json"; "--pretty"];
                            Spawn "tsc-alias" ["-p"; "/repo/tsconfig.json"]]
  /\ fs (fst result) = {[ "/repo/dist/a.js" ]} ∪ Fs.rm "/repo/dist" demo_files
  /\ last (trace (fst result)) = Some (Stdout "✅ Build completed successfully!").
Proof.
  exact (oneshot_build "/repo" trim_ascii (fun _ => None) (fun _ _ => false) good_exec
           (fun _ => Ok "/repo/tsconfig.json") (fun _ => Ok demo_config)
           (CLI.mkArgs false None) demo_files
           "/repo/tsconfig.json" "/repo/src" "/repo/dist" eq_refl eq_refl eq_refl).
Defined.

Lemma build_stops_when_cleaning_fails_witness :
  let result := build "/repo" trim_ascii (fun _ => Some "EPERM")
                      (fun _ q => String.eqb q "/repo/dist/a.js") good_exec
                      (fun _ => Ok "/repo/tsconfig.json") (fun _ => Ok demo_config)
                      (CLI.mkArgs true None) (init demo_files) in
  let s := fst result in
  snd result = Err "EPERM"
  /\ spawns s = []
  /\ tsc s = None /\ alias s = None /\ watcher s = false
  /\ ui s = true /\ routed s = true
  /\ fs s ⊆ demo_files
  /\ (forall q, q ∈ demo_files -> Fs.within "/repo/dist" q = false -> q ∈ fs s).
Proof.
  apply (build_stops_when_cleaning_fails "/repo" trim_ascii (fun _ => Some "EPERM")
           (fun _ q => String.eqb q "/repo/dist/a.js") good_exec
           (fun _ => Ok "/repo/tsconfig.json") (fun _ => Ok demo_config)
           (CLI.mkArgs true None) demo_files
           "/repo/tsconfig.json" "/repo/src" "/repo/dist" "EPERM");
    [reflexivity|reflexivity|discriminate].
Defined.


(** ** More about the shutdown *)

(** The events on which the orchestrator starts to shut down: a signal, an
    exit key, a child that exits with a code other than 0. *)
Definition is_trigger (ev : Event) : bool :=
  match ev with
  | Signal | ExitKey => true
  | ChildExit _ (Some c) => negb (Z.eqb c 0)
  | _ => false
  end.

Lemma handle_no_trigger ev s :
  is_trigger ev = false ->
  inProgress s = false -> phase s = Idle -> exitScheduled s = false ->
  let s' := handle ev s in
  inProgress s' = false /\ phase s' = Idle /\ exitScheduled s' = false
  /\ teardown s' = teardown s /\ ui s' = ui s /\ watcher s' = watcher s.
Proof.
  intros Hev Hi Hp Hx. unfold handle. rewrite Hp.
  destruct ev as [| |who text|who code|error|who|who error|]; try discriminate Hev.
  - destruct (piped s && ui s && CLI.truthy text); [|cbn; auto 10].
    rewrite teardown_emit_none by reflexivity. cbn. auto 10.
  - destruct (child who s) as [c|] eqn:Hc; [|cbn; auto 10].
    destruct (exited c); [cbn; auto 10|].
    unfold waiting_for. rewrite Hp.
    assert (Hset : forall c', let x := set_child who c' s in
               inProgress x = false /\ phase x = Idle /\ exitScheduled x = false
               /\ teardown x = teardown s /\ ui x = ui s /\ watcher x = watcher s).
    { intros c'. destruct who; cbn; auto 10. }
    specialize (Hset (Some (mkChild true (killed c)))). cbv zeta in Hset |- *.
    set (x := set_child who _ s) in *.
    destruct (piped x) eqn:Epi; [|exact Hset].
    unfold on_exit_piped. destruct code as [z|]; [|exact Hset].
    cbn in Hev. apply negb_false_iff in Hev. rewrite Hev. exact Hset.
  - cbn; auto 10.
  - unfold waiting_for. rewrite Hp. cbn; auto 10.
  - destruct (piped s && ui s); [|cbn; auto 10].
    rewrite teardown_emit_none by reflexivity. cbn. auto 10.
  - unfold scheduled_exit. rewrite Hx. cbn; auto 10.
Qed.

(** X17.  Only three things start a shutdown: a termination signal, an exit
    key, a child that exits with a code other than 0.  Whatever else
    happens (output or an [error] event of a child, a child that exits with
    code 0 or is killed by a signal, a stray timer or watcher event), no
    teardown step is taken: the flag stays down, no exit is scheduled, the
    display and the watcher stay up. *)
Theorem watch_goes_on_until_triggered (evs : list Event) (s : State) :
  inProgress s = false -> phase s = Idle -> exitScheduled s = false ->
  forallb (fun ev => negb (is_trigger ev)) evs = true ->
  let s' := run_events evs s in
  inProgress s' = false /\ phase s' = Idle /\ exitScheduled s' = false
  /\ teardown s' = teardown s /\ ui s' = ui s /\ watcher s' = watcher s.
Proof.
  revert s. induction evs as [|ev evs IH]; intros s Hi Hp Hx Hev; [cbn; auto 10|].
  cbn [forallb] in Hev. apply andb_true_iff in Hev as [Hev Hrest].
  apply negb_true_iff in Hev.
  destruct (handle_no_trigger ev s Hev Hi Hp Hx) as (H1 & H2 & H3 & H4 & H5 & H6).
  cbn [run_events fold_left]. fold (run_events evs (handle ev s)).
  destruct (IH (handle ev s) H1 H2 H3 Hrest) as (G1 & G2 & G3 & G4 & G5 & G6).
  cbv zeta. rewrite G4, G5, G6. auto 10.
Qed.


(** ** The exit code *)

Definition pending_code (s : State) : option Z :=
  match phase s with
  | Idle => None
  | ClosingWatcher c | Killing c _ _ | Gone c => Some c
  end.

Definition is_exit (e : Effect) : bool :=
  match e with ProcessExit _ => true | _ => false end.

(** Every code with which the process has exited, or with which a shutdown
    under way is going to exit, satisfies [P]. *)
Definition codes (P : Z -> Prop) (s : State) : Prop :=
  (forall c, In (ProcessExit c) (trace s) -> P c)
  /\ (forall c, pending_code s = Some c -> P c).

Lemma codes_emit P e s : is_exit e = false -> codes P s -> codes P (emit e s).
Proof.
  intros He [Ht Hp]. split; [|exact Hp].
  intros c Hc. cbn [emit trace] in Hc. apply in_app_or in Hc as [Hc|[Hc|[]]]; [auto|].
  subst e. discriminate He.
Qed.

Lemma codes_console_log P t s : codes P s -> codes P (console_log t s).
Proof. intros H. unfold console_log. destruct (routed s), (ui s); now apply codes_emit. Qed.

Lemma codes_console_error P t s : codes P s -> codes P (console_error t s).
Proof. intros H. unfold console_error. destruct (routed s), (ui s); now apply codes_emit. Qed.

Lemma codes_kill P who sig s : codes P s -> codes P (kill who sig s).
Proof.
  intros H. unfold kill. destruct (child who s) as [c|]; [|assumption].
  destruct (exited c); [now apply codes_emit|].
  assert (H' : codes P (emit (Kill who sig true) s)) by now apply codes_emit.
  now destruct who.
Qed.

Lemma codes_killProcess P who s : codes P s -> codes P (killProcess who s).1.
Proof.
  intros H. unfold killProcess. destruct (child who s) as [c|]; [|assumption].
  destruct (killed c); [assumption|]. cbn [fst].
  now apply codes_kill, codes_console_log.
Qed.

(** The code of the phase may be replaced by one that satisfies [P]. *)
Lemma codes_set_phase P p s :
  (forall c, pending_code (set_phase p s) = Some c -> P c) ->
  codes P s -> codes P (set_phase p s).
Proof. intros Hp [Ht _]. split; [exact Ht|exact Hp]. Qed.

Lemma codes_finish P code s : P code -> codes P s -> codes P (finish code s).
Proof.
  intros Hc H. unfold finish.
  pose proof (codes_console_log P "✅ All processes cleaned up" s H) as [Ht _].
  split.
  - intros c Hin. cbn [set_phase emit trace] in Hin.
    apply in_app_or in Hin as [Hin|[[= <-]|[]]]; auto.
  - intros c [= <-]. exact Hc.
Qed.

Lemma codes_after_watcher P code s : P code -> codes P s -> codes P (after_watcher code s).
Proof.
  intros Hc H. unfold after_watcher.
  pose proof (codes_killProcess P Tsc s H) as H1.
  destruct (killProcess Tsc s) as [s1 w1]. cbn [fst] in H1.
  pose proof (codes_killProcess P Alias s1 H1) as H2.
  destruct (killProcess Alias s1) as [s2 w2]. cbn [fst] in H2.
  destruct (w1 || w2); [|now apply codes_finish].
  apply codes_set_phase; [|exact H2]. now intros c [= <-].
Qed.

Lemma codes_shutdown P code s : P code -> codes P s -> codes P (shutdown code s).
Proof.
  intros Hc H. unfold shutdown. destruct (inProgress s); [assumption|].
  set (s1 := emit FlagSet (set_inProgress true s)).
  assert (H1 : codes P s1) by (apply codes_emit; [reflexivity|exact H]).
  set (s2 := if ui s1 then set_ui false (emit UiDestroyed s1) else s1).
  assert (H2 : codes P s2).
  { unfold s2. destruct (ui s1); [|assumption].
    change (codes P (set_ui false ?x)) with (codes P x). now apply codes_emit. }
  set (s3 := console_log _ s2).
  assert (H3 : codes P s3) by now apply codes_console_log.
  destruct (watcher s3).
  - apply codes_set_phase; [now intros c [= <-]|]. now apply codes_emit.
  - now apply codes_after_watcher, codes_console_log.
Qed.

Lemma codes_resolve_wait P who s : codes P s -> codes P (resolve_wait who s).
Proof.
  intros H. unfold resolve_wait. destruct (phase s) as [|c|c wt wa|c] eqn:E; try assumption.
  assert (Hc : P c) by (apply (proj2 H); unfold pending_code; now rewrite E).
  match goal with |- codes P (if ?b then _ else _) => destruct b end;
    [|now apply codes_finish].
  apply codes_set_phase; [|exact H]. now intros c' [= <-].
Qed.

Lemma codes_on_exit_piped P who code s :
  (forall c, code = Some c -> c <> 0%Z -> P c) ->
  codes P s -> codes P (on_exit_piped who code s).
Proof.
  intros Hc H. unfold on_exit_piped. destruct code as [z|]; [|assumption].
  destruct (Z.eqb z 0) eqn:E; [assumption|]. apply Z.eqb_neq in E.
  apply codes_shutdown; [now apply Hc|now apply codes_console_error].
Qed.

Lemma codes_on_signal P s : P 0%Z -> codes P s -> codes P (on_signal s).
Proof.
  intros H0 H. unfold on_signal.
  pose proof (codes_shutdown P 0 s H0 H) as H'.
  destruct (ui s && negb (ui (shutdown 0 s))); exact H'.
Qed.

Lemma codes_scheduled_exit P s : P 0%Z -> codes P s -> codes P (scheduled_exit s).
Proof.
  intros H0 [Ht Hp]. unfold scheduled_exit. destruct (exitScheduled s); [|now split].
  split.
  - intros c Hin. cbn [set_phase emit trace] in Hin.
    apply in_app_or in Hin as [Hin|[[= <-]|[]]]; auto.
  - intros c [= <-]. exact H0.
Qed.

Lemma codes_handle P ev s :
  P 0%Z ->
  (forall who c, ev = ChildExit who (Some c) -> c <> 0%Z -> P c) ->
  codes P s -> codes P (handle ev s).
Proof.
  intros H0 Hev H. unfold handle.
  destruct ev as [| |who text|who code|error|who|who error|].
  - destruct (phase s); try assumption; now apply codes_on_signal.
  - destruct (phase s); try assumption;
      (destruct (ui s); [now apply codes_shutdown|assumption]).
  - destruct (phase s); try assumption;
      (destruct (piped s && ui s && CLI.truthy text); [now apply codes_emit|assumption]).
  - assert (Hc : forall c, code = Some c -> c <> 0%Z -> P c)
      by (intros c ->; now apply (Hev who)).
    destruct (phase s) eqn:Eph; try assumption;
      (destruct (child who s) as [c|]; [|assumption];
       destruct (exited c); [assumption|];
       match goal with
       | |- context [if piped ?x then _ else _] =>
           assert (Hx : codes P (if piped x then on_exit_piped who code x else x))
             by (assert (Hc' : codes P x) by (destruct who; exact H);
                 destruct (piped x); [now apply codes_on_exit_piped|exact Hc'])
       end;
       destruct (waiting_for who s); [now apply codes_resolve_wait|assumption]).
  - destruct (phase s) as [|c|c wt wa|c] eqn:E; try assumption.
    assert (Hc : P c) by (apply (proj2 H); unfold pending_code; now rewrite E).
    apply codes_after_watcher; [exact Hc|].
    destruct error; [now apply codes_console_error|now apply codes_console_log].
  - destruct (phase s); try assumption;
      (destruct (waiting_for who s); [|assumption];
       apply codes_resolve_wait;
       destruct (child who s) as [c|]; [|assumption];
       destruct (killed c); [assumption|now apply codes_kill]).
  - destruct (phase s); try assumption;
      (destruct (piped s && ui s); [now apply codes_emit|assumption]).
  - destruct (phase s); try assumption; now apply codes_scheduled_exit.
Qed.

(** X18.  The code with which the orchestrator exits is 0 or the non-zero
    exit code of a child: starting from a state in which no shutdown is
    under way, whatever happens, [process.exit] is only ever called with 0
    or with a non-zero code with which one of the children has exited. *)
Theorem exit_code_is_that_of_a_trigger (evs : list Event) (s : State) (code : Z) :
  phase s = Idle ->
  (forall c, ~ In (ProcessExit c) (trace s)) ->
  In (ProcessExit code) (trace (run_events evs s)) ->
  code = 0%Z \/ (code <> 0%Z /\ exists who, In (ChildExit who (Some code)) evs).
Proof.
  intros Hp Hno.
  set (P := fun c : Z => c = 0%Z \/ (c <> 0%Z /\ exists who, In (ChildExit who (Some c)) evs)).
  assert (G : forall l s0, incl l evs -> codes P s0 -> codes P (run_events l s0)).
  { induction l as [|ev l IH]; intros s0 Hl H0; [exact H0|].
    cbn [run_events fold_left]. apply IH; [intros x Hx; apply Hl; now right|].
    apply codes_handle; [now left| |exact H0].
    intros who c -> Hc. right. split; [exact Hc|]. exists who. apply Hl. now left. }
  intros Hin. apply (proj1 (G evs s (incl_refl _) ltac:(split;
    [intros c Hc; now apply Hno in Hc|unfold pending_code; rewrite Hp; discriminate]))).
  exact Hin.
Qed.


(** ** A watcher that does not close *)

Definition is_watcher_closed (ev : Event) : bool :=
  match ev with WatcherClosed _ => true | _ => false end.

(** Neither a signal to a child nor the exit of the process. *)
Definition harmless (e : Effect) : bool := negb (is_kill e) && negb (is_exit e).

(** The watcher is there, no child was sent a signal, and the process has
    not exited other than with code 0 and under the condition [Q]. *)
Definition held (Q : Prop) (s : State) : Prop :=
  watcher s = true
  /\ kills s = []
  /\ forall c, In (ProcessExit c) (trace s) -> c = 0%Z /\ Q.

Lemma held_emit Q e s : harmless e = true -> held Q s -> held Q (emit e s).
Proof.
  intros He (Hw & Hk & Hx). apply andb_true_iff in He as [He1 He2].
  apply negb_true_iff in He1, He2. split; [exact Hw|]. split.
  - unfold kills. cbn [emit trace]. rewrite List.filter_app. cbn [List.filter].
    rewrite He1, app_nil_r. exact Hk.
  - intros c Hin. cbn [emit trace] in Hin.
    apply in_app_or in Hin as [Hin|[Hin|[]]]; [now apply Hx|].
    subst e. discriminate He2.
Qed.

Lemma held_console_log Q t s : held Q s -> held Q (console_log t s).
Proof. intros H. unfold console_log. destruct (routed s), (ui s); now apply held_emit. Qed.

Lemma held_console_error Q t s : held Q s -> held Q (console_error t s).
Proof. intros H. unfold console_error. destruct (routed s), (ui s); now apply held_emit. Qed.

(** With the watcher there, [shutdown] gets as far as closing it. *)
Lemma held_shutdown Q code s :
  held Q s ->
  held Q (shutdown code s)
  /\ (phase (shutdown code s) = phase s \/ phase (shutdown code s) = ClosingWatcher code).
Proof.
  intros H. unfold shutdown. destruct (inProgress s); [auto|].
  set (s1 := emit FlagSet (set_inProgress true s)).
  assert (H1 : held Q s1) by (apply held_emit; [reflexivity|exact H]).
  set (s2 := if ui s1 then set_ui false (emit UiDestroyed s1) else s1).
  assert (H2 : held Q s2).
  { unfold s2. destruct (ui s1); [|assumption].
    change (held Q (set_ui false ?x)) with (held Q x). now apply held_emit. }
  set (s3 := console_log _ s2).
  assert (H3 : held Q s3) by now apply held_console_log.
  rewrite (proj1 H3). split; [|now right].
  change (held Q (set_phase ?p ?x)) with (held Q x). now apply held_emit.
Qed.

(** The phases in which no child has been dealt with yet, and the end. *)
Definition before_kills (p : Phase) : Prop :=
  match p with Killing _ _ _ => False | _ => True end.

Lemma held_handle Q ev s :
  is_watcher_closed ev = false ->
  (ev = ScheduledExit -> Q) ->
  held Q s -> before_kills (phase s) ->
  held Q (handle ev s) /\ before_kills (phase (handle ev s)).
Proof.
  intros Hev HQ H Hp.
  assert (Hsh : forall code x, held Q x -> before_kills (phase x) ->
                  held Q (shutdown code x) /\ before_kills (phase (shutdown code x))).
  { intros code x Hx Hpx. destruct (held_shutdown Q code x Hx) as [Hh [E|E]];
      rewrite E; [auto|]. split; [exact Hh|exact I]. }
  assert (Hnw : forall who, waiting_for who s = false).
  { intros who. unfold waiting_for. destruct (phase s); try reflexivity. destruct Hp. }
  unfold handle. destruct ev as [| |who text|who code|error|who|who error|];
    try discriminate Hev.
  - destruct (phase s) eqn:E; try (destruct Hp); try (now rewrite E);
      (unfold on_signal;
       assert (Hs : held Q (shutdown 0 s) /\ before_kills (phase (shutdown 0 s)))
         by (apply Hsh; [exact H|now rewrite E]);
       destruct (ui s && negb (ui (shutdown 0 s))); exact Hs).
  - destruct (phase s) eqn:E; try (destruct Hp); try (now rewrite E);
      (destruct (ui s); [apply Hsh; try assumption; now rewrite E|now rewrite E]).
  - destruct (phase s) eqn:E; try (destruct Hp); try (now rewrite E);
      (destruct (piped s && ui s && CLI.truthy text);
       [split; [now apply held_emit|cbn [emit phase]; now rewrite E]|now rewrite E]).
  - rewrite Hnw.
    destruct (phase s) eqn:E; try (destruct Hp); try (now rewrite E);
      (destruct (child who s) as [c|]; [|now rewrite E];
       destruct (exited c); [now rewrite E|];
       set (x := set_child who _ s);
       assert (Hx : held Q x /\ before_kills (phase x))
         by (unfold x; destruct who; cbn [set_child];
             (split; [exact H|cbn [phase]; now rewrite E]));
       destruct (piped x); [|exact Hx];
       unfold on_exit_piped; destruct code as [z|]; [|exact Hx];
       destruct (Z.eqb z 0); [exact Hx|];
       apply Hsh; [now apply held_console_error|];
       rewrite phase_console_error; apply Hx).
  - rewrite Hnw. destruct (phase s) eqn:E; try (destruct Hp); now rewrite E.
  - destruct (phase s) eqn:E; try (destruct Hp); try (now rewrite E);
      (destruct (piped s && ui s);
       [split; [now apply held_emit|cbn [emit phase]; now rewrite E]|now rewrite E]).
  - destruct (phase s) eqn:E; try (destruct Hp); try (now rewrite E);
      (unfold scheduled_exit; destruct (exitScheduled s); [|now rewrite E];
       split; [|exact I];
       destruct H as (Hw & Hk & Hx); split; [exact Hw|]; split;
       [unfold kills; cbn [set_phase emit trace]; rewrite List.filter_app;
        cbn [List.filter is_kill]; rewrite app_nil_r; exact Hk
       |intros c Hin; cbn [set_phase emit trace] in Hin;
        apply in_app_or in Hin as [Hin|[[= <-]|[]]];
        [now apply Hx|split; [reflexivity|now apply HQ]]]).
Qed.

(** X19.  The watcher is closed without a time limit.  As long as
    [watcher.close()] has not settled, whatever else happens (signals, exit
    keys, children exiting, timers), no child is sent any signal.  The
    process does not exit either, unless the exit that the display library
    schedules on a termination signal has run: then it has left with code
    0, and with both children never signalled. *)
Theorem children_outlive_a_hanging_watcher (evs : list Event) (s : State) :
  watcher s = true -> phase s = Idle ->
  kills s = [] -> (forall c, ~ In (ProcessExit c) (trace s)) ->
  forallb (fun ev => negb (is_watcher_closed ev)) evs = true ->
  let s' := run_events evs s in
  kills s' = []
  /\ (forall c, In (ProcessExit c) (trace s') -> c = 0%Z /\ In ScheduledExit evs).
Proof.
  intros Hw Hp Hk Hx Hev s'.
  set (Q := In ScheduledExit evs).
  assert (H : held Q s).
  { split; [exact Hw|]. split; [exact Hk|]. intros c Hc. now apply Hx in Hc. }
  assert (G : forall l x, incl l evs -> held Q x -> before_kills (phase x) ->
                held Q (run_events l x)).
  { induction l as [|ev l IH]; intros x Hl Hh Hb; [exact Hh|].
    cbn [run_events fold_left].
    assert (Hin : In ev evs) by (apply Hl; now left).
    destruct (held_handle Q ev x) as [H1 H2]; try assumption.
    - rewrite forallb_forall in Hev. apply Hev in Hin. now apply negb_true_iff in Hin.
    - intros ->. exact Hin.
    - apply IH; [intros y Hy; apply Hl; now right|exact H1|exact H2]. }
  destruct (G evs s (incl_refl _) H ltac:(now rewrite Hp)) as (_ & Hk' & Hx').
  split; [exact Hk'|exact Hx'].
Qed.

(** ** The exit that the display library schedules *)

(** The flag, the code of the shutdown under way, and whether an exit is
    scheduled. *)
Definition course (s : State) : bool * option Z * bool :=
  (inProgress s, pending_code s, exitScheduled s).

Lemma course_console_log t s : course (console_log t s) = course s.
Proof. unfold console_log. now destruct (routed s), (ui s). Qed.

Lemma course_console_error t s : course (console_error t s) = course s.
Proof. unfold console_error. now destruct (routed s), (ui s). Qed.

Lemma course_kill who sig s : course (kill who sig s) = course s.
Proof.
  unfold kill. destruct (child who s) as [c|]; [|reflexivity].
  destruct (exited c); [reflexivity|now destruct who].
Qed.

Lemma course_killProcess who s : course (killProcess who s).1 = course s.
Proof.
  unfold killProcess. destruct (child who s) as [c|]; [|reflexivity].
  destruct (killed c); [reflexivity|]. cbn [fst].
  now rewrite course_kill, course_console_log.
Qed.

Lemma course_finish code s :
  course (finish code s) = (inProgress s, Some code, exitScheduled s).
Proof.
  pose proof (course_console_log "✅ All processes cleaned up" s) as E.
  unfold course in E. injection E as E1 _ E3.
  unfold finish, course, pending_code. cbn [set_phase phase].
  change (inProgress (set_phase ?p (emit ?e ?x))) with (inProgress x).
  change (exitScheduled (set_phase ?p (emit ?e ?x))) with (exitScheduled x).
  now rewrite E1, E3.
Qed.

Lemma course_after_watcher code s :
  course (after_watcher code s) = (inProgress s, Some code, exitScheduled s).
Proof.
  unfold after_watcher.
  pose proof (course_killProcess Tsc s) as E1.
  destruct (killProcess Tsc s) as [s1 w1]. cbn [fst] in E1.
  pose proof (course_killProcess Alias s1) as E2.
  destruct (killProcess Alias s1) as [s2 w2]. cbn [fst] in E2.
  rewrite E1 in E2. unfold course in E2. injection E2 as F1 _ F3.
  destruct (w1 || w2); [|now rewrite course_finish, F1, F3].
  unfold course, pending_code. cbn [set_phase phase].
  change (inProgress (set_phase ?p ?x)) with (inProgress x).
  change (exitScheduled (set_phase ?p ?x)) with (exitScheduled x).
  now rewrite F1, F3.
Qed.

Lemma course_shutdown code s :
  course (shutdown code s)
  = if inProgress s then course s else (true, Some code, exitScheduled s).
Proof.
  unfold shutdown. destruct (inProgress s) eqn:Hi; [reflexivity|].
  set (s1 := emit FlagSet (set_inProgress true s)).
  set (s2 := if ui s1 then set_ui false (emit UiDestroyed s1) else s1).
  assert (H2 : inProgress s2 = true /\ exitScheduled s2 = exitScheduled s).
  { unfold s2. now destruct (ui s1). }
  destruct H2 as [H2 H2'].
  set (s3 := console_log _ s2).
  pose proof (course_console_log "
⏳ Shutting down..." s2) as E. fold s3 in E. unfold course in E.
  injection E as E1 _ E3.
  destruct (watcher s3).
  - unfold course, pending_code. cbn [set_phase phase].
    change (inProgress (set_phase ?p (emit ?e ?x))) with (inProgress x).
    change (exitScheduled (set_phase ?p (emit ?e ?x))) with (exitScheduled x).
    now rewrite E1, E3, H2, H2'.
  - rewrite course_after_watcher.
    pose proof (course_console_log "✅ Src watcher closed" s3) as E. unfold course in E.
    injection E as F1 _ F3. now rewrite F1, F3, E1, E3, H2, H2'.
Qed.

Lemma course_resolve_wait who s : course (resolve_wait who s) = course s.
Proof.
  unfold resolve_wait. destruct (phase s) as [|c|c wt wa|c] eqn:E; try reflexivity.
  match goal with |- course (if ?b then _ else _) = _ => destruct b end.
  - unfold course, pending_code. cbn [set_phase phase]. now rewrite E.
  - rewrite course_finish. unfold course, pending_code. now rewrite E.
Qed.

(** An exit is scheduled only with a shutdown under way, whose code is 0. *)
Definition scheduled_ok (s : State) : Prop :=
  exitScheduled s = true -> inProgress s = true /\ pending_code s = Some 0%Z.

Lemma scheduled_ok_course s x : course x = course s -> scheduled_ok s -> scheduled_ok x.
Proof. unfold course, scheduled_ok. intros [= -> -> ->]. trivial. Qed.

Lemma scheduled_ok_shutdown code s : scheduled_ok s -> scheduled_ok (shutdown code s).
Proof.
  intros H. pose proof (course_shutdown code s) as E.
  destruct (inProgress s) eqn:Hi; [now apply (scheduled_ok_course s)|].
  unfold course in E. injection E as E1 E2 E3.
  intros Hx. rewrite E3 in Hx. destruct (H Hx) as [Hi' _]. congruence.
Qed.

Lemma scheduled_ok_on_signal s : scheduled_ok s -> scheduled_ok (on_signal s).
Proof.
  intros H. unfold on_signal.
  pose proof (scheduled_ok_shutdown 0 s H) as H1.
  pose proof (course_shutdown 0 s) as E.
  destruct (ui s && negb (ui (shutdown 0 s))) eqn:Hc; [|exact H1].
  destruct (inProgress s) eqn:Hi.
  - unfold shutdown in Hc. rewrite Hi in Hc. now destruct (ui s).
  - unfold course in E. injection E as E1 E2 _. intros _. now split.
Qed.

Lemma scheduled_ok_on_exit_piped who code s :
  scheduled_ok s -> scheduled_ok (on_exit_piped who code s).
Proof.
  intros H. unfold on_exit_piped. destruct code as [z|]; [|exact H].
  destruct (Z.eqb z 0); [exact H|].
  apply scheduled_ok_shutdown. revert H. apply scheduled_ok_course, course_console_error.
Qed.

Lemma scheduled_ok_handle ev s : scheduled_ok s -> scheduled_ok (handle ev s).
Proof.
  intros H. unfold handle.
  destruct (phase s) as [|c0|c0 wt wa|c0] eqn:Hph; try exact H;
    destruct ev as [| |who text|who code|error|who|who error|];
    try exact H;
    try (now apply scheduled_ok_on_signal);
    (* an exit key *)
    try (destruct (ui s); [now apply scheduled_ok_shutdown|exact H]);
    (* output and errors of a child *)
    try (match goal with |- scheduled_ok (if ?b then emit _ _ else _) => destruct b end;
         [now apply (scheduled_ok_course s)|exact H]);
    (* the exit of a child *)
    try (destruct (child who s) as [c|]; [|exact H];
         destruct (exited c); [exact H|];
         match goal with
         | |- context [if piped ?x then _ else _] =>
             assert (Hx : scheduled_ok (if piped x then on_exit_piped who code x else x))
               by (assert (Hc : scheduled_ok x)
                     by (revert H; apply scheduled_ok_course; now destruct who);
                   destruct (piped x); [now apply scheduled_ok_on_exit_piped|exact Hc])
         end;
         destruct (waiting_for who s); [|exact Hx];
         revert Hx; apply scheduled_ok_course, course_resolve_wait);
    (* a timer *)
    try (destruct (waiting_for who s); [|exact H];
         apply (scheduled_ok_course s); [|exact H];
         rewrite course_resolve_wait;
         destruct (child who s) as [c|]; [|reflexivity];
         destruct (killed c); [reflexivity|apply course_kill]);
    (* the scheduled exit *)
    try (unfold scheduled_exit; destruct (exitScheduled s) eqn:Hx; [|exact H];
         intros _; destruct (H Hx) as [Hi _]; now split).
  (* the watcher has closed *)
  assert (Hc : course (after_watcher c0
                 match error with
                 | Some e => console_error ("❌ Error closing src watcher: " +:+ e) s
                 | None => console_log "✅ Src watcher closed" s
                 end) = course s).
  { rewrite course_after_watcher.
    assert (E : course match error with
                | Some e => console_error ("❌ Error closing src watcher: " +:+ e) s
                | None => console_log "✅ Src watcher closed" s
                end = course s)
      by (destruct error; [apply course_console_error|apply course_console_log]).
    unfold course in E |- *. injection E as E1 _ E3. rewrite E1, E3.
    unfold pending_code. now rewrite Hph. }
  revert H. now apply scheduled_ok_course.
Qed.

(** An exit that the display library has scheduled belongs to a shutdown
    that a termination signal has started: whatever happens, it is only
    ever there with the flag up and the exit code 0. *)
Lemma scheduled_exit_has_code_0 (evs : list Event) (s : State) :
  exitScheduled s = false ->
  let s' := run_events evs s in
  exitScheduled s' = true -> inProgress s' = true /\ pending_code s' = Some 0%Z.
Proof.
  intros Hx. assert (H : scheduled_ok s) by (intros E; congruence).
  clear Hx. revert s H. induction evs as [|ev evs IH]; intros s H; [exact H|].
  cbn [run_events fold_left]. apply IH. now apply scheduled_ok_handle.
Qed.

(** ** The wait for the children is bounded *)

(** A shutdown with exit code [code] has reached the wait for the children,
    or it is over and the exit of the process was the last thing done.  An
    exit scheduled by the display library belongs to a shutdown started by
    a signal, whose code is 0. *)
Definition winding_down (code : Z) (s : State) : Prop :=
  inProgress s = true
  /\ (exitScheduled s = true -> code = 0%Z)
  /\ ((phase s = Gone code /\ last (trace s) = Some (ProcessExit code))
      \/ exists wt wa, phase s = Killing code wt wa /\ wt || wa = true).

Lemma winding_down_finish code s :
  inProgress s = true -> (exitScheduled s = true -> code = 0%Z) ->
  winding_down code (finish code s).
Proof.
  intros Hi Hx. split; [|split].
  - unfold finish.
    change (inProgress (set_phase ?p (emit ?e ?x))) with (inProgress x).
    now rewrite inProgress_console_log.
  - unfold finish.
    change (exitScheduled (set_phase ?p (emit ?e ?x))) with (exitScheduled x).
    unfold console_log. now destruct (routed s), (ui s).
  - left. split; [reflexivity|]. unfold finish. cbn [set_phase emit trace]. apply last_snoc.
Qed.

Lemma winding_down_killing code s x wt wa :
  phase s = Killing code wt wa -> wt || wa = true ->
  inProgress x = true -> (exitScheduled x = true -> code = 0%Z) ->
  phase x = phase s -> winding_down code x.
Proof.
  intros Hp Hw Hi Hx E. split; [exact Hi|]. split; [exact Hx|].
  right. exists wt, wa. now rewrite E.
Qed.

Lemma waiting_for_ext who s x : phase x = phase s -> waiting_for who x = waiting_for who s.
Proof. unfold waiting_for. now intros ->. Qed.

Lemma killing_resolve_wait code who s wt wa :
  inProgress s = true -> (exitScheduled s = true -> code = 0%Z) ->
  phase s = Killing code wt wa -> wt || wa = true ->
  winding_down code (resolve_wait who s)
  /\ waiting_for who (resolve_wait who s) = false
  /\ forall other, waiting_for other (resolve_wait who s) = true -> waiting_for other s = true.
Proof.
  intros Hi Hx Hp Hw. unfold resolve_wait. rewrite Hp.
  assert (Hfin : waiting_for who (finish code s) = false
                 /\ forall other, waiting_for other (finish code s) = true ->
                                  waiting_for other s = true).
  { unfold waiting_for, finish. cbn [set_phase phase]. split; [reflexivity|discriminate]. }
  destruct who, wt, wa; cbn [orb] in *; try discriminate Hw;
    try (split; [now apply winding_down_finish|exact Hfin]);
    (split; [split; [exact Hi|split; [exact Hx|right; eexists _, _;
                                               split; [reflexivity|reflexivity]]]|];
     unfold waiting_for; cbn [set_phase phase]; rewrite Hp;
     split; [reflexivity|intros []; auto]).
Qed.

(** One event during the wait: the shutdown is still winding down, no new
    wait appears, and a timer that fires ends the wait it belongs to. *)
Lemma winding_down_handle code ev s :
  winding_down code s ->
  winding_down code (handle ev s)
  /\ forall who, waiting_for who (handle ev s) = true ->
                 waiting_for who s = true /\ ev <> KillTimeout who.
Proof.
  intros H. pose proof H as (Hi & Hx & [[Hph _]|(wt & wa & Hph & Hw)]).
  { unfold handle. rewrite Hph. split; [exact H|].
    intros who Hwait. unfold waiting_for in Hwait. rewrite Hph in Hwait. discriminate Hwait. }
  assert (Hsame : forall x, inProgress x = inProgress s ->
            exitScheduled x = exitScheduled s -> phase x = phase s ->
            forall e, e <> KillTimeout Tsc -> e <> KillTimeout Alias ->
            winding_down code x
            /\ forall who, waiting_for who x = true ->
                           waiting_for who s = true /\ e <> KillTimeout who).
  { intros x E1 E3 E2 e Ht Ha. split.
    - apply (winding_down_killing code s x wt wa); try congruence.
      now rewrite E3.
    - intros who Hwait. rewrite (waiting_for_ext who s x E2) in Hwait.
      split; [exact Hwait|]. now destruct who. }
  assert (Hsh : forall c x, inProgress x = true -> shutdown c x = x).
  { intros c x E. unfold shutdown. now rewrite E. }
  unfold handle. rewrite Hph.
  destruct ev as [| |who text|who code0|error|who|who error|].
  - unfold on_signal. rewrite Hsh by assumption.
    destruct (ui s); cbn [andb negb]; now apply Hsame.
  - destruct (ui s); [rewrite Hsh by assumption|]; now apply Hsame.
  - destruct (piped s && ui s && CLI.truthy text); now apply Hsame.
  - destruct (child who s) as [ch|]; [|now apply Hsame].
    destruct (exited ch); [now apply Hsame|].
    set (x := set_child who _ s).
    assert (Ex : inProgress x = inProgress s /\ phase x = phase s
                 /\ exitScheduled x = exitScheduled s)
      by (unfold x; now destruct who).
    destruct Ex as (Ex1 & Ex2 & Ex3).
    set (y := if piped x then on_exit_piped who code0 x else x).
    assert (Ey : inProgress y = inProgress s /\ phase y = phase s
                 /\ exitScheduled y = exitScheduled s).
    { unfold y. destruct (piped x); [|auto]. unfold on_exit_piped.
      destruct code0 as [z|]; [|auto]. destruct (Z.eqb z 0); [auto|].
      rewrite Hsh by (rewrite inProgress_console_error; congruence).
      rewrite inProgress_console_error, phase_console_error.
      split; [exact Ex1|]. split; [exact Ex2|].
      rewrite <- Ex3. unfold console_error. now destruct (routed x), (ui x). }
    destruct Ey as (Ey1 & Ey2 & Ey3).
    destruct (waiting_for who s) eqn:Ew;
      [|apply Hsame; [assumption|assumption|assumption|discriminate|discriminate]].
    destruct (killing_resolve_wait code who y wt wa) as (R1 & R2 & R3);
      [congruence|now rewrite Ey3|congruence|assumption|].
    split; [exact R1|]. intros other Ho. split; [|discriminate].
    rewrite <- (waiting_for_ext other s y Ey2). now apply R3.
  - now apply Hsame.
  - destruct (waiting_for who s) eqn:Ew.
    + set (x := match child who s with
                | Some c0 => if killed c0 then s else kill who SIGKILL s
                | None => s
                end).
      assert (Ex : inProgress x = inProgress s /\ phase x = phase s
                   /\ exitScheduled x = exitScheduled s).
      { unfold x. destruct (child who s) as [c0|] eqn:Ec; [|auto].
        destruct (killed c0); [auto|].
        destruct (kill_spec who SIGKILL s) as (K1 & K2 & _).
        split; [exact K2|]. split; [exact K1|].
        unfold kill. rewrite Ec. destruct (exited c0); [reflexivity|now destruct who]. }
      destruct Ex as (Ex1 & Ex2 & Ex3).
      destruct (killing_resolve_wait code who x wt wa) as (R1 & R2 & R3);
        [congruence|now rewrite Ex3|congruence|assumption|].
      split; [exact R1|]. intros other Ho. split.
      * rewrite <- (waiting_for_ext other s x Ex2). now apply R3.
      * intros [= <-]. rewrite R2 in Ho. discriminate Ho.
    + split; [exact H|]. intros other Ho. split; [exact Ho|].
      intros [= <-]. rewrite Ew in Ho. discriminate Ho.
  - destruct (piped s && ui s); now apply Hsame.
  - unfold scheduled_exit. destruct (exitScheduled s) eqn:Es;
      [|apply Hsame; [reflexivity|exact Es|reflexivity|discriminate|discriminate]].
    rewrite (Hx eq_refl) in *. split.
    + split; [exact Hi|]. split; [reflexivity|]. left. split; [reflexivity|].
      cbn [set_phase emit trace]. apply last_snoc.
    + intros who Hwait. discriminate Hwait.
Qed.

Lemma winding_down_run code evs : forall s,
  winding_down code s ->
  (forall who, waiting_for who s = true -> In (KillTimeout who) evs) ->
  phase (run_events evs s) = Gone code
  /\ last (trace (run_events evs s)) = Some (ProcessExit code).
Proof.
  induction evs as [|ev evs IH]; intros s H Hall.
  - destruct H as (_ & _ & [H|(wt & wa & Hp & Hw)]); [exact H|].
    assert (Hwho : exists who, waiting_for who s = true).
    { unfold waiting_for. rewrite Hp. destruct wt; [now exists Tsc|].
      destruct wa; [now exists Alias|discriminate Hw]. }
    destruct Hwho as [who Hwho]. destruct (Hall who Hwho).
  - cbn [run_events fold_left]. destruct (winding_down_handle code ev s H) as [H1 H2].
    apply IH; [exact H1|]. intros who Hwho. destruct (H2 who Hwho) as [Hs Hne].
    destruct (Hall who Hs) as [E|Hin]; [congruence|exact Hin].
Qed.

(** X20.  The wait for the children is bounded by the two timers.  Once
    [shutdown] waits for the children, the process exits with the code of
    the shutdown at the latest when both 2000 ms timers have fired,
    whatever else happens before, between and after, and that exit is the
    last thing done.  (An exit scheduled by the display library may come
    first; it goes with a shutdown of code 0, see
    [scheduled_exit_has_code_0], and ends the process with that code.) *)
Theorem shutdown_ends_when_both_timers_fired
    (evs : list Event) (s : State) (code : Z) (wt wa : bool) :
  inProgress s = true ->
  phase s = Killing code wt wa ->
  wt || wa = true ->
  (exitScheduled s = true -> code = 0%Z) ->
  In (KillTimeout Tsc) evs -> In (KillTimeout Alias) evs ->
  phase (run_events evs s) = Gone code
  /\ last (trace (run_events evs s)) = Some (ProcessExit code).
Proof.
  intros Hi Hp Hw Hx Ht Ha. apply winding_down_run.
  - split; [exact Hi|]. split; [exact Hx|]. right. now exists wt, wa.
  - intros []; auto.
Qed.


Lemma watch_goes_on_until_triggered_witness :
  let s' := run_events [ChildData Tsc "Found 0 errors."; ChildError Alias "spawn ENOENT";
                        ChildExit Alias (Some 0%Z); ChildExit Tsc None;
                        KillTimeout Tsc; WatcherClosed None; ScheduledExit]
                       (watching ∅) in
  inProgress s' = false /\ phase s' = Idle /\ exitScheduled s' = false
  /\ teardown s' = teardown (watching ∅)
  /\ ui s' = ui (watching ∅) /\ watcher s' = watcher (watching ∅).
Proof.
  apply (watch_goes_on_until_triggered
           [ChildData Tsc "Found 0 errors."; ChildError Alias "spawn ENOENT";
            ChildExit Alias (Some 0%Z); ChildExit Tsc None;
            KillTimeout Tsc; WatcherClosed None; ScheduledExit] (watching ∅));
    reflexivity.
Defined.

Lemma exit_code_is_that_of_a_trigger_witness :
  2%Z = 0%Z
  \/ (2%Z <> 0%Z
      /\ exists who, In (ChildExit who (Some 2%Z))
                        [ChildExit Alias (Some 2%Z); Signal; WatcherClosed None;
                         KillTimeout Tsc; KillTimeout Alias]).
Proof.
  apply (exit_code_is_that_of_a_trigger
           [ChildExit Alias (Some 2%Z); Signal; WatcherClosed None;
            KillTimeout Tsc; KillTimeout Alias] (watching ∅) 2%Z).
  - reflexivity.
  - intros c [].
  - vm_compute. repeat (try (left; reflexivity); right).
Defined.

Lemma children_outlive_a_hanging_watcher_witness :
  let evs := [Signal; ChildExit Tsc (Some 1%Z); ScheduledExit; KillTimeout Tsc; ExitKey] in
  let s' := run_events evs (watching ∅) in
  kills s' = []
  /\ (forall c, In (ProcessExit c) (trace s') -> c = 0%Z /\ In ScheduledExit evs).
Proof.
  apply (children_outlive_a_hanging_watcher
           [Signal; ChildExit Tsc (Some 1%Z); ScheduledExit; KillTimeout Tsc; ExitKey]
           (watching ∅));
    [reflexivity|reflexivity|reflexivity|intros c []|reflexivity].
Defined.

Lemma shutdown_ends_when_both_timers_fired_witness :
  let s := run_events [ChildExit Tsc (Some 2%Z); WatcherClosed None] (watching ∅) in
  let evs := [KillTimeout Alias; ChildData Alias "still resolving"; Signal;
              KillTimeout Tsc] in
  phase (run_events evs s) = Gone 2
  /\ last (trace (run_events evs s)) = Some (ProcessExit 2).
Proof.
  apply (shutdown_ends_when_both_timers_fired
           [KillTimeout Alias; ChildData Alias "still resolving"; Signal; KillTimeout Tsc]
           (run_events [ChildExit Tsc (Some 2%Z); WatcherClosed None] (watching ∅))
           2 true true);
    [reflexivity|reflexivity|reflexivity|discriminate|cbn; tauto|cbn; tauto].
Defined.

Lemma forced_kill_never_delivered_witness :
  forced (run_events [ExitKey; WatcherClosed None; KillTimeout Tsc; ChildExit Alias None;
                      KillTimeout Alias] (watching ∅)) = false.
Proof.
  apply (forced_kill_never_delivered
           [ExitKey; WatcherClosed None; KillTimeout Tsc; ChildExit Alias None;
            KillTimeout Alias] (watching ∅));
    [reflexivity|intros []; reflexivity].
Defined.

Lemma routed_console_never_prints_witness :
  terminal (run_events [ChildExit Tsc (Some 2%Z); WatcherClosed (Some "EBUSY");
                        KillTimeout Tsc; KillTimeout Alias] (watching ∅))
  = terminal (watching ∅).
Proof.
  apply (routed_console_never_prints
           [ChildExit Tsc (Some 2%Z); WatcherClosed (Some "EBUSY");
            KillTimeout Tsc; KillTimeout Alias] (watching ∅)).
  reflexivity.
Defined.


(** ** Failures in watch mode *)

Section Hidden.

Variable cwd : string.
Variable trim : string -> string.
Variable rm_fault : string -> option string.
Variable rm_partial : string -> string -> bool.
Variable exec : string -> list string -> gset string -> ProcRun.
Variable findClosestTsconfig : string -> Res string.
Variable readTsConfig : string -> Res Config.
Variable stack : string -> string.

Local Abbreviation build :=
  (build cwd trim rm_fault rm_partial exec findClosestTsconfig readTsConfig).
Local Abbreviation resolve_config := (resolve_config cwd findClosestTsconfig readTsConfig).
Local Abbreviation main :=
  (main cwd trim rm_fault rm_partial exec findClosestTsconfig readTsConfig stack).

Lemma terminal_emit e s :
  terminal (emit e s) = terminal s ++ (if is_terminal e then [e] else []).
Proof.
  unfold terminal. cbn [emit trace]. rewrite List.filter_app. cbn.
  now destruct (is_terminal e).
Qed.

(** X21.  A failure of [build] in watch mode is not printed.  When the
    output root cannot be removed in watch mode, [main] writes the error
    with [console.error]; but [build] has replaced the console by then, so
    the error goes into the bldr panel of the display and the process exits
    with code 1 right after: nothing of [build] and nothing of the error
    reaches the real standard output or standard error. *)
Theorem watch_mode_failure_is_not_printed
    (argv : list string) (args : CLI.Args) (s : State)
    (path rootAbs outAbs code : string) :
  let started := console_log "📦 Initializing..."
                   (console_log "------------- bldr -------------" s) in
  let checked := checkDependencies exec started in
  (exists b, snd checked = Ok b) ->
  fst (CLI.parseArgs argv) = CLI.Returned args ->
  CLI.watch args = true ->
  resolve_config args = Ok (path, rootAbs, outAbs) ->
  rm_fault outAbs = Some code ->
  code <> "ENOENT" ->
  let s' := main argv s in
  terminal s' = terminal (fst checked)
  /\ exists before,
       trace s' = before ++ [Display BldrBox ("{red-fg}❌ " +:+ stack code +:+ "{/red-fg}");
                             ProcessExit 1].
Proof.
  intros started checked [b Hb] Hparse Hwatch Hcfg Hrm Hcode s'.
  subst s'. unfold Builder.main. fold started. fold checked.
  pose proof (checkDependencies_true exec started) as Htrue. fold checked in Htrue.
  destruct checked as [s1 r]. cbn [fst snd] in *. subst r.
  rewrite (Htrue b eq_refl). cbn [negb].
  pose proof (CLI.parse_loop_well_ended argv (CLI.mkArgs false None) [] eq_refl I) as Hp.
  fold (CLI.parseArgs argv) in Hp. unfold CLI.well_ended in Hp.
  destruct (CLI.parseArgs argv) as [parsed out]. cbn [fst snd] in *. subst parsed.
  destruct Hp as [-> _]. cbn [fold_left].
  unfold Builder.build, mbind, M_bind, bind, lift.
  rewrite Hcfg. unfold build_in. rewrite Hwatch.
  apply String.eqb_neq in Hcode.
  cbv [negb mbind M_bind bind ret act rmIfExists Fs.rmIfExists try_catch compile run throw].
  state_proj. rewrite Hrm, Hcode. unfold on_rejection. state_proj.
  split.
  - change (terminal (set_phase ?p ?x)) with (terminal x). rewrite !terminal_emit.
    change (terminal (set_fs ?f ?x)) with (terminal x). rewrite !terminal_emit.
    change (terminal (set_routed true (createTerminalUI s1)))
      with (terminal (emit UiCreated s1)).
    rewrite terminal_emit. cbn [is_terminal]. now rewrite !app_nil_r.
  - eexists.
    rewrite <- (app_assoc _ [Display BldrBox (_ +:+ stack code +:+ _)] [ProcessExit 1]).
    reflexivity.
Qed.

End Hidden.

Lemma watch_mode_failure_is_not_printed_witness :
  let s' := main "/repo" trim_ascii (fun _ => Some "EPERM") (fun _ _ => false)
                 good_exec (fun _ => Ok "/repo/tsconfig.json") (fun _ => Ok demo_config)
                 (fun e => "Error: " +:+ e) ["--watch"] (init demo_files) in
  terminal s' = [Stdout "------------- bldr -------------"; Stdout "📦 Initializing..."]
  /\ exists before,
       trace s' = before ++ [Display BldrBox ("{red-fg}❌ " +:+ "Error: EPERM" +:+ "{/red-fg}");
                             ProcessExit 1].
Proof.
  apply (watch_mode_failure_is_not_printed "/repo" trim_ascii (fun _ => Some "EPERM")
           (fun _ _ => false)
           good_exec (fun _ => Ok "/repo/tsconfig.json") (fun _ => Ok demo_config)
           (fun e => "Error: " +:+ e) ["--watch"] (CLI.mkArgs true None) (init demo_files)
           "/repo/tsconfig.json" "/repo/src" "/repo/dist" "EPERM");
    [now exists true|reflexivity|reflexivity|reflexivity|reflexivity|discriminate].
Defined.

End Builder.

(* ===================================================================== *)
(** * Finding and reading the project file ([utils/fs.ts]) *)
(* ===================================================================== *)

Module Tsconfig.
Import Builder.

Section Locate.

Variable cwd : string.
(** [fs.existsSync] *)
Variable existsSync : string -> bool.

Definition not_found (startDir : string) : string :=
  "Could not find tsconfig.json starting from " +:+ startDir
    +:+ ". Pass -p <path-to-tsconfig>.".

(** The [while (true)] loop of [findClosestTsconfig], at most [fuel] times
    round: it returns the candidate, or leaves through [break]. *)
Fixpoint search (fuel : nat) (dir : string) : option (option string) :=
  match fuel with
  | 0 => None
  | S fuel' =>
      let candidate := Path.join dir "tsconfig.json" in
      if existsSync candidate then Some (Some candidate)
      else
        let parent := Path.dirname dir in
        if String.eqb parent dir then Some None else search fuel' parent
  end.

(** [findClosestTsconfig]; every round but the last shortens [dir], so the
    loop is given one round more than [dir] has characters. *)
Definition findClosestTsconfig (startDir : string) : option (Res string) :=
  let dir := Path.render (Path.resolve_segments cwd startDir) in
  match search (S (String.length dir)) dir with
  | Some (Some candidate) => Some (Ok candidate)
  | Some None => Some (Err (not_found startDir))
  | None => None
  end.

(** The project file of the directory made of the first [n] segments. *)
Definition config_at (segs : list string) (n : nat) : string :=
  Path.render (firstn n segs ++ ["tsconfig.json"]).

Lemma search_closest segs :
  forallb Path.plain segs = true ->
  forall fuel, length segs < fuel ->
  exists r, search fuel (Path.render segs) = Some r /\
    match r with
    | Some c =>
        exists n, n <= length segs /\ c = config_at segs n /\ existsSync c = true
          /\ forall m, n < m <= length segs -> existsSync (config_at segs m) = false
    | None => forall m, m <= length segs -> existsSync (config_at segs m) = false
    end.
Proof.
  induction segs as [|x segs IH] using rev_ind; intros Hp fuel Hfuel.
  - destruct fuel as [|fuel]; [lia|]. cbn [search].
    change (Path.join (Path.render []) "tsconfig.json") with (config_at [] 0).
    destruct (existsSync (config_at [] 0)) eqn:E.
    + eexists. split; [reflexivity|]. exists 0. repeat split; auto.
      intros m Hm. cbn in Hm. lia.
    + change (Path.dirname (Path.render [])) with (Path.render []).
      rewrite String.eqb_refl. eexists. split; [reflexivity|].
      intros m Hm. cbn in Hm. assert (m = 0) as -> by lia. exact E.
  - rewrite forallb_app in Hp. apply andb_true_iff in Hp as [Hs Hx].
    cbn in Hx. rewrite andb_true_r in Hx.
    rewrite length_app in *. cbn [length] in *.
    destruct fuel as [|fuel]; [lia|]. cbn [search].
    assert (Hc : Path.join (Path.render (segs ++ [x])) "tsconfig.json"
                 = config_at (segs ++ [x]) (length segs + 1)).
    { unfold config_at. rewrite firstn_all2 by (rewrite length_app; cbn; lia).
      apply (Path.join_render (segs ++ [x]) [] "tsconfig.json"); [|reflexivity..].
      rewrite forallb_app, Hs. cbn. now rewrite Hx. }
    rewrite Hc.
    destruct (existsSync (config_at (segs ++ [x]) (length segs + 1))) eqn:E.
    + eexists. split; [reflexivity|]. exists (length segs + 1).
      repeat split; auto. intros m Hm. lia.
    + rewrite Path.dirname_render by assumption.
      assert (Hne : String.eqb (Path.render segs) (Path.render (segs ++ [x])) = false)
        by now apply String.eqb_neq, Path.render_snoc_neq.
      rewrite Hne.
      destruct (IH Hs fuel ltac:(lia)) as (r & Hr & Hspec).
      exists r. split; [exact Hr|].
      assert (Hat : forall m, m <= length segs ->
                              config_at (segs ++ [x]) m = config_at segs m).
      { intros m Hm. unfold config_at. rewrite firstn_app.
        replace (m - length segs) with 0 by lia. cbn. now rewrite app_nil_r. }
      destruct r as [c|].
      * destruct Hspec as (n & Hn & -> & Hex & Hno).
        exists n. split; [lia|]. split; [now rewrite Hat|]. split; [assumption|].
        intros m Hm. destruct (decide (m = length segs + 1)) as [->|Hm'];
          [exact E|]. rewrite Hat by lia. apply Hno. lia.
      * intros m Hm. destruct (decide (m = length segs + 1)) as [->|Hm'];
          [exact E|]. rewrite Hat by lia. apply Hspec. lia.
Qed.

(** X22.  [findClosestTsconfig] always returns or throws, and it finds the
    closest project file.  With [segs] the segments of the resolved start
    directory: when it returns, the result is [tsconfig.json] in the
    directory made of the first [n] segments, that file exists, and no
    directory between that one and the start directory has one (the start
    directory itself is looked at first, the root last); when it throws, the
    message names the start directory as given and no directory from the
    start up to the root has the file. *)
Theorem findClosestTsconfig_finds_the_closest (startDir : string) :
  let segs := Path.resolve_segments cwd startDir in
  exists r, findClosestTsconfig startDir = Some r /\
    match r with
    | Ok c =>
        exists n, n <= length segs /\ c = config_at segs n /\ existsSync c = true
          /\ forall m, n < m <= length segs -> existsSync (config_at segs m) = false
    | Err msg =>
        msg = not_found startDir
        /\ forall m, m <= length segs -> existsSync (config_at segs m) = false
    end.
Proof.
  intros segs. unfold findClosestTsconfig. fold segs.
  destruct (search_closest segs (Path.resolve_segments_plain cwd startDir)
              (S (String.length (Path.render segs))))
    as (r & Hr & Hspec).
  { pose proof (Path.length_le_render segs). lia. }
  rewrite Hr. destruct r as [c|].
  - exists (Ok c). split; [reflexivity|exact Hspec].
  - exists (Err (not_found startDir)). split; [reflexivity|]. split; [reflexivity|exact Hspec].
Qed.

End Locate.

Section Read.

Variable cwd : string.
(** What [ts.readConfigFile] hands over when it succeeds. *)
Variable Json : Type.
(** [ts.readConfigFile(absolutePath, ts.sys.readFile)]: the content of the
    file, or its diagnostic as [formatTsDiagnostics] writes it. *)
Variable readConfigFile : string -> Res Json.
(** [ts.parseJsonConfigFileContent(config, ts.sys, configDir, undefined,
    absolutePath)]: the options [outDir] and [rootDir], or its diagnostics
    as [formatTsDiagnostics] writes them. *)
Variable parseJsonConfigFileContent :
  Json -> string -> string -> Res (option string * option string).

Definition missing_dirs (absolutePath : string) : string :=
  "tsconfig at " +:+ absolutePath +:+ " must specify both " +:+ dquote
    +:+ "compilerOptions.outDir" +:+ dquote +:+ " and " +:+ dquote
    +:+ "compilerOptions.rootDir" +:+ dquote +:+ ".".

(** [!option]: the option is missing or the empty string. *)
Definition unset (o : option string) : bool :=
  match o with
  | Some v => negb (CLI.truthy v)
  | None => true
  end.

(** [readTsConfig] *)
Definition readTsConfig (tsconfigPath : string) : Res Config :=
  let absolutePath := Path.render (Path.resolve_segments cwd tsconfigPath) in
  match readConfigFile absolutePath with
  | Err diagnostic => Err diagnostic
  | Ok config =>
      let configDir := Path.dirname absolutePath in
      match parseJsonConfigFileContent config configDir absolutePath with
      | Err diagnostics => Err diagnostics
      | Ok (outDir, rootDir) =>
          if unset outDir || unset rootDir then Err (missing_dirs absolutePath)
          else
            let outDir := default "" outDir in
            let rootDir := default "" rootDir in
            Ok (mkConfig absolutePath configDir
                  (if Path.isAbsolute outDir then outDir else resolve cwd configDir outDir)
                  (if Path.isAbsolute rootDir then rootDir else resolve cwd configDir rootDir))
      end
  end.

Lemma absolute_truthy p : Path.isAbsolute p = true -> CLI.truthy p = true.
Proof. now destruct p. Qed.

(** Everything in a [Config] that [readTsConfig] returns is absolute. *)
Lemma readTsConfig_absolute p cfg :
  readTsConfig p = Ok cfg ->
  Path.isAbsolute (tsconfigPath cfg) = true
  /\ configDir cfg = Path.dirname (tsconfigPath cfg)
  /\ Path.isAbsolute (outDir cfg) = true
  /\ Path.isAbsolute (rootDir cfg) = true.
Proof.
  unfold readTsConfig.
  destruct (readConfigFile _) as [config|]; [|discriminate].
  destruct (parseJsonConfigFileContent _ _ _) as [[o r]|]; [|discriminate].
  destruct (unset o || unset r); [discriminate|].
  intros [= <-]. cbn [Builder.tsconfigPath Builder.configDir Builder.outDir Builder.rootDir].
  repeat split.
  - destruct (Path.isAbsolute (default "" o)) eqn:E; [exact E|reflexivity].
  - destruct (Path.isAbsolute (default "" r)) eqn:E; [exact E|reflexivity].
Qed.

Variable findClosestTsconfig : string -> Res string.

(** X23.  What [build] does with the result of [readTsConfig] is redundant.
    Whenever [readTsConfig] returns, both directories are non-empty absolute
    paths, so the test for a missing [outDir] or [rootDir] in [build] never
    fires and the two roots [build] works with are the ones [readTsConfig]
    returned, unchanged.  The configuration step of [build] fails only with
    the error of [findClosestTsconfig] or with an error of
    [readTsConfig]. *)
Theorem build_takes_the_roots_of_readTsConfig (args : CLI.Args) :
  match resolve_config cwd findClosestTsconfig readTsConfig args with
  | Ok (path, rootDirAbs, outDirAbs) =>
      exists cfg, readTsConfig path = Ok cfg
        /\ rootDirAbs = rootDir cfg /\ outDirAbs = outDir cfg
        /\ Path.isAbsolute rootDirAbs = true /\ Path.isAbsolute outDirAbs = true
  | Err e =>
      findClosestTsconfig cwd = Err e \/ exists path, readTsConfig path = Err e
  end.
Proof.
  unfold resolve_config.
  set (located := match CLI.project args with
                  | Some p => if CLI.truthy p then Ok (resolve cwd cwd p)
                              else findClosestTsconfig cwd
                  | None => findClosestTsconfig cwd
                  end).
  assert (Hloc : forall e, located = Err e -> findClosestTsconfig cwd = Err e).
  { intros e. unfold located. destruct (CLI.project args) as [p|]; [|auto].
    destruct (CLI.truthy p); [discriminate|auto]. }
  destruct located as [path|e]; [|left; now apply Hloc].
  destruct (readTsConfig path) as [cfg|e] eqn:Hcfg; [|right; now exists path].
  destruct (readTsConfig_absolute path cfg Hcfg) as (_ & _ & Ho & Hr).
  rewrite (proj2 (String.eqb_neq _ _)), (proj2 (String.eqb_neq _ _)).
  - cbn [orb]. rewrite Ho, Hr. exists cfg. auto.
  - intros E. rewrite E in Hr. discriminate Hr.
  - intros E. rewrite E in Ho. discriminate Ho.
Qed.

End Read.

Example findClosestTsconfig_example :
  findClosestTsconfig "/repo/packages/bldr"
    (fun p => String.eqb p "/repo/tsconfig.json" || String.eqb p "/tsconfig.json") "src/../test"
  = Some (Ok "/repo/tsconfig.json")
  /\ findClosestTsconfig "/repo" (fun _ => false) "x"
     = Some (Err "Could not find tsconfig.json starting from x. Pass -p <path-to-tsconfig>.").
Proof. split; reflexivity. Qed.

(** ** The project flag and the search *)

Section Override.

Variable cwd : string.
Variable readTsConfig : string -> Res Config.

(** X24.  With [-p], the project file is the one given, resolved against the
    working directory, and nothing is searched for.  When [parseArgs]
    returns a project path, the configuration step of [build] does not
    depend on [findClosestTsconfig] at all, and it fails with the error of
    [readTsConfig] on that file whenever reading it fails. *)
Theorem project_flag_overrides_the_search
    (argv : list string) (args : CLI.Args) (out : list string) (p : string)
    (find find' : string -> Res string) :
  CLI.parseArgs argv = (CLI.Returned args, out) ->
  CLI.project args = Some p ->
  resolve_config cwd find readTsConfig args = resolve_config cwd find' readTsConfig args
  /\ forall e, readTsConfig (resolve cwd cwd p) = Err e ->
               resolve_config cwd find readTsConfig args = Err e.
Proof.
  intros Hparse Hp.
  pose proof (CLI.parse_loop_well_ended argv (CLI.mkArgs false None) [] eq_refl I) as Hw.
  fold (CLI.parseArgs argv) in Hw. rewrite Hparse in Hw. unfold CLI.well_ended in Hw.
  cbn [fst snd] in Hw. destruct Hw as [_ Hw]. rewrite Hp in Hw.
  unfold CLI.is_path in Hw. apply andb_true_iff in Hw as [Ht _].
  unfold resolve_config. rewrite Hp, Ht. split; [reflexivity|].
  intros e He. now rewrite He.
Qed.

End Override.

Lemma project_flag_overrides_the_search_witness :
  let unreadable := fun _ : string => @Err Config "error TS5083: Cannot read file" in
  let args := CLI.mkArgs true (Some "cfg/tsconfig.json") in
  resolve_config "/repo" (fun _ => Err "not found") unreadable args
  = resolve_config "/repo" (fun _ => Ok "/elsewhere/tsconfig.json") unreadable args
  /\ resolve_config "/repo" (fun _ => Err "not found") unreadable args
     = Err "error TS5083: Cannot read file".
Proof.
  destruct (project_flag_overrides_the_search "/repo"
              (fun _ => Err "error TS5083: Cannot read file")
              ["-w"; "-p"; "cfg/tsconfig.json"] (CLI.mkArgs true (Some "cfg/tsconfig.json")) []
              "cfg/tsconfig.json" (fun _ => Err "not found")
              (fun _ => Ok "/elsewhere/tsconfig.json") eq_refl eq_refl) as [H1 H2].
  split; [exact H1|exact (H2 _ eq_refl)].
Defined.


End Tsconfig.

(* ===================================================================== *)
(** * The operation queue of watch mode ([queuedOperation]) *)
(* ===================================================================== *)

Module Queue.

Definition MAX_CONCURRENT_OPERATIONS : nat := 10.

(** How an operation, and with it the promise stored in the map, settles. *)
Inductive outcome :=
| Fulfilled
| Rejected (error : string).

(** The outcome of the operation of the [unlink] handler, from what
    [Fs.unlinkOperation] reports. *)
Definition outcome_of (failure : option string) : outcome :=
  match failure with
  | None => Fulfilled
  | Some e => Rejected e
  end.

(** The calls of [queuedOperation] are numbered in the order in which they
    are made.  The promise a call puts into the map,
    [operation().finally(...)], is named by the number of the call. *)
Inductive status :=
| AwaitExisting (p : nat)   (* suspended at [await existing] *)
| AwaitRace (ps : list nat) (* suspended at [await Promise.race(...)] over [ps] *)
| Running                   (* [operation()] was called and is in flight *)
| Settled (o : outcome)     (* the operation has finished *)
| Aborted (error : string). (* the call rejected before calling [operation] *)

#[global] Instance outcome_eq_dec : EqDecision outcome.
Proof. solve_decision. Defined.

#[global] Instance status_eq_dec : EqDecision status.
Proof. solve_decision. Defined.

(** What can be observed of the queue. *)
Inductive action :=
| Started (call : nat)                 (* [operation()] is called *)
| Finished (call : nat) (o : outcome)  (* the operation settles *)
| Abort (call : nat) (error : string). (* the call rejects at an [await] *)

#[global] Instance action_eq_dec : EqDecision action.
Proof. solve_decision. Defined.

Record state := mkState {
  operationQueue : gmap string nat; (* [Map<string, Promise<void>>] *)
  keys : list string;               (* the key of every call made so far *)
  stat : gmap nat status;           (* where every call is *)
  waiters : list nat;               (* suspended calls, oldest suspension first *)
  log : list action
}.

Definition empty : state := mkState ∅ [] ∅ [] [].

(** [operationQueue.values()] *)
Definition values (m : gmap string nat) : list nat := (map_to_list m).*2.

(** Call [t] (with key [k]) reaches the test of the [while] loop: it
    suspends on a race over the promises now in the map, or leaves the
    loop, calls [operation()] and stores the promise. *)
Definition at_loop (t : nat) (k : string) (s : state) : state :=
  if (MAX_CONCURRENT_OPERATIONS <=? size (operationQueue s))%nat then
    mkState (operationQueue s) (keys s)
            (<[t := AwaitRace (values (operationQueue s))]> (stat s))
            (waiters s ++ [t]) (log s)
  else
    mkState (<[k := t]> (operationQueue s)) (keys s)
            (<[t := Running]> (stat s))
            (waiters s) (log s ++ [Started t]).

(** [queuedOperation(key, operation)] up to its first suspension. *)
Definition queuedOperation (k : string) (s : state) : state :=
  let t := length (keys s) in
  match operationQueue s !! k with
  | Some existing =>
      mkState (operationQueue s) (keys s ++ [k])
              (<[t := AwaitExisting existing]> (stat s))
              (waiters s ++ [t]) (log s)
  | None =>
      at_loop t k (mkState (operationQueue s) (keys s ++ [k]) (stat s)
                           (waiters s) (log s))
  end.

(** The continuation of call [t] when the promise it awaits has settled
    with [o]: a rejection is thrown at the [await] and ends the call;
    otherwise control reaches the loop test. *)
Definition resume (o : outcome) (s : state) (t : nat) : state :=
  match o with
  | Rejected e =>
      mkState (operationQueue s) (keys s) (<[t := Aborted e]> (stat s))
              (waiters s) (log s ++ [Abort t e])
  | Fulfilled =>
      match keys s !! t with
      | Some k => at_loop t k s
      | None => s
      end
  end.

Definition awaits_existing (s : state) (p t : nat) : bool :=
  match stat s !! t with
  | Some (AwaitExisting q) => Nat.eqb p q
  | _ => false
  end.

Definition awaits_race (s : state) (p t : nat) : bool :=
  match stat s !! t with
  | Some (AwaitRace ps) => bool_decide (p ∈ ps)
  | _ => false
  end.

(** The operation of call [p] settles with [o].  The [finally] callback
    deletes the key of [p] from the map; then the promise settles and its
    reactions run: first the calls suspended on it at [await existing], then
    the calls whose race it decides, each group in the order of suspension.
    All of this happens before any other event is taken. *)
Definition complete (p : nat) (o : outcome) (s : state) : state :=
  match stat s !! p, keys s !! p with
  | Some Running, Some k =>
      let woken := List.filter (awaits_existing s p) (waiters s)
                   ++ List.filter (awaits_race s p) (waiters s) in
      let asleep := List.filter
                      (fun t => negb (awaits_existing s p t || awaits_race s p t))
                      (waiters s) in
      fold_left (resume o) woken
        (mkState (delete k (operationQueue s)) (keys s)
                 (<[p := Settled o]> (stat s)) asleep
                 (log s ++ [Finished p o]))
  | _, _ => s
  end.

(** The environment: the watcher reports a deletion ([Enqueue]), or the
    file-system work of a started operation ends ([Complete]). *)
Inductive event :=
| Enqueue (key : string)
| Complete (call : nat) (o : outcome).

Definition step (s : state) (ev : event) : state :=
  match ev with
  | Enqueue k => queuedOperation k s
  | Complete p o => complete p o s
  end.

Definition run (evs : list event) (s : state) : state := fold_left step evs s.

(** [ev] is the end of the operation of call [p]. *)
Definition completion_of (p : nat) (ev : event) : bool :=
  match ev with
  | Complete q _ => Nat.eqb q p
  | Enqueue _ => false
  end.

(** The calls whose operation is in flight. *)
Definition is_running (s : state) (t : nat) : bool :=
  match stat s !! t with
  | Some Running => true
  | _ => false
  end.

Definition running (s : state) : list nat :=
  List.filter (is_running s) (seq 0 (length (keys s))).

Definition key_of (s : state) (t : nat) : string := default "" (keys s !! t).

(** ** How the steps touch a given call *)

Lemma at_loop_keys t k s : keys (at_loop t k s) = keys s.
Proof. unfold at_loop. now destruct (_ <=? _)%nat. Qed.

Lemma at_loop_stat_ne t k s u : u <> t -> stat (at_loop t k s) !! u = stat s !! u.
Proof.
  intros Hne. unfold at_loop.
  destruct (_ <=? _)%nat; cbn [stat]; now rewrite lookup_insert_ne.
Qed.

Lemma at_loop_waiters t k s u : u ∈ waiters s -> u ∈ waiters (at_loop t k s).
Proof.
  intros Hu. unfold at_loop. destruct (_ <=? _)%nat; cbn [waiters]; [|assumption].
  apply elem_of_app. now left.
Qed.

Lemma at_loop_started t k s u :
  Started u ∈ log (at_loop t k s) -> Started u ∈ log s \/ u = t.
Proof.
  unfold at_loop. destruct (_ <=? _)%nat; cbn [log]; [now left|].
  intros H. apply elem_of_app in H as [H|H]; [now left|].
  apply list_elem_of_singleton in H. injection H as ->. now right.
Qed.

Lemma at_loop_log_incl t k s a : a ∈ log s -> a ∈ log (at_loop t k s).
Proof.
  intros Ha. unfold at_loop. destruct (_ <=? _)%nat; cbn [log]; [assumption|].
  apply elem_of_app. now left.
Qed.

Lemma resume_keys o s t : keys (resume o s t) = keys s.
Proof.
  unfold resume. destruct o; [|reflexivity].
  destruct (keys s !! t); [apply at_loop_keys|reflexivity].
Qed.

Lemma resume_stat_ne o s t u : u <> t -> stat (resume o s t) !! u = stat s !! u.
Proof.
  intros Hne. unfold resume. destruct o.
  - destruct (keys s !! t); [now apply at_loop_stat_ne|reflexivity].
  - cbn [stat]. now rewrite lookup_insert_ne.
Qed.

Lemma resume_waiters o s t u : u ∈ waiters s -> u ∈ waiters (resume o s t).
Proof.
  intros Hu. unfold resume. destruct o; [|assumption].
  destruct (keys s !! t); [now apply at_loop_waiters|assumption].
Qed.

Lemma resume_started o s t u :
  Started u ∈ log (resume o s t) -> Started u ∈ log s \/ (u = t /\ o = Fulfilled).
Proof.
  unfold resume. destruct o.
  - destruct (keys s !! t); [|now left].
    intros H. apply at_loop_started in H as [H| ->]; auto.
  - cbn [log]. intros H. apply elem_of_app in H as [H|H]; [now left|].
    apply list_elem_of_singleton in H. discriminate H.
Qed.

Lemma resume_log_incl o s t a : a ∈ log s -> a ∈ log (resume o s t).
Proof.
  intros Ha. unfold resume. destruct o.
  - destruct (keys s !! t); [now apply at_loop_log_incl|assumption].
  - cbn [log]. apply elem_of_app. now left.
Qed.

(** Induction over the reactions that run when a promise settles. *)
Lemma fold_resume_ind (P : state -> Prop) o woken :
  forall s,
    P s ->
    (forall s' u, u ∈ woken -> P s' -> P (resume o s' u)) ->
    P (fold_left (resume o) woken s).
Proof.
  induction woken as [|u woken IH]; intros s Hs Hstep; [assumption|].
  cbn [fold_left]. apply IH.
  - apply Hstep; [apply list_elem_of_here|assumption].
  - intros s' v Hv. apply Hstep. now apply list_elem_of_further.
Qed.

(** The parts of the state that concern call [t]: they are the same in
    [s'] as in [s], up to new suspensions and log entries of others. *)
Definition untouched (t : nat) (s s' : state) : Prop :=
  stat s' !! t = stat s !! t
  /\ length (keys s) <= length (keys s')
  /\ (t ∈ waiters s -> t ∈ waiters s')
  /\ (Started t ∈ log s' -> Started t ∈ log s)
  /\ (forall a, a ∈ log s -> a ∈ log s').

Lemma untouched_refl t s : untouched t s s.
Proof. unfold untouched. auto. Qed.

Lemma untouched_trans t s1 s2 s3 :
  untouched t s1 s2 -> untouched t s2 s3 -> untouched t s1 s3.
Proof.
  unfold untouched. intros (A1 & A2 & A3 & A4 & A5) (B1 & B2 & B3 & B4 & B5).
  repeat split; try congruence; try lia; auto.
Qed.

Lemma resume_untouched t o s u : u <> t -> untouched t s (resume o s u).
Proof.
  intros Hne. unfold untouched. split; [now apply resume_stat_ne|].
  split; [now rewrite resume_keys|]. split; [apply resume_waiters|].
  split; [|intros a; apply resume_log_incl].
  intros H. apply resume_started in H as [H|[-> _]]; [assumption|congruence].
Qed.

Lemma fold_resume_untouched t o woken s :
  t ∉ woken -> untouched t s (fold_left (resume o) woken s).
Proof.
  intros Ht.
  apply (fold_resume_ind (untouched t s)); [apply untouched_refl|].
  intros s' u Hu Hs'. eapply untouched_trans; [exact Hs'|].
  apply resume_untouched. intros ->. contradiction.
Qed.

Lemma elem_of_filter_bool {A} (f : A -> bool) (l : list A) x :
  x ∈ List.filter f l <-> x ∈ l /\ f x = true.
Proof. rewrite !list_elem_of_In. apply filter_In. Qed.

(** A call that is woken when [p] settles was suspended on [p]. *)
Definition woken (s : state) (p : nat) : list nat :=
  List.filter (awaits_existing s p) (waiters s)
  ++ List.filter (awaits_race s p) (waiters s).

Lemma elem_of_woken s p u :
  u ∈ woken s p <->
  u ∈ waiters s /\ (awaits_existing s p u = true \/ awaits_race s p u = true).
Proof.
  unfold woken. rewrite elem_of_app, !elem_of_filter_bool. tauto.
Qed.

Lemma complete_unfold p o s k :
  stat s !! p = Some Running -> keys s !! p = Some k ->
  complete p o s
  = fold_left (resume o) (woken s p)
      (mkState (delete k (operationQueue s)) (keys s)
               (<[p := Settled o]> (stat s))
               (List.filter (fun t => negb (awaits_existing s p t || awaits_race s p t))
                            (waiters s))
               (log s ++ [Finished p o])).
Proof. intros H1 H2. unfold complete. now rewrite H1, H2. Qed.

Lemma complete_idle p o s :
  stat s !! p <> Some Running -> complete p o s = s.
Proof.
  intros H. unfold complete.
  destruct (stat s !! p) as [[]|]; try reflexivity. congruence.
Qed.

(** When [p] settles, a call that is neither [p] nor suspended on [p] is
    left as it was. *)
Lemma complete_untouched t p o s :
  t <> p -> awaits_existing s p t = false -> awaits_race s p t = false ->
  untouched t s (complete p o s).
Proof.
  intros Hne He Hr.
  destruct (stat s !! p) as [st|] eqn:Hp; [|rewrite complete_idle; [apply untouched_refl|congruence]].
  destruct (decide (st = Running)) as [->|Hst];
    [|rewrite complete_idle; [apply untouched_refl|congruence]].
  destruct (keys s !! p) as [k|] eqn:Hk;
    [|unfold complete; rewrite Hp, Hk; apply untouched_refl].
  rewrite (complete_unfold p o s k Hp Hk).
  eapply untouched_trans; [|apply fold_resume_untouched].
  - unfold untouched. cbn [stat keys waiters log].
    split; [now rewrite lookup_insert_ne|]. split; [reflexivity|].
    split; [|split].
    + intros Ht. apply elem_of_filter_bool. split; [assumption|].
      now rewrite He, Hr.
    + intros H. apply elem_of_app in H as [H|H]; [assumption|].
      apply list_elem_of_singleton in H. discriminate H.
    + intros a Ha. apply elem_of_app. now left.
  - rewrite elem_of_woken. intros [_ [H|H]]; congruence.
Qed.

Lemma at_loop_untouched t u k s : u <> t -> untouched t s (at_loop u k s).
Proof.
  intros Hne. unfold untouched. split; [now apply at_loop_stat_ne|].
  split; [now rewrite at_loop_keys|]. split; [apply at_loop_waiters|].
  split; [|intros a; apply at_loop_log_incl].
  intros H. apply at_loop_started in H as [H| ->]; [assumption|congruence].
Qed.

(** A new call leaves the calls already made as they were. *)
Lemma queuedOperation_untouched t k s : t < length (keys s) -> untouched t s (queuedOperation k s).
Proof.
  intros Hlt. unfold queuedOperation.
  assert (Hne : length (keys s) <> t) by lia.
  destruct (operationQueue s !! k) as [existing|].
  - unfold untouched. cbn [stat keys waiters log].
    rewrite lookup_insert_ne by assumption. rewrite length_app. cbn [length].
    repeat split; auto; try lia. intros Ht. apply elem_of_app. now left.
  - eapply untouched_trans; [|apply at_loop_untouched; exact Hne].
    unfold untouched. cbn [stat keys waiters log]. rewrite length_app. cbn [length].
    repeat split; auto; lia.
Qed.

(** ** Reachable states are well formed *)

Definition awaiting (st : option status) : bool :=
  match st with
  | Some (AwaitExisting _) | Some (AwaitRace _) => true
  | _ => false
  end.

Record wf (s : state) : Prop := mkWf {
  (* a promise in the map belongs to a call in flight, under that call's key *)
  wf_queue : forall k p, operationQueue s !! k = Some p ->
               stat s !! p = Some Running /\ keys s !! p = Some k;
  wf_stat : forall t st, stat s !! t = Some st -> t < length (keys s);
  wf_log : forall t, Started t ∈ log s -> t < length (keys s);
  wf_nodup : NoDup (waiters s);
  wf_waiters : forall t, t ∈ waiters s -> awaiting (stat s !! t) = true;
  wf_size : size (operationQueue s) <= MAX_CONCURRENT_OPERATIONS
}.

Lemma wf_empty : wf empty.
Proof.
  split; cbn [operationQueue stat log waiters keys empty].
  - intros k p H. now rewrite lookup_empty in H.
  - intros t st H. now rewrite lookup_empty in H.
  - intros t H. now apply not_elem_of_nil in H.
  - apply NoDup_nil_2.
  - intros t H. now apply not_elem_of_nil in H.
  - rewrite map_size_empty. lia.
Qed.

Lemma awaiting_not_running s t : awaiting (stat s !! t) = true -> stat s !! t <> Some Running.
Proof. intros H E. rewrite E in H. discriminate H. Qed.

Lemma at_loop_waiters_inv t k s u :
  u ∈ waiters (at_loop t k s) -> u ∈ waiters s \/ u = t.
Proof.
  unfold at_loop. destruct (_ <=? _)%nat; cbn [waiters]; [|now left].
  intros H. apply elem_of_app in H as [H|H]; [now left|].
  apply list_elem_of_singleton in H. now right.
Qed.

Lemma resume_waiters_inv o s t u :
  u ∈ waiters (resume o s t) -> u ∈ waiters s \/ u = t.
Proof.
  unfold resume. destruct o; [|now left].
  destruct (keys s !! t); [apply at_loop_waiters_inv|now left].
Qed.

Lemma at_loop_wf t k s :
  wf s -> keys s !! t = Some k -> t ∉ waiters s -> stat s !! t <> Some Running ->
  wf (at_loop t k s).
Proof.
  intros [Hq Hs Hl Hn Hw Hz] Hk Ht Hrun.
  assert (Hother : forall k' p, operationQueue s !! k' = Some p -> p <> t).
  { intros k' p H ->. now destruct (Hq _ _ H). }
  unfold at_loop. destruct (_ <=? _)%nat eqn:Hfull;
    split; cbn [operationQueue stat log waiters keys].
  - intros k' p H. destruct (Hq _ _ H) as [H1 H2].
    rewrite lookup_insert_ne by (symmetry; eauto). auto.
  - intros u st. destruct (decide (u = t)) as [->|Hne].
    + intros _. now apply lookup_lt_Some in Hk.
    + rewrite lookup_insert_ne by congruence. apply Hs.
  - assumption.
  - apply NoDup_app. repeat split; [assumption| |apply NoDup_singleton].
    intros u Hu Hu'. apply list_elem_of_singleton in Hu'. now subst.
  - intros u Hu. apply elem_of_app in Hu as [Hu|Hu].
    + rewrite lookup_insert_ne by (intros ->; contradiction). now apply Hw.
    + apply list_elem_of_singleton in Hu as ->. now rewrite lookup_insert_eq.
  - assumption.
  - intros k' p. destruct (decide (k' = k)) as [->|Hne].
    + rewrite lookup_insert_eq. intros [= <-]. now rewrite lookup_insert_eq.
    + rewrite lookup_insert_ne by congruence. intros H.
      destruct (Hq _ _ H) as [H1 H2].
      rewrite lookup_insert_ne by (symmetry; eauto). auto.
  - intros u st. destruct (decide (u = t)) as [->|Hne].
    + intros _. now apply lookup_lt_Some in Hk.
    + rewrite lookup_insert_ne by congruence. apply Hs.
  - intros u Hu. apply elem_of_app in Hu as [Hu|Hu]; [now apply Hl|].
    apply list_elem_of_singleton in Hu. injection Hu as ->.
    now apply lookup_lt_Some in Hk.
  - assumption.
  - intros u Hu. rewrite lookup_insert_ne by (intros ->; contradiction). now apply Hw.
  - apply Nat.leb_gt in Hfull. rewrite map_size_insert.
    destruct (operationQueue s !! k); cbn; lia.
Qed.

Lemma queuedOperation_wf k s : wf s -> wf (queuedOperation k s).
Proof.
  intros Hwf. pose proof Hwf as [Hq Hs Hl Hn Hw Hz].
  assert (Hfresh : length (keys s) ∉ waiters s).
  { intros H. apply Hw in H. destruct (stat s !! length (keys s)) as [st|] eqn:E;
      [|discriminate]. apply Hs in E. lia. }
  assert (Hnone : stat s !! length (keys s) = None).
  { destruct (stat s !! length (keys s)) as [st|] eqn:E; [|reflexivity].
    apply Hs in E. lia. }
  assert (Hext : wf (mkState (operationQueue s) (keys s ++ [k]) (stat s)
                             (waiters s) (log s))).
  { split; cbn [operationQueue stat log waiters keys]; try assumption.
    - intros k' p H. destruct (Hq _ _ H) as [H1 H2]. split; [assumption|].
      rewrite lookup_app_l; [assumption|]. now apply lookup_lt_Some in H2.
    - intros u st H. apply Hs in H. rewrite length_app. lia.
    - intros u H. apply Hl in H. rewrite length_app. lia. }
  unfold queuedOperation. destruct (operationQueue s !! k) as [existing|] eqn:Hk.
  - destruct Hext as [Hq' Hs' Hl' Hn' Hw' Hz'].
    split; cbn [operationQueue stat log waiters keys] in *; try assumption.
    + intros k' p H. destruct (Hq' _ _ H) as [H1 H2]. split; [|assumption].
      rewrite lookup_insert_ne; [assumption|]. intros E. rewrite E, H1 in Hnone. discriminate.
    + intros u st. destruct (decide (u = length (keys s))) as [->|Hne].
      * intros _. rewrite length_app. cbn. lia.
      * rewrite lookup_insert_ne by congruence. apply Hs'.
    + apply NoDup_app. repeat split; [assumption| |apply NoDup_singleton].
      intros u Hu Hu'. apply list_elem_of_singleton in Hu'. now subst.
    + intros u Hu. apply elem_of_app in Hu as [Hu|Hu].
      * rewrite lookup_insert_ne by (intros E; subst u; contradiction). now apply Hw.
      * apply list_elem_of_singleton in Hu as ->. now rewrite lookup_insert_eq.
  - apply at_loop_wf; cbn [operationQueue stat log waiters keys]; try assumption.
    + now rewrite list_lookup_middle.
    + now rewrite Hnone.
Qed.

Lemma resume_wf o s t :
  wf s -> t ∉ waiters s -> awaiting (stat s !! t) = true -> wf (resume o s t).
Proof.
  intros Hwf Ht Haw. pose proof Hwf as [Hq Hs Hl Hn Hw Hz].
  assert (Hlt : t < length (keys s)).
  { destruct (stat s !! t) as [st|] eqn:E; [now apply Hs in E|discriminate]. }
  unfold resume. destruct o as [|e].
  - destruct (lookup_lt_is_Some_2 _ _ Hlt) as [k Hk]. rewrite Hk.
    apply at_loop_wf; try assumption. now apply awaiting_not_running.
  - split; cbn [operationQueue stat log waiters keys]; try assumption.
    + intros k p H. destruct (Hq _ _ H) as [H1 H2]. split; [|assumption].
      rewrite lookup_insert_ne; [assumption|].
      intros ->. now apply (awaiting_not_running s p).
    + intros u st. destruct (decide (u = t)) as [->|Hne]; [auto|].
      rewrite lookup_insert_ne by congruence. apply Hs.
    + intros u Hu. apply elem_of_app in Hu as [Hu|Hu]; [now apply Hl|].
      apply list_elem_of_singleton in Hu. discriminate Hu.
    + intros u Hu. rewrite lookup_insert_ne by (intros ->; contradiction). now apply Hw.
Qed.

Lemma fold_resume_wf o woken :
  NoDup woken ->
  forall s,
    wf s ->
    (forall u, u ∈ woken -> (u ∉ waiters s) /\ awaiting (stat s !! u) = true) ->
    wf (fold_left (resume o) woken s).
Proof.
  induction 1 as [|u woken Hu Hnd IH]; intros s Hwf Hall; [assumption|].
  cbn [fold_left]. destruct (Hall u (list_elem_of_here _ _)) as [Hu1 Hu2].
  apply IH; [now apply resume_wf|].
  intros v Hv. assert (Hne : v <> u) by (intros ->; contradiction).
  destruct (Hall v (list_elem_of_further _ _ _ Hv)) as [Hv1 Hv2]. split.
  - intros H. apply resume_waiters_inv in H as [H|H]; contradiction.
  - now rewrite resume_stat_ne.
Qed.

Lemma awaits_awaiting s p u :
  awaits_existing s p u = true \/ awaits_race s p u = true -> awaiting (stat s !! u) = true.
Proof.
  unfold awaits_existing, awaits_race, awaiting.
  destruct (stat s !! u) as [[]|]; intros [H|H]; try discriminate; reflexivity.
Qed.

Lemma woken_NoDup s p : NoDup (waiters s) -> NoDup (woken s p).
Proof.
  intros Hn. unfold woken. apply NoDup_app. repeat split.
  - apply NoDup_ListNoDup, List.NoDup_filter, NoDup_ListNoDup, Hn.
  - intros u H1 H2. apply elem_of_filter_bool in H1 as [_ H1].
    apply elem_of_filter_bool in H2 as [_ H2].
    unfold awaits_existing, awaits_race in *.
    destruct (stat s !! u) as [[]|]; discriminate.
  - apply NoDup_ListNoDup, List.NoDup_filter, NoDup_ListNoDup, Hn.
Qed.

Lemma complete_wf p o s : wf s -> wf (complete p o s).
Proof.
  intros Hwf. pose proof Hwf as [Hq Hs Hl Hn Hw Hz].
  destruct (decide (stat s !! p = Some Running)) as [Hp|Hp];
    [|now rewrite complete_idle].
  destruct (lookup_lt_is_Some_2 _ _ (Hs _ _ Hp)) as [k Hk].
  rewrite (complete_unfold p o s k Hp Hk).
  apply fold_resume_wf; [now apply woken_NoDup| |].
  - split; cbn [operationQueue stat log waiters keys].
    + intros k' q. destruct (decide (k' = k)) as [->|Hne].
      * now rewrite lookup_delete_eq.
      * rewrite lookup_delete_ne by congruence. intros H.
        destruct (Hq _ _ H) as [H1 H2]. split; [|assumption].
        rewrite lookup_insert_ne; [assumption|]. intros ->. congruence.
    + intros u st. destruct (decide (u = p)) as [->|Hne]; [intros _; eauto|].
      rewrite lookup_insert_ne by congruence. apply Hs.
    + intros u Hu. apply elem_of_app in Hu as [Hu|Hu]; [now apply Hl|].
      apply list_elem_of_singleton in Hu. discriminate Hu.
    + apply NoDup_ListNoDup, List.NoDup_filter, NoDup_ListNoDup, Hn.
    + intros u Hu. apply elem_of_filter_bool in Hu as [Hu _].
      rewrite lookup_insert_ne; [now apply Hw|].
      intros ->. apply Hw in Hu. now apply (awaiting_not_running s u).
    + rewrite map_size_delete. destruct (operationQueue s !! k); cbn; lia.
  - intros u Hu. apply elem_of_woken in Hu as [Hu Haw].
    cbn [waiters stat]. split.
    + intros H. apply elem_of_filter_bool in H as [_ H].
      apply negb_true_iff, orb_false_iff in H as [H1 H2].
      destruct Haw; congruence.
    + rewrite lookup_insert_ne; [now apply (awaits_awaiting s p)|].
      intros ->. apply (awaiting_not_running s u); [|assumption].
      now apply (awaits_awaiting s u).
Qed.

Lemma step_wf s ev : wf s -> wf (step s ev).
Proof. destruct ev; [apply queuedOperation_wf|apply complete_wf]. Qed.

Lemma run_wf evs : forall s, wf s -> wf (run evs s).
Proof.
  induction evs as [|ev evs IH]; intros s H; [assumption|].
  apply IH. now apply step_wf.
Qed.

(** ** A call suspended on a promise that rejects *)

Section Propagation.

Variables (t p : nat) (e : string).

(** Call [t] is suspended at [await existing] on the promise of call [p],
    which is still in flight. *)
Definition suspended_on (s : state) : Prop :=
  stat s !! t = Some (AwaitExisting p)
  /\ t ∈ waiters s
  /\ stat s !! p = Some Running
  /\ p < length (keys s)
  /\ t < length (keys s)
  /\ (Started t ∉ log s).

(** Call [t] has rejected with [e] and its operation was never called. *)
Definition rejected_unstarted (s : state) : Prop :=
  stat s !! t = Some (Aborted e)
  /\ t < length (keys s)
  /\ (Started t ∉ log s)
  /\ (Abort t e ∈ log s).

Lemma awaits_existing_other s q :
  stat s !! t = Some (AwaitExisting p) -> q <> p -> awaits_existing s q t = false.
Proof. intros H Hne. unfold awaits_existing. rewrite H. now apply Nat.eqb_neq. Qed.

Lemma awaits_not_suspended s q u st :
  stat s !! u = Some st ->
  (forall r, st <> AwaitExisting r) -> (forall ps, st <> AwaitRace ps) ->
  awaits_existing s q u = false /\ awaits_race s q u = false.
Proof.
  intros H H1 H2. unfold awaits_existing, awaits_race. rewrite H.
  destruct st; try (split; reflexivity); [now destruct (H1 p0)|now destruct (H2 ps)].
Qed.

Lemma suspended_on_step s ev :
  suspended_on s -> (forall o, ev <> Complete p o) -> suspended_on (step s ev).
Proof.
  intros (Ht & Hw & Hp & Hpk & Htk & Hlog) Hev.
  assert (Hut : untouched t s (step s ev) /\ untouched p s (step s ev)).
  { destruct ev as [k|q o]; cbn [step].
    - split; now apply queuedOperation_untouched.
    - assert (Hq : q <> p) by (intros ->; now apply (Hev o)).
      destruct (decide (stat s !! q = Some Running)) as [Hrun|Hrun];
        [|rewrite complete_idle by assumption; split; apply untouched_refl].
      split; apply complete_untouched; try congruence.
      + now apply awaits_existing_other.
      + unfold awaits_race. now rewrite Ht.
      + now apply (awaits_not_suspended s q p Running).
      + now apply (awaits_not_suspended s q p Running). }
  destruct Hut as ((A1 & A2 & A3 & A4 & _) & (B1 & _)).
  unfold suspended_on. rewrite A1, B1. repeat split; auto; lia.
Qed.

Lemma fold_reject_stat woken : forall s,
  t ∈ woken -> stat (fold_left (resume (Rejected e)) woken s) !! t = Some (Aborted e).
Proof.
  induction woken as [|u woken IH]; intros s Ht; [now apply not_elem_of_nil in Ht|].
  cbn [fold_left]. destruct (decide (t ∈ woken)) as [Hin|Hnot]; [now apply IH|].
  apply elem_of_cons in Ht as [->|Ht]; [|contradiction].
  destruct (fold_resume_untouched u (Rejected e) woken (resume (Rejected e) s u) Hnot)
    as (-> & _).
  cbn [resume stat]. apply lookup_insert_eq.
Qed.

Lemma fold_reject_log woken : forall s,
  t ∈ woken -> Abort t e ∈ log (fold_left (resume (Rejected e)) woken s).
Proof.
  induction woken as [|u woken IH]; intros s Ht; [now apply not_elem_of_nil in Ht|].
  cbn [fold_left]. destruct (decide (t ∈ woken)) as [Hin|Hnot]; [now apply IH|].
  apply elem_of_cons in Ht as [->|Ht]; [|contradiction].
  destruct (fold_resume_untouched u (Rejected e) woken (resume (Rejected e) s u) Hnot)
    as (_ & _ & _ & _ & Hincl).
  apply Hincl. cbn [resume log]. apply elem_of_app. right. apply list_elem_of_here.
Qed.

Lemma suspended_on_reject s :
  suspended_on s -> rejected_unstarted (step s (Complete p (Rejected e))).
Proof.
  intros (Ht & Hw & Hp & Hpk & Htk & Hlog). cbn [step].
  destruct (lookup_lt_is_Some_2 _ _ Hpk) as [k Hk].
  rewrite (complete_unfold p (Rejected e) s k Hp Hk).
  assert (Hin : t ∈ woken s p).
  { apply elem_of_woken. split; [assumption|]. left.
    unfold awaits_existing. rewrite Ht. apply Nat.eqb_refl. }
  unfold rejected_unstarted. split; [now apply fold_reject_stat|].
  split; [|split; [|now apply fold_reject_log]].
  - apply (fold_resume_ind (fun s' => t < length (keys s'))); [assumption|].
    intros s' u _ H. now rewrite resume_keys.
  - apply (fold_resume_ind (fun s' => Started t ∉ log s')).
    + cbn [log]. intros H. apply elem_of_app in H as [H|H]; [contradiction|].
      apply list_elem_of_singleton in H. discriminate H.
    + intros s' u _ H H'. apply resume_started in H' as [H'|[_ H']];
        [contradiction|discriminate].
Qed.

Lemma rejected_unstarted_step s ev :
  rejected_unstarted s -> rejected_unstarted (step s ev).
Proof.
  intros (Ht & Htk & Hlog & Hab).
  assert (Hut : untouched t s (step s ev)).
  { destruct ev as [k|q o]; cbn [step]; [now apply queuedOperation_untouched|].
    destruct (decide (stat s !! q = Some Running)) as [Hrun|Hrun];
      [|rewrite complete_idle by assumption; apply untouched_refl].
    apply complete_untouched; [congruence| |];
      now apply (awaits_not_suspended s q t (Aborted e)). }
  destruct Hut as (A1 & A2 & _ & A4 & A5).
  unfold rejected_unstarted. rewrite A1. repeat split; auto; lia.
Qed.

Lemma rejected_unstarted_run evs : forall s,
  rejected_unstarted s -> rejected_unstarted (run evs s).
Proof.
  induction evs as [|ev evs IH]; intros s H; [assumption|].
  apply IH. now apply rejected_unstarted_step.
Qed.

Lemma suspended_on_run evs : forall s,
  suspended_on s -> (forall o, Complete p o ∉ evs) -> suspended_on (run evs s).
Proof.
  induction evs as [|ev evs IH]; intros s H Hev; [assumption|].
  apply IH.
  - apply suspended_on_step; [assumption|].
    intros o ->. apply (Hev o). apply list_elem_of_here.
  - intros o Ho. apply (Hev o). now apply list_elem_of_further.
Qed.

End Propagation.

(** ** The ceiling, when all keys differ *)

(** Every call in flight holds the map entry of its key. *)
Definition owned (s : state) : Prop :=
  forall t, stat s !! t = Some Running ->
    exists k, keys s !! t = Some k /\ operationQueue s !! k = Some t.

Lemma NoDup_lookup_inj (l : list string) i j k :
  NoDup l -> l !! i = Some k -> l !! j = Some k -> i = j.
Proof. intros Hn Hi Hj. eapply NoDup_lookup; eauto. Qed.

Lemma at_loop_owned t k s :
  NoDup (keys s) -> keys s !! t = Some k -> owned s -> owned (at_loop t k s).
Proof.
  intros Hn Hk Ho. unfold at_loop, owned.
  destruct (_ <=? _)%nat; cbn [operationQueue stat keys]; intros u.
  - destruct (decide (u = t)) as [->|Hne].
    + rewrite lookup_insert_eq. discriminate.
    + rewrite lookup_insert_ne by congruence. apply Ho.
  - destruct (decide (u = t)) as [->|Hne].
    + intros _. exists k. split; [assumption|apply lookup_insert_eq].
    + rewrite lookup_insert_ne by congruence. intros Hu.
      destruct (Ho u Hu) as (k' & Hk' & Hq). exists k'. split; [assumption|].
      rewrite lookup_insert_ne; [assumption|].
      intros ->. apply Hne. eapply NoDup_lookup_inj; eauto.
Qed.

Lemma resume_owned o s t : NoDup (keys s) -> owned s -> owned (resume o s t).
Proof.
  intros Hn Ho. unfold resume. destruct o as [|e].
  - destruct (keys s !! t) as [k|] eqn:Hk; [now apply at_loop_owned|assumption].
  - unfold owned. cbn [operationQueue stat keys]. intros u.
    destruct (decide (u = t)) as [->|Hne].
    + rewrite lookup_insert_eq. discriminate.
    + rewrite lookup_insert_ne by congruence. apply Ho.
Qed.

Lemma complete_owned p o s : NoDup (keys s) -> owned s -> owned (complete p o s).
Proof.
  intros Hn Ho. unfold complete.
  destruct (stat s !! p) as [[]|] eqn:Hp; try assumption.
  destruct (keys s !! p) as [k|] eqn:Hk; [|assumption].
  apply (fold_resume_ind (fun s' => keys s' = keys s /\ owned s')).
  - split; [reflexivity|]. unfold owned. cbn [operationQueue stat keys]. intros u.
    destruct (decide (u = p)) as [->|Hne].
    + rewrite lookup_insert_eq. discriminate.
    + rewrite lookup_insert_ne by congruence. intros Hu.
      destruct (Ho u Hu) as (k' & Hk' & Hq). exists k'. split; [assumption|].
      rewrite lookup_delete_ne; [assumption|].
      intros ->. apply Hne. eapply NoDup_lookup_inj; eauto.
  - intros s' u _ [Hkeys Hs']. split; [now rewrite resume_keys|].
    apply resume_owned; [now rewrite Hkeys|assumption].
Qed.

Lemma queuedOperation_owned k s : NoDup (keys s ++ [k]) -> wf s -> owned s -> owned (queuedOperation k s).
Proof.
  intros Hn Hwf Ho.
  assert (Hext : owned (mkState (operationQueue s) (keys s ++ [k]) (stat s)
                                (waiters s) (log s))).
  { unfold owned. cbn [operationQueue stat keys]. intros u Hu.
    destruct (Ho u Hu) as (k' & Hk' & Hq). exists k'. split; [|assumption].
    rewrite lookup_app_l; [assumption|]. now apply lookup_lt_Some in Hk'. }
  unfold queuedOperation. destruct (operationQueue s !! k) as [existing|] eqn:Hk.
  - unfold owned in *. cbn [operationQueue stat keys] in *. intros u.
    destruct (decide (u = length (keys s))) as [->|Hne].
    + rewrite lookup_insert_eq. discriminate.
    + rewrite lookup_insert_ne by congruence. apply Hext.
  - apply at_loop_owned; cbn [keys]; [assumption| |assumption].
    now rewrite list_lookup_middle.
Qed.

Lemma step_keys s ev : exists l, keys (step s ev) = keys s ++ l.
Proof.
  destruct ev as [k|p o]; cbn [step].
  - exists [k]. unfold queuedOperation. destruct (operationQueue s !! k); [reflexivity|].
    now rewrite at_loop_keys.
  - exists []. rewrite app_nil_r. unfold complete.
    destruct (stat s !! p) as [[]|]; try reflexivity.
    destruct (keys s !! p); [|reflexivity].
    apply (fold_resume_ind (fun s' => keys s' = keys s)); [reflexivity|].
    intros s' u _ H. now rewrite resume_keys.
Qed.

Lemma run_keys evs : forall s, exists l, keys (run evs s) = keys s ++ l.
Proof.
  induction evs as [|ev evs IH]; intros s; [exists []; now rewrite app_nil_r|].
  cbn [run fold_left]. destruct (IH (step s ev)) as [l Hl].
  destruct (step_keys s ev) as [l' Hl']. exists (l' ++ l).
  unfold run in Hl. rewrite Hl, Hl'. now rewrite app_assoc.
Qed.

Lemma step_owned s ev :
  NoDup (keys (step s ev)) -> wf s -> owned s -> owned (step s ev).
Proof.
  intros Hn Hwf Ho. destruct ev as [k|p o]; cbn [step] in *.
  - apply queuedOperation_owned; try assumption.
    destruct (step_keys s (Enqueue k)) as [l Hl]. cbn [step] in Hl.
    assert (Hk : keys (queuedOperation k s) = keys s ++ [k]).
    { unfold queuedOperation. destruct (operationQueue s !! k); [reflexivity|].
      now rewrite at_loop_keys. }
    now rewrite <- Hk.
  - apply complete_owned; [|assumption].
    destruct (step_keys s (Complete p o)) as [l Hl]. cbn [step] in Hl.
    rewrite Hl in Hn. now apply NoDup_app in Hn as (Hn & _).
Qed.

Lemma run_owned evs : forall s,
  NoDup (keys (run evs s)) -> wf s -> owned s -> owned (run evs s).
Proof.
  induction evs as [|ev evs IH]; intros s Hn Hwf Ho; [assumption|].
  cbn [run fold_left]. apply IH; [assumption|now apply step_wf|].
  apply step_owned; try assumption.
  destruct (run_keys evs (step s ev)) as [l Hl].
  cbn [run fold_left] in Hn. unfold run in Hl. rewrite Hl in Hn.
  now apply NoDup_app in Hn as (Hn & _).
Qed.

Lemma elem_of_running s t :
  t ∈ running s <-> t < length (keys s) /\ stat s !! t = Some Running.
Proof.
  unfold running. rewrite elem_of_filter_bool, elem_of_seq. unfold is_running.
  split.
  - intros [H1 H2]. split; [lia|]. destruct (stat s !! t) as [[]|]; congruence.
  - intros [H1 H2]. split; [lia|]. now rewrite H2.
Qed.

Lemma running_NoDup s : NoDup (running s).
Proof. apply NoDup_ListNoDup, List.NoDup_filter, NoDup_ListNoDup, NoDup_seq. Qed.

(** With pairwise distinct keys the calls in flight are counted by the
    map, and the map never holds more than the ceiling. *)
Lemma running_le_size s :
  NoDup (keys s) -> owned s -> length (running s) <= size (operationQueue s).
Proof.
  intros Hn Ho.
  assert (Hinj : NoDup (key_of s <$> running s)).
  { apply NoDup_fmap_2_strong; [|apply running_NoDup].
    intros t u Ht Hu E. apply elem_of_running in Ht as [Ht _], Hu as [Hu _].
    destruct (lookup_lt_is_Some_2 _ _ Ht) as [k Hk].
    destruct (lookup_lt_is_Some_2 _ _ Hu) as [k' Hk'].
    unfold key_of in E. rewrite Hk, Hk' in E. cbn in E. subst k'.
    eapply NoDup_lookup_inj; eauto. }
  rewrite <- (length_fmap (key_of s)), <- (size_list_to_set (C := gset string)) by assumption.
  rewrite <- (size_dom (D := gset string)). apply subseteq_size.
  intros k Hk. apply elem_of_list_to_set, list_elem_of_fmap in Hk as (t & -> & Ht).
  apply elem_of_running in Ht as [_ Ht]. destruct (Ho t Ht) as (k & Hk & Hq).
  apply elem_of_dom. unfold key_of. rewrite Hk. cbn. eauto.
Qed.

(** X25.  The ceiling holds when keys differ: whatever is enqueued and however
    the operations end (success or failure, in any order), as long as no key
    is enqueued twice at most [MAX_CONCURRENT_OPERATIONS] operations are in
    flight at any time. *)
Lemma ceiling_with_distinct_keys (evs : list event) :
  NoDup (keys (run evs empty)) ->
  length (running (run evs empty)) <= MAX_CONCURRENT_OPERATIONS.
Proof.
  intros Hn.
  assert (Hwf : wf (run evs empty)) by (apply run_wf, wf_empty).
  assert (Ho : owned (run evs empty)).
  { apply run_owned; [assumption|apply wf_empty|].
    intros t. cbn. now rewrite lookup_empty. }
  etransitivity; [now apply running_le_size|apply (wf_size _ Hwf)].
Qed.

(** ** No call waits for nothing *)

(** What a suspended call waits for is in flight, and every suspended call
    is on the list of waiters; [X] lists the calls that are being resumed
    and for which this is not required. *)
Record live_but (X : list nat) (s : state) : Prop := mkLive {
  live_existing : forall t q, t ∉ X -> stat s !! t = Some (AwaitExisting q) ->
                    stat s !! q = Some Running;
  live_race : forall t ps, t ∉ X -> stat s !! t = Some (AwaitRace ps) ->
                ps <> [] /\ forall q, q ∈ ps -> stat s !! q = Some Running;
  live_waiters : forall t, t ∉ X -> awaiting (stat s !! t) = true -> t ∈ waiters s;
  live_total : forall t, t ∉ X -> t < length (keys s) -> is_Some (stat s !! t)
}.

Lemma values_running s q :
  wf s -> q ∈ values (operationQueue s) -> stat s !! q = Some Running.
Proof.
  intros Hwf Hq. unfold values in Hq.
  apply list_elem_of_fmap in Hq as ([k q'] & -> & Hq).
  apply elem_of_map_to_list in Hq. now destruct (wf_queue s Hwf k q' Hq).
Qed.

Lemma values_nonempty (m : gmap string nat) : size m <> 0 -> values m <> [].
Proof.
  intros Hsz Hv. apply Hsz. rewrite <- length_map_to_list.
  unfold values in Hv. apply fmap_nil_inv in Hv. now rewrite Hv.
Qed.

Lemma at_loop_live X t k s :
  wf s -> live_but (t :: X) s -> stat s !! t <> Some Running ->
  keys s !! t = Some k -> live_but X (at_loop t k s).
Proof.
  intros Hwf [L1 L2 L3 L4] Hrun Hk.
  assert (Hdep : forall q, stat s !! q = Some Running -> q <> t) by (intros q H ->; auto).
  unfold at_loop. destruct (_ <=? _)%nat eqn:Hfull;
    split; cbn [operationQueue stat keys waiters].
  - intros u q Hu. destruct (decide (u = t)) as [->|Hne].
    + rewrite lookup_insert_eq. discriminate.
    + rewrite lookup_insert_ne by congruence. intros H.
      assert (Hq : stat s !! q = Some Running)
        by (apply (L1 u); [rewrite not_elem_of_cons; auto|assumption]).
      rewrite lookup_insert_ne; [assumption|]. symmetry. auto.
  - intros u ps Hu. destruct (decide (u = t)) as [->|Hne].
    + rewrite lookup_insert_eq. intros [= <-]. split.
      * apply values_nonempty. apply Nat.leb_le in Hfull.
        unfold MAX_CONCURRENT_OPERATIONS in Hfull. lia.
      * intros q Hq. apply (values_running s q Hwf) in Hq.
        rewrite lookup_insert_ne; [assumption|]. symmetry. auto.
    + rewrite lookup_insert_ne by congruence. intros H.
      destruct (L2 u ps) as [Hne' Hall]; [rewrite not_elem_of_cons; auto|assumption|].
      split; [assumption|]. intros q Hq. specialize (Hall q Hq).
      rewrite lookup_insert_ne; [assumption|]. symmetry. auto.
  - intros u Hu. destruct (decide (u = t)) as [->|Hne].
    + intros _. apply elem_of_app. right. apply list_elem_of_here.
    + rewrite lookup_insert_ne by congruence. intros H.
      apply elem_of_app. left. apply L3; [rewrite not_elem_of_cons; auto|assumption].
  - intros u Hu Hlt. destruct (decide (u = t)) as [->|Hne].
    + rewrite lookup_insert_eq. eauto.
    + rewrite lookup_insert_ne by congruence.
      apply L4; [rewrite not_elem_of_cons; auto|assumption].
  - intros u q Hu. destruct (decide (u = t)) as [->|Hne].
    + rewrite lookup_insert_eq. discriminate.
    + rewrite lookup_insert_ne by congruence. intros H.
      assert (Hq : stat s !! q = Some Running)
        by (apply (L1 u); [rewrite not_elem_of_cons; auto|assumption]).
      rewrite lookup_insert_ne; [assumption|]. symmetry. auto.
  - intros u ps Hu. destruct (decide (u = t)) as [->|Hne].
    + rewrite lookup_insert_eq. discriminate.
    + rewrite lookup_insert_ne by congruence. intros H.
      destruct (L2 u ps) as [Hne' Hall]; [rewrite not_elem_of_cons; auto|assumption|].
      split; [assumption|]. intros q Hq. specialize (Hall q Hq).
      rewrite lookup_insert_ne; [assumption|]. symmetry. auto.
  - intros u Hu. destruct (decide (u = t)) as [->|Hne].
    + rewrite lookup_insert_eq. discriminate.
    + rewrite lookup_insert_ne by congruence. intros H.
      apply L3; [rewrite not_elem_of_cons; auto|assumption].
  - intros u Hu Hlt. destruct (decide (u = t)) as [->|Hne].
    + rewrite lookup_insert_eq. eauto.
    + rewrite lookup_insert_ne by congruence.
      apply L4; [rewrite not_elem_of_cons; auto|assumption].
Qed.

Lemma resume_live X o s t :
  wf s -> live_but (t :: X) s -> awaiting (stat s !! t) = true ->
  live_but X (resume o s t).
Proof.
  intros Hwf Hlive Haw.
  assert (Hrun : stat s !! t <> Some Running) by now apply awaiting_not_running.
  assert (Hlt : t < length (keys s)).
  { destruct (stat s !! t) as [st|] eqn:E; [now apply (wf_stat s Hwf) in E|discriminate]. }
  unfold resume. destruct o as [|e].
  - destruct (lookup_lt_is_Some_2 _ _ Hlt) as [k Hk]. rewrite Hk.
    now apply at_loop_live.
  - destruct Hlive as [L1 L2 L3 L4].
    assert (Hdep : forall q, stat s !! q = Some Running -> q <> t) by (intros q H ->; auto).
    split; cbn [operationQueue stat keys waiters].
    + intros u q Hu. destruct (decide (u = t)) as [->|Hne].
      * rewrite lookup_insert_eq. discriminate.
      * rewrite lookup_insert_ne by congruence. intros H.
        assert (Hq : stat s !! q = Some Running)
          by (apply (L1 u); [rewrite not_elem_of_cons; auto|assumption]).
        rewrite lookup_insert_ne; [assumption|]. symmetry. auto.
    + intros u ps Hu. destruct (decide (u = t)) as [->|Hne].
      * rewrite lookup_insert_eq. discriminate.
      * rewrite lookup_insert_ne by congruence. intros H.
        destruct (L2 u ps) as [Hne' Hall]; [rewrite not_elem_of_cons; auto|assumption|].
        split; [assumption|]. intros q Hq. specialize (Hall q Hq).
        rewrite lookup_insert_ne; [assumption|]. symmetry. auto.
    + intros u Hu. destruct (decide (u = t)) as [->|Hne].
      * rewrite lookup_insert_eq. discriminate.
      * rewrite lookup_insert_ne by congruence. intros H.
        apply L3; [rewrite not_elem_of_cons; auto|assumption].
    + intros u Hu Hlt'. destruct (decide (u = t)) as [->|Hne].
      * rewrite lookup_insert_eq. eauto.
      * rewrite lookup_insert_ne by congruence.
        apply L4; [rewrite not_elem_of_cons; auto|assumption].
Qed.

Lemma fold_resume_live o woken :
  NoDup woken ->
  forall s,
    wf s -> live_but woken s ->
    (forall u, u ∈ woken -> (u ∉ waiters s) /\ awaiting (stat s !! u) = true) ->
    live_but [] (fold_left (resume o) woken s).
Proof.
  induction 1 as [|u woken Hu Hnd IH]; intros s Hwf Hlive Hall; [assumption|].
  cbn [fold_left]. destruct (Hall u (list_elem_of_here _ _)) as [Hu1 Hu2].
  apply IH; [now apply resume_wf|now apply resume_live|].
  intros v Hv. assert (Hne : v <> u) by (intros ->; contradiction).
  destruct (Hall v (list_elem_of_further _ _ _ Hv)) as [Hv1 Hv2]. split.
  - intros H. apply resume_waiters_inv in H as [H|H]; contradiction.
  - now rewrite resume_stat_ne.
Qed.

Lemma complete_live p o s : wf s -> live_but [] s -> live_but [] (complete p o s).
Proof.
  intros Hwf Hlive. pose proof Hwf as [Hq Hs Hl Hn Hw Hz].
  pose proof Hlive as [L1 L2 L3 L4].
  destruct (decide (stat s !! p = Some Running)) as [Hp|Hp];
    [|now rewrite complete_idle].
  destruct (lookup_lt_is_Some_2 _ _ (Hs _ _ Hp)) as [k Hk].
  pose proof (complete_wf p o s Hwf) as Hwf'.
  rewrite (complete_unfold p o s k Hp Hk) in *.
  set (s1 := mkState _ _ _ _ _) in *.
  assert (Hwf1 : wf s1).
  { (* the state before the reactions run *)
    split; cbn [s1 operationQueue stat log waiters keys].
    + intros k' q. destruct (decide (k' = k)) as [->|Hne].
      * now rewrite lookup_delete_eq.
      * rewrite lookup_delete_ne by congruence. intros H.
        destruct (Hq _ _ H) as [H1 H2]. split; [|assumption].
        rewrite lookup_insert_ne; [assumption|]. intros ->. congruence.
    + intros u st. destruct (decide (u = p)) as [->|Hne]; [intros _; eauto|].
      rewrite lookup_insert_ne by congruence. apply Hs.
    + intros u Hu. apply elem_of_app in Hu as [Hu|Hu]; [now apply Hl|].
      apply list_elem_of_singleton in Hu. discriminate Hu.
    + apply NoDup_ListNoDup, List.NoDup_filter, NoDup_ListNoDup, Hn.
    + intros u Hu. apply elem_of_filter_bool in Hu as [Hu _].
      rewrite lookup_insert_ne; [now apply Hw|].
      intros ->. apply Hw in Hu. now apply (awaiting_not_running s u).
    + rewrite map_size_delete. destruct (operationQueue s !! k); cbn; lia. }
  assert (Hnw : forall u, u ∉ woken s p -> awaiting (stat s !! u) = true ->
                          awaits_existing s p u = false /\ awaits_race s p u = false).
  { intros u Hu Haw. rewrite elem_of_woken in Hu.
    destruct (awaits_existing s p u) eqn:E1, (awaits_race s p u) eqn:E2; auto;
      exfalso; apply Hu; (split; [apply L3; [apply not_elem_of_nil|assumption]|auto]). }
  apply fold_resume_live; [now apply woken_NoDup|assumption| |].
  - split; cbn [s1 operationQueue stat log waiters keys].
    + intros u q Hu. destruct (decide (u = p)) as [->|Hne].
      * rewrite lookup_insert_eq. discriminate.
      * rewrite lookup_insert_ne by congruence. intros H.
        assert (Hq' : stat s !! q = Some Running) by (eapply L1; [apply not_elem_of_nil|eauto]).
        rewrite lookup_insert_ne; [assumption|]. intros ->.
        destruct (Hnw u Hu) as [E _]; [now rewrite H|].
        unfold awaits_existing in E. rewrite H, Nat.eqb_refl in E. discriminate.
    + intros u ps Hu. destruct (decide (u = p)) as [->|Hne].
      * rewrite lookup_insert_eq. discriminate.
      * rewrite lookup_insert_ne by congruence. intros H.
        destruct (L2 u ps) as [Hne' Hall]; [apply not_elem_of_nil|assumption|].
        split; [assumption|]. intros q Hq'. specialize (Hall q Hq').
        rewrite lookup_insert_ne; [assumption|]. intros ->.
        destruct (Hnw u Hu) as [_ E]; [now rewrite H|].
        unfold awaits_race in E. rewrite H in E.
        now apply bool_decide_eq_false in E.
    + intros u Hu. destruct (decide (u = p)) as [->|Hne].
      * rewrite lookup_insert_eq. discriminate.
      * rewrite lookup_insert_ne by congruence. intros H.
        apply elem_of_filter_bool. split; [apply L3; [apply not_elem_of_nil|assumption]|].
        destruct (Hnw u Hu H) as [-> ->]. reflexivity.
    + intros u Hu Hlt. destruct (decide (u = p)) as [->|Hne].
      * rewrite lookup_insert_eq. eauto.
      * rewrite lookup_insert_ne by congruence. apply L4; [apply not_elem_of_nil|assumption].
  - intros u Hu. apply elem_of_woken in Hu as [Hu Haw].
    cbn [s1 waiters stat]. split.
    + intros H. apply elem_of_filter_bool in H as [_ H].
      apply negb_true_iff, orb_false_iff in H as [H1 H2].
      destruct Haw; congruence.
    + rewrite lookup_insert_ne; [now apply (awaits_awaiting s p)|].
      intros ->. apply (awaiting_not_running s u); [|assumption].
      now apply (awaits_awaiting s u).
Qed.

Lemma queuedOperation_live k s : wf s -> live_but [] s -> live_but [] (queuedOperation k s).
Proof.
  intros Hwf Hlive. pose proof Hwf as [Hq Hs Hl Hn Hw Hz].
  pose proof Hlive as [L1 L2 L3 L4].
  assert (Hnone : stat s !! length (keys s) = None).
  { destruct (stat s !! length (keys s)) as [st|] eqn:E; [|reflexivity].
    apply Hs in E. lia. }
  assert (Hdep : forall q, stat s !! q = Some Running -> length (keys s) <> q).
  { intros q H E. rewrite <- E, Hnone in H. discriminate. }
  unfold queuedOperation. destruct (operationQueue s !! k) as [existing|] eqn:Hk.
  - destruct (Hq _ _ Hk) as [Hrun _].
    split; cbn [operationQueue stat keys waiters].
    + intros u q _. destruct (decide (u = length (keys s))) as [->|Hne].
      * rewrite lookup_insert_eq. intros [= <-].
        rewrite lookup_insert_ne; [assumption|auto].
      * rewrite lookup_insert_ne by congruence. intros H.
        assert (Hq' : stat s !! q = Some Running) by (eapply L1; [apply not_elem_of_nil|eauto]).
        rewrite lookup_insert_ne; [assumption|auto].
    + intros u ps _. destruct (decide (u = length (keys s))) as [->|Hne].
      * rewrite lookup_insert_eq. discriminate.
      * rewrite lookup_insert_ne by congruence. intros H.
        destruct (L2 u ps) as [Hne' Hall]; [apply not_elem_of_nil|assumption|].
        split; [assumption|]. intros q Hq'. specialize (Hall q Hq').
        rewrite lookup_insert_ne; [assumption|auto].
    + intros u _. destruct (decide (u = length (keys s))) as [->|Hne].
      * intros _. apply elem_of_app. right. apply list_elem_of_here.
      * rewrite lookup_insert_ne by congruence. intros H.
        apply elem_of_app. left. apply L3; [apply not_elem_of_nil|assumption].
    + intros u _. rewrite length_app. cbn [length]. intros Hlt.
      destruct (decide (u = length (keys s))) as [->|Hne].
      * rewrite lookup_insert_eq. eauto.
      * rewrite lookup_insert_ne by congruence. apply L4; [apply not_elem_of_nil|lia].
  - apply at_loop_live; cbn [operationQueue stat keys waiters].
    + split; cbn [operationQueue stat log waiters keys]; try assumption.
      * intros k' q H. destruct (Hq _ _ H) as [H1 H2]. split; [assumption|].
        rewrite lookup_app_l; [assumption|]. now apply lookup_lt_Some in H2.
      * intros u st H. apply Hs in H. rewrite length_app. lia.
      * intros u H. apply Hl in H. rewrite length_app. lia.
    + split; cbn [operationQueue stat keys waiters].
      * intros u q _. apply L1, not_elem_of_nil.
      * intros u ps _. apply L2, not_elem_of_nil.
      * intros u _. apply L3, not_elem_of_nil.
      * intros u Hu. rewrite length_app. cbn [length]. intros Hlt.
        apply L4; [apply not_elem_of_nil|].
        rewrite not_elem_of_cons in Hu. destruct Hu as [Hu _]. lia.
    + now rewrite Hnone.
    + now rewrite list_lookup_middle.
Qed.

Lemma live_empty : live_but [] empty.
Proof.
  split; cbn [empty stat keys waiters].
  - intros t q _ H. now rewrite lookup_empty in H.
  - intros t ps _ H. now rewrite lookup_empty in H.
  - intros t _ H. now rewrite lookup_empty in H.
  - intros t _ H. cbn in H. lia.
Qed.

Lemma run_live evs : forall s, wf s -> live_but [] s -> live_but [] (run evs s).
Proof.
  induction evs as [|ev evs IH]; intros s Hwf Hlive; [assumption|].
  cbn [run fold_left]. apply IH; [now apply step_wf|].
  destruct ev; [now apply queuedOperation_live|now apply complete_live].
Qed.

(** Whenever a call is suspended, some operation is in flight: a call
    never waits for something that cannot happen. *)
Lemma suspended_implies_running (evs : list event) :
  let s := run evs empty in
  waiters s <> [] -> running s <> [].
Proof.
  intros s Hw.
  assert (Hwf : wf s) by (apply run_wf, wf_empty).
  assert (Hlive : live_but [] s) by (apply run_live; [apply wf_empty|apply live_empty]).
  destruct (waiters s) as [|u w] eqn:E; [congruence|].
  assert (Hu : u ∈ waiters s) by (rewrite E; apply list_elem_of_here).
  assert (Hrun : exists q, stat s !! q = Some Running).
  { pose proof (wf_waiters s Hwf u Hu) as Haw. unfold awaiting in Haw.
    destruct (stat s !! u) as [[q|ps| | |]|] eqn:Hst; try discriminate.
    - exists q. eapply live_existing; [exact Hlive|apply not_elem_of_nil|exact Hst].
    - destruct (live_race [] s Hlive u ps (not_elem_of_nil _) Hst) as [Hne Hall].
      destruct ps as [|q ps]; [congruence|].
      exists q. apply Hall, list_elem_of_here. }
  destruct Hrun as [q Hq]. intros Hnil.
  assert (Hin : q ∈ running s).
  { apply elem_of_running. split; [now apply (wf_stat s Hwf) in Hq|assumption]. }
  rewrite Hnil in Hin. now apply not_elem_of_nil in Hin.
Qed.

(** ** Every completion brings the queue closer to being drained *)

Definition is_pending (st : option status) : bool :=
  match st with
  | Some (AwaitExisting _) | Some (AwaitRace _) | Some Running => true
  | _ => false
  end.

(** The number of calls that are suspended or in flight. *)
Definition pending (s : state) : nat :=
  length (List.filter (fun t => is_pending (stat s !! t)) (seq 0 (length (keys s)))).

Lemma filter_length_le {A} (f g : A -> bool) (l : list A) :
  (forall x, x ∈ l -> f x = true -> g x = true) ->
  length (List.filter f l) <= length (List.filter g l).
Proof.
  induction l as [|a l IH]; intros H; [reflexivity|].
  assert (Hl : length (List.filter f l) <= length (List.filter g l)).
  { apply IH. intros x Hx. apply H. now apply list_elem_of_further. }
  cbn [List.filter]. pose proof (H a (list_elem_of_here _ _)) as Ha.
  destruct (f a), (g a); cbn [length]; lia.
Qed.

Lemma filter_length_lt {A} (f g : A -> bool) (l : list A) y :
  (forall x, x ∈ l -> f x = true -> g x = true) ->
  y ∈ l -> g y = true -> f y = false ->
  length (List.filter f l) < length (List.filter g l).
Proof.
  induction l as [|a l IH]; intros H Hy Hg Hf; [now apply not_elem_of_nil in Hy|].
  assert (Hl : length (List.filter f l) <= length (List.filter g l)).
  { apply filter_length_le. intros x Hx. apply H. now apply list_elem_of_further. }
  cbn [List.filter]. pose proof (H a (list_elem_of_here _ _)) as Ha.
  apply elem_of_cons in Hy as [->|Hy].
  - rewrite Hg, Hf. cbn [length]. lia.
  - assert (Hlt : length (List.filter f l) < length (List.filter g l)).
    { apply IH; try assumption. intros x Hx. apply H. now apply list_elem_of_further. }
    destruct (f a), (g a); cbn [length]; lia.
Qed.

Lemma at_loop_pending t k s u :
  is_pending (stat (at_loop t k s) !! u) = true -> u = t \/ is_pending (stat s !! u) = true.
Proof.
  destruct (decide (u = t)) as [->|Hne]; [now left|].
  rewrite at_loop_stat_ne by assumption. now right.
Qed.

Lemma resume_pending o s t u :
  is_pending (stat (resume o s t) !! u) = true -> u = t \/ is_pending (stat s !! u) = true.
Proof.
  destruct (decide (u = t)) as [->|Hne]; [now left|].
  rewrite resume_stat_ne by assumption. now right.
Qed.

Lemma awaiting_pending st : awaiting st = true -> is_pending st = true.
Proof. destruct st as [[]|]; cbn; congruence. Qed.

(** When an operation in flight finishes, one call fewer is pending. *)
Lemma complete_pending p o s :
  stat s !! p = Some Running -> p < length (keys s) ->
  pending (complete p o s) < pending s.
Proof.
  intros Hp Hlt. destruct (lookup_lt_is_Some_2 _ _ Hlt) as [k Hk].
  rewrite (complete_unfold p o s k Hp Hk).
  set (s1 := mkState _ _ _ _ _).
  assert (H : keys (fold_left (resume o) (woken s p) s1) = keys s
              /\ stat (fold_left (resume o) (woken s p) s1) !! p = Some (Settled o)
              /\ forall u, is_pending (stat (fold_left (resume o) (woken s p) s1) !! u) = true ->
                           is_pending (stat s !! u) = true).
  { apply (fold_resume_ind
             (fun s' => keys s' = keys s
                        /\ stat s' !! p = Some (Settled o)
                        /\ forall u, is_pending (stat s' !! u) = true ->
                                     is_pending (stat s !! u) = true)).
    - split; [reflexivity|]. cbn [s1 stat]. split; [apply lookup_insert_eq|].
      intros u. destruct (decide (u = p)) as [->|Hne].
      + now rewrite lookup_insert_eq.
      + now rewrite lookup_insert_ne by congruence.
    - intros s' u Hu (Hkeys & Hst & Hpend).
      apply elem_of_woken in Hu as [_ Haw]. apply awaits_awaiting in Haw.
      split; [now rewrite resume_keys|]. split.
      + rewrite resume_stat_ne; [assumption|].
        intros ->. now apply (awaiting_not_running s u).
      + intros v Hv. apply resume_pending in Hv as [->|Hv]; [|now apply Hpend].
        now apply awaiting_pending. }
  destruct H as (Hkeys & Hst & Hpend). unfold pending. rewrite Hkeys.
  apply (filter_length_lt _ _ _ p).
  - intros u _. apply Hpend.
  - apply elem_of_seq. lia.
  - now rewrite Hp.
  - now rewrite Hst.
Qed.

(** ** When no operation fails *)

Definition succeeds (ev : event) : bool :=
  match ev with
  | Complete _ (Rejected _) => false
  | _ => true
  end.

(** No call has rejected and no operation has failed. *)
Definition never_failed (s : state) : Prop :=
  forall t st, stat s !! t = Some st ->
    (forall e, st <> Aborted e) /\ (forall e, st <> Settled (Rejected e)).

Lemma at_loop_never_failed t k s : never_failed s -> never_failed (at_loop t k s).
Proof.
  intros Hs u st. destruct (decide (u = t)) as [->|Hne].
  - unfold at_loop. destruct (_ <=? _)%nat; cbn [stat]; rewrite lookup_insert_eq;
      intros [= <-]; split; discriminate.
  - rewrite at_loop_stat_ne by assumption. apply Hs.
Qed.

Lemma step_never_failed s ev :
  succeeds ev = true -> never_failed s -> never_failed (step s ev).
Proof.
  intros Hev Hs. destruct ev as [k|p o]; cbn [step].
  - unfold queuedOperation. destruct (operationQueue s !! k) as [existing|].
    + intros u st. cbn [stat]. destruct (decide (u = length (keys s))) as [->|Hne].
      * rewrite lookup_insert_eq. intros [= <-]. split; discriminate.
      * rewrite lookup_insert_ne by congruence. apply Hs.
    + now apply at_loop_never_failed.
  - destruct o as [|e]; [|discriminate Hev]. unfold complete.
    destruct (stat s !! p) as [[]|]; try assumption.
    destruct (keys s !! p); [|assumption].
    apply (fold_resume_ind never_failed).
    + intros u st. cbn [stat]. destruct (decide (u = p)) as [->|Hne].
      * rewrite lookup_insert_eq. intros [= <-]. split; discriminate.
      * rewrite lookup_insert_ne by congruence. apply Hs.
    + intros s' u _ Hs'. unfold resume.
      destruct (keys s' !! u); [now apply at_loop_never_failed|assumption].
Qed.

Lemma run_never_failed evs : forall s,
  forallb succeeds evs = true -> never_failed s -> never_failed (run evs s).
Proof.
  induction evs as [|ev evs IH]; intros s Hev Hs; [assumption|].
  cbn [forallb] in Hev. apply andb_true_iff in Hev as [H1 H2].
  cbn [run fold_left]. apply IH; [assumption|now apply step_never_failed].
Qed.

(** X26.  Completion when nothing fails.  As long as no operation
    fails: whenever a call is suspended some operation is in flight; every
    operation that finishes leaves one pending call fewer; and once nothing
    is in flight every call made has run its operation to the end. *)
Lemma all_complete_when_none_fails (evs : list event) :
  forallb succeeds evs = true ->
  let s := run evs empty in
  (waiters s <> [] -> running s <> [])
  /\ (forall p, p ∈ running s -> pending (step s (Complete p Fulfilled)) < pending s)
  /\ (running s = [] ->
      forall t, t < length (keys s) -> stat s !! t = Some (Settled Fulfilled)).
Proof.
  intros Hev s.
  assert (Hwf : wf s) by (apply run_wf, wf_empty).
  assert (Hlive : live_but [] s) by (apply run_live; [apply wf_empty|apply live_empty]).
  assert (Hnf : never_failed s).
  { apply run_never_failed; [assumption|]. intros t st H.
    cbn [empty stat] in H. now rewrite lookup_empty in H. }
  split; [apply suspended_implies_running|]. split.
  - intros p Hp. apply elem_of_running in Hp as [Hlt Hp]. now apply complete_pending.
  - intros Hnil t Hlt.
    assert (Hw : waiters s = []).
    { destruct (waiters s) eqn:E; [reflexivity|].
      exfalso. apply (suspended_implies_running evs); [fold s; now rewrite E|assumption]. }
    destruct (live_total [] s Hlive t (not_elem_of_nil _) Hlt) as [st Hst].
    destruct (Hnf t st Hst) as [Hab Hrej].
    destruct st as [q|ps| |[|e]|e].
    + exfalso. assert (Hin : t ∈ waiters s)
        by (apply (live_waiters [] s Hlive); [apply not_elem_of_nil|now rewrite Hst]).
      rewrite Hw in Hin. now apply not_elem_of_nil in Hin.
    + exfalso. assert (Hin : t ∈ waiters s)
        by (apply (live_waiters [] s Hlive); [apply not_elem_of_nil|now rewrite Hst]).
      rewrite Hw in Hin. now apply not_elem_of_nil in Hin.
    + exfalso. assert (Hin : t ∈ running s) by now apply elem_of_running.
      rewrite Hnil in Hin. now apply not_elem_of_nil in Hin.
    + assumption.
    + now destruct (Hrej e).
    + now destruct (Hab e).
Qed.

(** X27.  Two calls are ordered.  A call made for [k] while the map holds
    the promise of call [p] under [k] starts its operation, if it ever
    does, only after the operation of [p] has finished. *)
Lemma waiting_call_starts_after_completion
    (evs0 evs1 : list event) (k : string) (p : nat) :
  let s0 := run evs0 empty in
  let t := length (keys s0) in
  let s := run (Enqueue k :: evs1) s0 in
  operationQueue s0 !! k = Some p ->
  Started t ∈ log s ->
  exists o, Finished p o ∈ log s.
Proof.
  intros s0 t s Hk Hstart.
  assert (Hwf : wf s0) by (apply run_wf, wf_empty).
  destruct (wf_queue s0 Hwf k p Hk) as [Hrun Hkey].
  assert (Hp : p < length (keys s0)) by now apply lookup_lt_Some in Hkey.
  assert (Hsusp : suspended_on t p (queuedOperation k s0)).
  { unfold suspended_on, queuedOperation. rewrite Hk. cbn [stat waiters keys log].
    fold t. rewrite lookup_insert_eq, lookup_insert_ne by lia.
    rewrite length_app. cbn [length].
    repeat split; try assumption; try lia.
    - apply elem_of_app. right. apply list_elem_of_here.
    - intros H. apply (wf_log s0 Hwf) in H. unfold t in H. lia. }
  subst s. cbn [run fold_left] in Hstart |- *. cbn [step] in Hstart |- *.
  fold (run evs1 (queuedOperation k s0)) in Hstart |- *.
  revert Hsusp Hstart. generalize (queuedOperation k s0) as s1. clear.
  induction evs1 as [|ev evs1 IH]; intros s1 Hsusp Hstart.
  - destruct Hsusp as (_ & _ & _ & _ & _ & Hno). contradiction.
  - cbn [run fold_left] in *. fold (run evs1 (step s1 ev)) in *.
    destruct (completion_of p ev) eqn:Hev.
    + destruct ev as [|q o]; [discriminate|]. cbn in Hev.
      apply Nat.eqb_eq in Hev as ->. exists o.
      assert (Hin : Finished p o ∈ log (step s1 (Complete p o))).
      { destruct Hsusp as (_ & _ & Hrun & Hlt & _).
        destruct (lookup_lt_is_Some_2 _ _ Hlt) as [k Hk].
        cbn [step]. rewrite (complete_unfold p o s1 k Hrun Hk).
        apply (fold_resume_ind (fun s' => Finished p o ∈ log s')).
        - cbn [log]. apply elem_of_app. right. apply list_elem_of_here.
        - intros s' u _ H. now apply resume_log_incl. }
      clear -Hin. revert Hin. generalize (step s1 (Complete p o)) as s2.
      induction evs1 as [|ev evs1 IH]; intros s2 Hin; [assumption|].
      cbn [run fold_left]. apply IH.
      destruct ev as [k'|q o']; cbn [step].
      * unfold queuedOperation. destruct (operationQueue s2 !! k'); [assumption|].
        now apply at_loop_log_incl.
      * unfold complete. destruct (stat s2 !! q) as [[]|]; try assumption.
        destruct (keys s2 !! q); [|assumption].
        apply (fold_resume_ind (fun s' => Finished p o ∈ log s')).
        -- cbn [log]. apply elem_of_app. now left.
        -- intros s' u _ H. now apply resume_log_incl.
    + apply IH; [|assumption]. apply suspended_on_step; [assumption|].
      intros o ->. cbn in Hev. now rewrite Nat.eqb_refl in Hev.
Qed.

Lemma run_app evs1 evs2 s : run (evs1 ++ evs2) s = run evs2 (run evs1 s).
Proof. apply fold_left_app. Qed.

(** ** What the queue guarantees, and what it does not *)

(** C9, as amended.  Take any state the queue can be in, and a key [k]
    whose entry in the pending map is the promise of call [p].  A call of
    [queuedOperation] for [k] made now suspends on that promise; if the
    operation of [p] later fails with [e], the call rejects with [e]
    without ever calling its own operation, whatever else happens before
    and after. *)
Theorem failure_reaches_waiting_call
    (evs0 evs1 evs2 : list event) (k : string) (p : nat) (e : string) :
  let s0 := run evs0 empty in
  let t := length (keys s0) in
  let s := run (Enqueue k :: evs1 ++ Complete p (Rejected e) :: evs2) s0 in
  operationQueue s0 !! k = Some p ->
  forallb (fun ev => negb (completion_of p ev)) evs1 = true ->
  stat s !! t = Some (Aborted e)
  /\ (Abort t e ∈ log s)
  /\ (Started t ∉ log s).
Proof.
  intros s0 t s Hk Hev.
  assert (Hev' : forall o, Complete p o ∉ evs1).
  { intros o Ho. rewrite forallb_forall in Hev.
    apply list_elem_of_In, Hev in Ho. cbn in Ho. now rewrite Nat.eqb_refl in Ho. }
  clear Hev. rename Hev' into Hev.
  assert (Hwf : wf s0) by (apply run_wf, wf_empty).
  destruct (wf_queue s0 Hwf k p Hk) as [Hrun Hkey].
  assert (Hp : p < length (keys s0)) by now apply lookup_lt_Some in Hkey.
  assert (Hsusp : suspended_on t p (queuedOperation k s0)).
  { unfold suspended_on, queuedOperation. rewrite Hk. cbn [stat waiters keys log].
    fold t. rewrite lookup_insert_eq, lookup_insert_ne by lia.
    rewrite length_app. cbn [length].
    repeat split; try assumption; try lia.
    - apply elem_of_app. right. apply list_elem_of_here.
    - intros H. apply (wf_log s0 Hwf) in H. unfold t in H. lia. }
  assert (Hdone : rejected_unstarted t e s).
  { unfold s. change (Enqueue k :: ?l) with ([Enqueue k] ++ l).
    rewrite !run_app. change (Complete p (Rejected e) :: evs2)
      with ([Complete p (Rejected e)] ++ evs2).
    rewrite run_app. apply rejected_unstarted_run.
    apply (suspended_on_reject t p e).
    now apply suspended_on_run. }
  destruct Hdone as (H1 & _ & H3 & H4). auto.
Qed.

Lemma failure_reaches_waiting_call_witness :
  let s0 := run [Enqueue "/src/a.ts"; Enqueue "/src/b.ts"] empty in
  let s := run (Enqueue "/src/a.ts" ::
                [Complete 1 Fulfilled; Enqueue "/src/c.ts"]
                ++ Complete 0 (Rejected "EPERM") :: [Complete 3 Fulfilled]) s0 in
  stat s !! 2 = Some (Aborted "EPERM")
  /\ (Abort 2 "EPERM" ∈ log s)
  /\ (Started 2 ∉ log s).
Proof.
  apply (failure_reaches_waiting_call
           [Enqueue "/src/a.ts"; Enqueue "/src/b.ts"]
           [Complete 1 Fulfilled; Enqueue "/src/c.ts"] [Complete 3 Fulfilled]
           "/src/a.ts" 0 "EPERM");
    vm_compute; reflexivity.
Defined.

(** C9, as stated, fails: an operation for [k] can be pending without its
    promise being the one the map holds under [k].  Three deletions of one
    file are reported and the first removal succeeds: calls 1 and 2 are
    both in flight and the map holds the promise of call 2.  A fourth
    deletion is reported: call 3 awaits call 2.  Then call 1 fails with
    EPERM.  Call 3 is not rejected; when call 2 has finished it runs its
    operation. *)
Lemma failure_misses_overlapping_call :
  ~ (forall (evs0 evs1 evs2 : list event) (k : string) (p : nat) (e : string),
       let s0 := run evs0 empty in
       let t := length (keys s0) in
       let s := run (Enqueue k :: evs1 ++ Complete p (Rejected e) :: evs2) s0 in
       keys s0 !! p = Some k -> stat s0 !! p = Some Running ->
       forallb (fun ev => negb (completion_of p ev)) evs1 = true ->
       stat s !! t = Some (Aborted e) /\ Started t ∉ log s).
Proof.
  intros H.
  specialize (H [Enqueue "/src/a.ts"; Enqueue "/src/a.ts"; Enqueue "/src/a.ts";
                 Complete 0 Fulfilled]
                [] [Complete 2 Fulfilled] "/src/a.ts" 1 "EPERM" eq_refl eq_refl eq_refl).
  destruct H as [H _]. vm_compute in H. discriminate H.
Qed.

(** The run behind it. *)
Example overlapping_call_is_not_reached :
  let k := "/src/a.ts" in
  let s0 := run [Enqueue k; Enqueue k; Enqueue k; Complete 0 Fulfilled] empty in
  let s := run [Enqueue k; Complete 1 (Rejected "EPERM"); Complete 2 Fulfilled] s0 in
  running s0 = [1; 2] /\ operationQueue s0 !! k = Some 2
  /\ log s = [Started 0; Finished 0 Fulfilled; Started 1; Started 2;
              Finished 1 (Rejected "EPERM"); Finished 2 Fulfilled; Started 3]
  /\ stat s !! 3 = Some Running.
Proof. vm_compute. repeat split; reflexivity. Qed.

(** C1 at its failing input: three deletions of the same file are reported
    before the first removal has finished.  The second and third call both
    suspend on the first promise; when it settles both continue, neither
    looks at the map again, and the two operations run at the same time.
    When the second one finishes it deletes the entry of the third, so the
    map no longer shows the key although an operation for it is in flight. *)
Theorem three_calls_overlap :
  let k := "/src/a.ts" in
  let s := run [Enqueue k; Enqueue k; Enqueue k; Complete 0 Fulfilled] empty in
  let s' := run [Complete 1 Fulfilled] s in
  log s = [Started 0; Finished 0 Fulfilled; Started 1; Started 2]
  /\ running s = [1; 2]
  /\ key_of s 1 = k /\ key_of s 2 = k
  /\ running s' = [2]
  /\ operationQueue s' !! k = None.
Proof. vm_compute. repeat split; reflexivity. Qed.

(** The ten keys that fill the queue, and an eleventh. *)
Definition ten_keys : list string :=
  ["/src/a.ts"; "/src/b.ts"; "/src/c.ts"; "/src/d.ts"; "/src/e.ts";
   "/src/f.ts"; "/src/g.ts"; "/src/h.ts"; "/src/i.ts"; "/src/j.ts"].

(** Two calls for one key are enough when the queue is full: both suspend
    on a race, the first to continue takes the free slot, and the second
    starts as soon as any other operation finishes. *)
Example two_calls_overlap_when_full :
  let s := run (map Enqueue ten_keys
                ++ [Enqueue "/src/z.ts"; Enqueue "/src/z.ts";
                    Complete 0 Fulfilled; Complete 1 Fulfilled]) empty in
  running s = [2; 3; 4; 5; 6; 7; 8; 9; 10; 11]
  /\ key_of s 10 = "/src/z.ts" /\ key_of s 11 = "/src/z.ts".
Proof. vm_compute. repeat split; reflexivity. Qed.

(** C5 at its failing input: eleven files are deleted at once and the
    removal for the first fails.  The eleventh call is suspended on the race
    over the ten promises in flight; the race rejects, the rejection is
    thrown at the [await], and the call ends without calling its operation.
    After the other nine have finished nothing is in flight and nothing is
    suspended: the eleventh operation is never run. *)
Theorem blocked_call_is_dropped_on_failure :
  let s := run (map Enqueue (ten_keys ++ ["/src/k.ts"])
                ++ Complete 0 (Rejected "EPERM")
                   :: map (fun t => Complete t Fulfilled) (seq 1 9)) empty in
  stat s !! 10 = Some (Aborted "EPERM")
  /\ List.existsb (fun a => bool_decide (a = Started 10)) (log s) = false
  /\ running s = []
  /\ waiters s = [].
Proof. vm_compute. repeat split; reflexivity. Qed.

(** ** The pending map *)

(** X28.  The pending map is kept tidy, even where calls for one key overlap:
    whatever is enqueued and however the operations end, the map never
    holds more than [MAX_CONCURRENT_OPERATIONS] promises, and every promise
    in it is that of an operation in flight, stored under the key the
    operation was enqueued with. *)
Theorem operationQueue_holds_calls_in_flight (evs : list event) :
  let s := run evs empty in
  size (operationQueue s) <= MAX_CONCURRENT_OPERATIONS
  /\ forall k p, operationQueue s !! k = Some p ->
       stat s !! p = Some Running /\ keys s !! p = Some k.
Proof.
  intros s. assert (Hwf : wf s) by (apply run_wf, wf_empty).
  split; [apply (wf_size s Hwf)|apply (wf_queue s Hwf)].
Qed.

Lemma ceiling_with_distinct_keys_witness :
  length (running (run (map Enqueue (ten_keys ++ ["/src/k.ts"; "/src/l.ts"])
                        ++ [Complete 3 (Rejected "EPERM"); Complete 0 Fulfilled]) empty))
  <= MAX_CONCURRENT_OPERATIONS.
Proof.
  apply (ceiling_with_distinct_keys
           (map Enqueue (ten_keys ++ ["/src/k.ts"; "/src/l.ts"])
            ++ [Complete 3 (Rejected "EPERM"); Complete 0 Fulfilled])).
  apply (bool_decide_unpack _). vm_compute. exact I.
Defined.

Lemma all_complete_when_none_fails_witness :
  let s := run (map Enqueue (ten_keys ++ ["/src/a.ts"; "/src/k.ts"])
                ++ map (fun t => Complete t Fulfilled) (seq 0 12)) empty in
  (waiters s <> [] -> running s <> [])
  /\ (forall p, p ∈ running s -> pending (step s (Complete p Fulfilled)) < pending s)
  /\ (running s = [] ->
      forall t, t < length (keys s) -> stat s !! t = Some (Settled Fulfilled)).
Proof.
  apply (all_complete_when_none_fails
           (map Enqueue (ten_keys ++ ["/src/a.ts"; "/src/k.ts"])
            ++ map (fun t => Complete t Fulfilled) (seq 0 12))).
  reflexivity.
Defined.

Lemma waiting_call_starts_after_completion_witness :
  exists o, Finished 0 o
            ∈ log (run (Enqueue "/src/a.ts" :: [Enqueue "/src/b.ts"; Complete 0 Fulfilled])
                       (run [Enqueue "/src/a.ts"] empty)).
Proof.
  apply (waiting_call_starts_after_completion
           [Enqueue "/src/a.ts"] [Enqueue "/src/b.ts"; Complete 0 Fulfilled] "/src/a.ts" 0).
  - reflexivity.
  - apply (bool_decide_unpack _). vm_compute. exact I.
Defined.


(** ** The log and the calls *)

(** Call [t] has not got to its operation and has not rejected. *)
Definition unstarted (s : state) (t : nat) : Prop :=
  stat s !! t = None \/ awaiting (stat s !! t) = true.

(** The log agrees with where the calls are. *)
Record tidy (s : state) : Prop := mkTidy {
  tidy_nodup : NoDup (log s);
  tidy_started : forall t, Started t ∈ log s ->
                   stat s !! t = Some Running \/ exists o, stat s !! t = Some (Settled o);
  tidy_running : forall t, stat s !! t = Some Running -> Started t ∈ log s;
  tidy_finished : forall t o, Finished t o ∈ log s ->
                    stat s !! t = Some (Settled o) /\ Started t ∈ log s;
  tidy_abort : forall t e, Abort t e ∈ log s -> stat s !! t = Some (Aborted e)
}.

Lemma unstarted_not s t :
  unstarted s t ->
  stat s !! t <> Some Running /\ (forall o, stat s !! t <> Some (Settled o))
  /\ (forall e, stat s !! t <> Some (Aborted e)).
Proof.
  intros [H|H]; [rewrite H; repeat split; congruence|].
  destruct (stat s !! t) as [[]|]; cbn in H; try discriminate; repeat split; congruence.
Qed.

Lemma at_loop_tidy t k s : tidy s -> unstarted s t -> tidy (at_loop t k s).
Proof.
  intros [Hn Hs Hr Hf Ha] Hu. destruct (unstarted_not s t Hu) as (U1 & U2 & U3).
  assert (Hnot : Started t ∉ log s).
  { intros H. destruct (Hs t H) as [H1|[o H1]]; [contradiction|now apply (U2 o)]. }
  unfold at_loop. destruct (_ <=? _)%nat; split; cbn [log stat].
  - exact Hn.
  - intros u H. destruct (decide (u = t)) as [->|Hne]; [contradiction|].
    rewrite lookup_insert_ne by congruence. now apply Hs.
  - intros u. destruct (decide (u = t)) as [->|Hne].
    + rewrite lookup_insert_eq. discriminate.
    + rewrite lookup_insert_ne by congruence. apply Hr.
  - intros u o H. destruct (Hf u o H) as [H1 H2]. split; [|exact H2].
    rewrite lookup_insert_ne; [exact H1|]. intros ->. now apply (U2 o).
  - intros u e H. rewrite lookup_insert_ne; [now apply Ha|].
    intros ->. apply Ha in H. now apply (U3 e).
  - apply NoDup_app. repeat split; [exact Hn| |apply NoDup_singleton].
    intros a Ha1 Ha2. apply list_elem_of_singleton in Ha2. subst a. contradiction.
  - intros u H. apply elem_of_app in H as [H|H].
    + destruct (decide (u = t)) as [->|Hne]; [contradiction|].
      rewrite lookup_insert_ne by congruence. now apply Hs.
    + apply list_elem_of_singleton in H. injection H as E. subst u.
      rewrite lookup_insert_eq. now left.
  - intros u. destruct (decide (u = t)) as [->|Hne].
    + intros _. apply elem_of_app. right. apply list_elem_of_here.
    + rewrite lookup_insert_ne by congruence. intros H. apply elem_of_app. left. now apply Hr.
  - intros u o H. apply elem_of_app in H as [H|H];
      [|apply list_elem_of_singleton in H; discriminate H].
    destruct (Hf u o H) as [H1 H2]. split; [|apply elem_of_app; now left].
    rewrite lookup_insert_ne; [exact H1|]. intros ->. now apply (U2 o).
  - intros u e H. apply elem_of_app in H as [H|H];
      [|apply list_elem_of_singleton in H; discriminate H].
    rewrite lookup_insert_ne; [now apply Ha|].
    intros ->. apply Ha in H. now apply (U3 e).
Qed.

Lemma resume_tidy o s t : tidy s -> unstarted s t -> tidy (resume o s t).
Proof.
  intros Ht Hu. unfold resume. destruct o as [|e].
  { destruct (keys s !! t); [now apply at_loop_tidy|assumption]. }
  destruct Ht as [Hn Hs Hr Hf Ha]. destruct (unstarted_not s t Hu) as (U1 & U2 & U3).
  split; cbn [log stat].
  - apply NoDup_app. repeat split; [exact Hn| |apply NoDup_singleton].
    intros a Ha1 Ha2. apply list_elem_of_singleton in Ha2. subst a.
    apply Ha in Ha1. now apply (U3 e).
  - intros u H. apply elem_of_app in H as [H|H];
      [|apply list_elem_of_singleton in H; discriminate H].
    rewrite lookup_insert_ne; [now apply Hs|]. intros E. subst u.
    destruct (Hs t H) as [H1|[o H1]]; [contradiction|now apply (U2 o)].
  - intros u. destruct (decide (u = t)) as [->|Hne].
    + rewrite lookup_insert_eq. discriminate.
    + rewrite lookup_insert_ne by congruence. intros H. apply elem_of_app. left. now apply Hr.
  - intros u o H. apply elem_of_app in H as [H|H];
      [|apply list_elem_of_singleton in H; discriminate H].
    destruct (Hf u o H) as [H1 H2]. split; [|apply elem_of_app; now left].
    rewrite lookup_insert_ne; [exact H1|]. intros ->. now apply (U2 o).
  - intros u e' H. apply elem_of_app in H as [H|H].
    + rewrite lookup_insert_ne; [now apply Ha|].
      intros ->. apply Ha in H. now apply (U3 e').
    + apply list_elem_of_singleton in H. injection H as E1 E2. subst u e'.
      now rewrite lookup_insert_eq.
Qed.

Lemma fold_resume_tidy o woken :
  NoDup woken ->
  forall s, tidy s -> (forall u, u ∈ woken -> unstarted s u) ->
            tidy (fold_left (resume o) woken s).
Proof.
  induction 1 as [|u woken Hu Hnd IH]; intros s Ht Hall; [assumption|].
  cbn [fold_left]. apply IH.
  - apply resume_tidy; [assumption|]. apply Hall, list_elem_of_here.
  - intros v Hv. assert (Hne : v <> u) by (intros ->; contradiction).
    unfold unstarted. rewrite resume_stat_ne by assumption.
    apply Hall. now apply list_elem_of_further.
Qed.

Lemma complete_tidy p o s : wf s -> tidy s -> tidy (complete p o s).
Proof.
  intros Hwf Ht.
  destruct (decide (stat s !! p = Some Running)) as [Hp|Hp];
    [|now rewrite complete_idle].
  destruct (lookup_lt_is_Some_2 _ _ (wf_stat s Hwf _ _ Hp)) as [k Hk].
  rewrite (complete_unfold p o s k Hp Hk).
  destruct Ht as [Hn Hs Hr Hf Ha].
  apply fold_resume_tidy; [apply woken_NoDup, (wf_nodup s Hwf)| |].
  - split; cbn [log stat].
    + apply NoDup_app. repeat split; [exact Hn| |apply NoDup_singleton].
      intros a Ha1 Ha2. apply list_elem_of_singleton in Ha2. subst a.
      destruct (Hf p o Ha1) as [H1 _]. congruence.
    + intros u H. apply elem_of_app in H as [H|H];
        [|apply list_elem_of_singleton in H; discriminate H].
      destruct (decide (u = p)) as [->|Hne].
      * rewrite lookup_insert_eq. right. now exists o.
      * rewrite lookup_insert_ne by congruence. now apply Hs.
    + intros u. destruct (decide (u = p)) as [->|Hne].
      * rewrite lookup_insert_eq. discriminate.
      * rewrite lookup_insert_ne by congruence. intros H. apply elem_of_app. left.
        now apply Hr.
    + intros u o' H. apply elem_of_app in H as [H|H].
      * destruct (Hf u o' H) as [H1 H2]. split; [|apply elem_of_app; now left].
        rewrite lookup_insert_ne; [exact H1|]. intros ->. congruence.
      * apply list_elem_of_singleton in H. injection H as E1 E2. subst u o'.
        rewrite lookup_insert_eq. split; [reflexivity|].
        apply elem_of_app. left. now apply Hr.
    + intros u e H. apply elem_of_app in H as [H|H];
        [|apply list_elem_of_singleton in H; discriminate H].
      rewrite lookup_insert_ne; [now apply Ha|]. intros ->. apply Ha in H. congruence.
  - intros u Hu. apply elem_of_woken in Hu as [Hu Haw]. right. cbn [stat].
    rewrite lookup_insert_ne; [now apply (awaits_awaiting s p)|].
    intros ->. apply (awaiting_not_running s u); [|assumption].
    now apply (awaits_awaiting s u).
Qed.

Lemma queuedOperation_tidy k s : wf s -> tidy s -> tidy (queuedOperation k s).
Proof.
  intros Hwf Ht.
  assert (Hfresh : stat s !! length (keys s) = None).
  { destruct (stat s !! length (keys s)) as [st|] eqn:E; [|reflexivity].
    apply (wf_stat s Hwf) in E. lia. }
  unfold queuedOperation. destruct (operationQueue s !! k) as [p|].
  - destruct Ht as [Hn Hs Hr Hf Ha]. split; cbn [log stat].
    + exact Hn.
    + intros u H. rewrite lookup_insert_ne; [now apply Hs|].
      intros E. destruct (Hs u H) as [H1|[o H1]]; rewrite <- E in H1; congruence.
    + intros u. destruct (decide (u = length (keys s))) as [->|Hne].
      * rewrite lookup_insert_eq. discriminate.
      * rewrite lookup_insert_ne by congruence. apply Hr.
    + intros u o H. destruct (Hf u o H) as [H1 H2]. split; [|exact H2].
      rewrite lookup_insert_ne; [exact H1|]. intros E. rewrite <- E in H1. congruence.
    + intros u e H. rewrite lookup_insert_ne; [now apply Ha|].
      intros E. apply Ha in H. rewrite <- E in H. congruence.
  - apply at_loop_tidy; [|now left].
    destruct Ht as [Hn Hs Hr Hf Ha]. now split.
Qed.

Lemma tidy_empty : tidy empty.
Proof.
  split; cbn [log stat empty].
  - apply NoDup_nil_2.
  - intros t H. now apply not_elem_of_nil in H.
  - intros t H. now rewrite lookup_empty in H.
  - intros t o H. now apply not_elem_of_nil in H.
  - intros t e H. now apply not_elem_of_nil in H.
Qed.

Lemma run_tidy evs : forall s, wf s -> tidy s -> tidy (run evs s).
Proof.
  induction evs as [|ev evs IH]; intros s Hwf Ht; [assumption|].
  cbn [run fold_left]. apply IH; [now apply step_wf|].
  destruct ev; [now apply queuedOperation_tidy|now apply complete_tidy].
Qed.

(** X29.  No call runs its operation twice.  Whatever is enqueued and however
    the operations end, nothing is logged twice: the operation of a call is
    started at most once and finishes at most once, with one outcome; an
    operation that finishes was started; and a call that rejected at an
    [await] has never started its operation. *)
Theorem each_call_runs_its_operation_at_most_once (evs : list event) :
  let s := run evs empty in
  NoDup (log s)
  /\ (forall t o o', Finished t o ∈ log s -> Finished t o' ∈ log s -> o = o')
  /\ (forall t o, Finished t o ∈ log s -> Started t ∈ log s)
  /\ (forall t e, Abort t e ∈ log s ->
        (Started t ∉ log s) /\ forall o, Finished t o ∉ log s).
Proof.
  intros s.
  assert (Ht : tidy s) by (apply run_tidy; [apply wf_empty|apply tidy_empty]).
  destruct Ht as [Hn Hs Hr Hf Ha].
  split; [exact Hn|]. split; [|split; [intros t o H; now apply (Hf t o)|]].
  - intros t o o' H H'. destruct (Hf t o H) as [H1 _]. destruct (Hf t o' H') as [H2 _].
    congruence.
  - intros t e H. apply Ha in H. split.
    + intros H'. destruct (Hs t H') as [H1|[o H1]]; congruence.
    + intros o H'. destruct (Hf t o H') as [H1 _]. congruence.
Qed.


End Queue.
